(** * hq: a lazy node-set query algebra over parsed HTML trees

    Shallow embedding of [hq/html_query.go] (package [hq] of goplus-dt).

    The tree of [*html.Node] values is a mutable pointer graph owned by
    the parser; it is modelled as an arena ([heap]) of node records whose
    five navigation fields are nullable arena indices.  The combinators
    ([NodeEnum] implementations) become a tagged union, and their
    push-style [ForEach] becomes a function in a small state monad over
    the heap and the private state of the visitor closure.  Recursive
    walks and pointer-chasing loops carry a fuel argument. *)

From Stdlib Require Import ZArith Lia Ascii String.
From stdpp Require Import base option list strings.

Open Scope Z_scope.

(** ** Go runtime data *)

(** Go's [int] on the 64-bit targets the package is built for. *)
Abbreviation int := Z (only parsing).

Definition wrap (z : Z) : int := (z + 2 ^ 63) mod 2 ^ 64 - 2 ^ 63.

(** The values an [error] interface takes in this package; the nil
    interface is [None].  [ErrNotFound] and [ErrBreak] are the errno
    values [syscall.ENOENT] and [syscall.ELOOP]; the others are distinct
    [errors.New] objects, compared by identity. *)
Inductive errval :=
| ENOENT
| ELOOP
| ErrTooManyNodes
| ErrInvalidNode
| ErrNotTextNode
| ErrOther (msg : string).

Abbreviation error := (option errval) (only parsing).

Definition ErrNotFound : errval := ENOENT.
Definition ErrBreak : errval := ELOOP.

#[global] Instance errval_eq_dec : EqDecision errval.
Proof. solve_decision. Defined.

(** [err == ErrBreak] *)
Definition is_break (err : error) : bool := bool_decide (err = Some ErrBreak).

(** ** The external tree: golang.org/x/net/html *)

Module html.

Inductive NodeType :=
| ErrorNode
| TextNode
| DocumentNode
| ElementNode
| CommentNode
| DoctypeNode.

#[global] Instance NodeType_eq_dec : EqDecision NodeType.
Proof. solve_decision. Defined.

(** [html.Attribute]; its field [Namespace] is [AttrNamespace] here. *)
Record Attribute := { AttrNamespace : string; Key : string; Val : string }.

(** [atom.Atom] is an integer code for a known tag name. *)
Definition Atom := N.

(** A node pointer: [None] is nil. *)
Abbreviation loc := nat (only parsing).
Abbreviation ptr := (option nat) (only parsing).

Record Node := {
  Parent : ptr;
  FirstChild : ptr;
  LastChild : ptr;
  PrevSibling : ptr;
  NextSibling : ptr;
  Type_ : NodeType;
  DataAtom : Atom;
  Data : string;
  Namespace : string;
  Attr : list Attribute
}.

End html.

(** [atom.P] and [atom.Div]: the integer codes of the tag names [p] and
    [div].  The table of x/net/html/atom is not part of the package; the
    package only compares atoms for equality, so all that matters here is
    that the two codes differ. *)
Module atom.
Definition P : html.Atom := 0xc01%N.
Definition Div : html.Atom := 0x16b03%N.
End atom.

(** The arena holding the nodes of the tree. *)
Abbreviation heap := (list html.Node) (only parsing).

(** ** Outcomes and the drive monad *)

(** Why a Go call did not return: a nil pointer was dereferenced, a slice
    was indexed out of range, [panic] was called with a message, or (model
    only) an arena index outside the arena was followed. *)
Inductive panic :=
| NilDeref
| IndexOutOfRange
| PanicMsg (msg : string)
| InvalidPointer.

Inductive outcome (A : Type) :=
| Done (a : A)
| Panics (why : panic)
| OutOfFuel.

Arguments Done {A} a.
Arguments Panics {A} why.
Arguments OutOfFuel {A}.

(** What a running drive can touch: the tree, and the variables captured
    by the visitor closure of the terminal operation. *)
Record world (St : Type) := World { mem : heap; vis : St }.

Arguments World {St} mem vis.
Arguments mem {St} w.
Arguments vis {St} w.

Definition M (St A : Type) : Type := world St -> outcome (A * world St).

Definition ret {St A} (a : A) : M St A := fun w => Done (a, w).

Definition bind {St A B} (m : M St A) (k : A -> M St B) : M St B :=
  fun w =>
    match m w with
    | Done (a, w') => k a w'
    | Panics why => Panics why
    | OutOfFuel => OutOfFuel
    end.

Notation "x <- m ;; k" := (bind m (fun x => k))
  (at level 100, m at next level, right associativity).

Definition throw {St A} (why : panic) : M St A := fun _ => Panics why.

Definition out_of_fuel {St A} : M St A := fun _ => OutOfFuel.

(** Reading through a node pointer. *)
Definition deref {St} (p : html.ptr) : M St html.Node :=
  fun w =>
    match p with
    | None => Panics NilDeref
    | Some x =>
      match mem w !! x with
      | Some n => Done (n, w)
      | None => Panics InvalidPointer
      end
    end.

(** Assigning fields through a node pointer. *)
Definition update {St} (p : html.ptr) (f : html.Node -> html.Node) : M St unit :=
  fun w =>
    match p with
    | None => Panics NilDeref
    | Some x =>
      match mem w !! x with
      | Some n => Done (tt, World (<[x := f n]> (mem w)) (vis w))
      | None => Panics InvalidPointer
      end
    end.

(** [&html.Node{...}]: a fresh node at the end of the arena. *)
Definition new_node {St} (n : html.Node) : M St html.ptr :=
  fun w => Done (Some (length (mem w)), World (mem w ++ [n]) (vis w)).

(** A computation that only reads the tree. *)
Definition reading {St A} (f : heap -> outcome A) : M St A :=
  fun w =>
    match f (mem w) with
    | Done a => Done (a, w)
    | Panics why => Panics why
    | OutOfFuel => OutOfFuel
    end.

(** The visitor of [NodeEnum.ForEach]: [func(node *html.Node) error]. *)
Definition visitor (St : Type) : Type := html.ptr -> M St error.

(** [for node := start; node != nil; node = node.<link> { body }].
    The body answers [Some a] to make the enclosing function return [a]
    and [None] to fall through to the next iteration; the link is read
    after the body has run. *)
Fixpoint for_links {St A} (fuel : nat) (link : html.Node -> html.ptr)
    (body : html.ptr -> M St (option A)) (node : html.ptr) : M St (option A) :=
  match fuel with
  | O => out_of_fuel
  | S fuel' =>
    match node with
    | None => ret None
    | Some _ =>
      r <- body node ;;
      match r with
      | Some a => ret (Some a)
      | None => n <- deref node ;; for_links fuel' link body (link n)
      end
    end
  end.

(** ** Text extraction *)

Definition tab : ascii := ascii_of_nat 9.
Definition lf : ascii := ascii_of_nat 10.
Definition cr : ascii := ascii_of_nat 13.

(** The cutset [" \t\r\n"]. *)
Definition blanks : string :=
  String " " (String tab (String cr (String lf ""))).

Module strings.

(** Whether the byte [c] occurs in [s]. *)
Fixpoint hasByte (s : string) (c : ascii) : bool :=
  match s with
  | EmptyString => false
  | String d r => if Ascii.eqb c d then true else hasByte r c
  end.

Fixpoint TrimLeft (s cutset : string) : string :=
  match s with
  | EmptyString => EmptyString
  | String c r => if hasByte cutset c then TrimLeft r cutset else s
  end.

Fixpoint TrimRight (s cutset : string) : string :=
  match s with
  | EmptyString => EmptyString
  | String c r =>
    match TrimRight r cutset with
    | EmptyString => if hasByte cutset c then EmptyString else String c EmptyString
    | r' => String c r'
    end
  end.

(** [strings.Trim] for a cutset of single-byte characters. *)
Definition Trim (s cutset : string) : string :=
  TrimRight (TrimLeft s cutset) cutset.

End strings.

Record textPrinter := { data : string; notLineStart : bool }.

Definition printText (v : string) : M textPrinter unit :=
  fun w =>
    if bool_decide (v = "") then Done (tt, w)
    else
      let p := vis w in
      let p :=
        if notLineStart p
        then {| data := data p +:+ " "; notLineStart := notLineStart p |}
        else {| data := data p; notLineStart := true |} in
      Done (tt, World (mem w)
                  {| data := data p +:+ v; notLineStart := notLineStart p |}).

(** The [switch node.DataAtom] at the end of [printNode]. *)
Definition endOfNode (a : html.Atom) : M textPrinter unit :=
  fun w =>
    if bool_decide (a = atom.P)
    then Done (tt, World (mem w)
                     {| data := data (vis w) +:+ String lf "";
                        notLineStart := false |})
    else Done (tt, w).

Fixpoint printNode (fuel : nat) (node : html.ptr) : M textPrinter unit :=
  match fuel with
  | O => out_of_fuel
  | S fuel' =>
    match node with
    | None => ret tt
    | Some _ =>
      n <- deref node ;;
      if bool_decide (html.Type_ n = html.TextNode) then
        printText (strings.Trim (html.Data n) blanks)
      else
        _ <- for_links (A := unit) fuel' html.NextSibling
               (fun child => _ <- printNode fuel' child ;; ret None)
               (html.FirstChild n) ;;
        endOfNode (html.DataAtom n)
    end
  end.

(** Text extracts formatted node text. *)
Definition Text (fuel : nat) (node : html.ptr) (h : heap) : outcome string :=
  match printNode fuel node (World h {| data := ""; notLineStart := false |}) with
  | Done (_, w) => Done (data (vis w))
  | Panics why => Panics why
  | OutOfFuel => OutOfFuel
  end.

(** ExactText returns a text node's text. *)
Definition ExactText (node : html.ptr) (h : heap) : outcome (string * error) :=
  match node with
  | None => Panics NilDeref
  | Some x =>
    match h !! x with
    | None => Panics InvalidPointer
    | Some n =>
      if negb (bool_decide (html.Type_ n = html.TextNode)) then
        Done (html.Data n, None)
      else
        Done ("", Some ErrNotTextNode)
    end
  end.

(** FirstChild returns first nodeType node. *)
Definition FirstChild {St} (fuel : nat) (node : html.ptr) (nodeType : html.NodeType)
    : M St (html.ptr * error) :=
  n <- deref node ;;
  r <- for_links fuel html.NextSibling
         (fun p => c <- deref p ;;
                   if bool_decide (html.Type_ c = nodeType) then ret (Some p) else ret None)
         (html.FirstChild n) ;;
  match r with
  | Some p => ret (p, None)
  | None => ret (None, Some ErrNotFound)
  end.

(** LastChild returns last nodeType node. *)
Definition LastChild {St} (fuel : nat) (node : html.ptr) (nodeType : html.NodeType)
    : M St (html.ptr * error) :=
  n <- deref node ;;
  r <- for_links fuel html.PrevSibling
         (fun p => c <- deref p ;;
                   if bool_decide (html.Type_ c = nodeType) then ret (Some p) else ret None)
         (html.LastChild n) ;;
  match r with
  | Some p => ret (p, None)
  | None => ret (None, Some ErrNotFound)
  end.

(** ** The enumerable family *)

(** The implementations of [NodeEnum], with [nilEnum] for the nil
    interface value.  [matchedNodes] carries its predicate closure, which
    reads the tree through the pointer it is given. *)
Inductive NodeEnum :=
| nilEnum
| oneNode (node : html.ptr)
| fixNodes (nodes : list html.ptr)
| anyNodes (data : NodeEnum)
| childLevelNodes (data : NodeEnum) (level : int)
| parentLevelNodes (data : NodeEnum) (level : int)
| siblingNodes (data : NodeEnum) (delta : int)
| prevSiblingNodes (data : NodeEnum)
| nextSiblingNodes (data : NodeEnum)
| firstChildNodes (data : NodeEnum) (nodeType : html.NodeType)
| lastChildNodes (data : NodeEnum) (nodeType : html.NodeType)
| matchedNodes (data : NodeEnum) (filter : html.ptr -> heap -> outcome bool)
| textNodes (data : NodeEnum) (doReplace : bool).

(** [for _, node := range p.nodes { if filter(node) == ErrBreak { return } }] *)
Fixpoint rangeNodes {St} (nodes : list html.ptr) (filter : visitor St) : M St unit :=
  match nodes with
  | [] => ret tt
  | node :: rest =>
    err <- filter node ;;
    if is_break err then ret tt else rangeNodes rest filter
  end.

(** The result of a helper whose sibling loop either returned early or
    ran off the end of the list and reached [return nil]. *)
Definition or_nil (r : option error) : error :=
  match r with
  | Some err => err
  | None => None
  end.

Fixpoint anyForEach {St} (fuel : nat) (p : html.ptr) (filter : visitor St) : M St error :=
  match fuel with
  | O => out_of_fuel
  | S fuel' =>
    err <- filter p ;;
    if bool_decide (err = None) || is_break err then ret err
    else
      n <- deref p ;;
      r <- for_links fuel' html.NextSibling
             (fun node =>
                e <- anyForEach fuel' node filter ;;
                if is_break e then ret (Some (Some ErrBreak)) else ret None)
             (html.FirstChild n) ;;
      ret (or_nil r)
  end.

Fixpoint childLevelForEach {St} (fuel : nat) (p : html.ptr) (level : int)
    (filter : visitor St) : M St error :=
  match fuel with
  | O => out_of_fuel
  | S fuel' =>
    if level =? 0 then filter p
    else
      let level := wrap (level - 1) in
      n <- deref p ;;
      r <- for_links fuel' html.NextSibling
             (fun node =>
                e <- childLevelForEach fuel' node level filter ;;
                if is_break e then ret (Some (Some ErrBreak)) else ret None)
             (html.FirstChild n) ;;
      ret (or_nil r)
  end.

(** The loop of [parentLevelForEach], one iteration per unit of fuel. *)
Fixpoint parentLevelForEach {St} (fuel : nat) (p : html.ptr) (level : int)
    (filter : visitor St) : M St error :=
  match fuel with
  | O => out_of_fuel
  | S fuel' =>
    if level <? 0 then
      n <- deref p ;;
      match html.Parent n with
      | None => ret (Some ErrNotFound)
      | Some q => parentLevelForEach fuel' (Some q) (wrap (level + 1)) filter
      end
    else filter p
  end.

(** The two stepping loops of [siblingForEach], one iteration per unit of
    fuel: forward while [delta > 0], then backward while [delta < 0]. *)
Fixpoint siblingForEach {St} (fuel : nat) (p : html.ptr) (delta : int)
    (filter : visitor St) : M St error :=
  match fuel with
  | O => out_of_fuel
  | S fuel' =>
    if 0 <? delta then
      n <- deref p ;;
      match html.NextSibling n with
      | None => ret (Some ErrNotFound)
      | Some q => siblingForEach fuel' (Some q) (wrap (delta - 1)) filter
      end
    else if delta <? 0 then
      n <- deref p ;;
      match html.PrevSibling n with
      | None => ret (Some ErrNotFound)
      | Some q => siblingForEach fuel' (Some q) (wrap (delta + 1)) filter
      end
    else filter p
  end.

(** The closure bodies of [prevSiblingNodes.ForEach] and
    [nextSiblingNodes.ForEach]. *)
Definition allSiblingsForEach {St} (fuel : nat) (link : html.Node -> html.ptr)
    (node : html.ptr) (filter : visitor St) : M St error :=
  n <- deref node ;;
  r <- for_links fuel link
         (fun p => e <- filter p ;;
                   if is_break e then ret (Some (Some ErrBreak)) else ret None)
         (link n) ;;
  ret (or_nil r).

(** The synthetic node of [textNodes.ForEach]. *)
Definition textNode (t : html.ptr) (s : string) : html.Node :=
  {| html.Parent := t;
     html.FirstChild := None;
     html.LastChild := None;
     html.PrevSibling := None;
     html.NextSibling := None;
     html.Type_ := html.TextNode;
     html.DataAtom := 0%N;
     html.Data := s;
     html.Namespace := "";
     html.Attr := [] |}.

Definition setFirstChild (c : html.ptr) (n : html.Node) : html.Node :=
  {| html.Parent := html.Parent n;
     html.FirstChild := c;
     html.LastChild := html.LastChild n;
     html.PrevSibling := html.PrevSibling n;
     html.NextSibling := html.NextSibling n;
     html.Type_ := html.Type_ n;
     html.DataAtom := html.DataAtom n;
     html.Data := html.Data n;
     html.Namespace := html.Namespace n;
     html.Attr := html.Attr n |}.

Definition setLastChild (c : html.ptr) (n : html.Node) : html.Node :=
  {| html.Parent := html.Parent n;
     html.FirstChild := html.FirstChild n;
     html.LastChild := c;
     html.PrevSibling := html.PrevSibling n;
     html.NextSibling := html.NextSibling n;
     html.Type_ := html.Type_ n;
     html.DataAtom := html.DataAtom n;
     html.Data := html.Data n;
     html.Namespace := html.Namespace n;
     html.Attr := html.Attr n |}.

Definition textForEach {St} (fuel : nat) (doReplace : bool) (t : html.ptr)
    (filter : visitor St) : M St error :=
  s <- reading (Text fuel t) ;;
  node <- new_node (textNode t s) ;;
  _ <- (if doReplace then
          _ <- update t (setFirstChild node) ;;
          update t (setLastChild node)
        else ret tt) ;;
  filter node.

(** [ForEach] of every implementation.  The method returns nothing: what
    the visitor answers is seen by the implementation only. *)
Fixpoint ForEach {St} (fuel : nat) (p : NodeEnum) (filter : visitor St) : M St unit :=
  match p with
  | nilEnum => throw NilDeref
  | oneNode node => _ <- filter node ;; ret tt
  | fixNodes nodes => rangeNodes nodes filter
  | anyNodes data =>
    ForEach fuel data (fun node => _ <- anyForEach fuel node filter ;; ret None)
  | childLevelNodes data level =>
    ForEach fuel data (fun node => childLevelForEach fuel node level filter)
  | parentLevelNodes data level =>
    ForEach fuel data (fun node => parentLevelForEach fuel node level filter)
  | siblingNodes data delta =>
    ForEach fuel data (fun node => siblingForEach fuel node delta filter)
  | prevSiblingNodes data =>
    ForEach fuel data (fun node => allSiblingsForEach fuel html.PrevSibling node filter)
  | nextSiblingNodes data =>
    ForEach fuel data (fun node => allSiblingsForEach fuel html.NextSibling node filter)
  | firstChildNodes data nodeType =>
    ForEach fuel data
      (fun node =>
         r <- FirstChild fuel node nodeType ;;
         match snd r with
         | Some err => ret (Some err)
         | None => filter (fst r)
         end)
  | lastChildNodes data nodeType =>
    ForEach fuel data
      (fun node =>
         r <- LastChild fuel node nodeType ;;
         match snd r with
         | Some err => ret (Some err)
         | None => filter (fst r)
         end)
  | matchedNodes data pred =>
    ForEach fuel data
      (fun node =>
         ok <- reading (pred node) ;;
         if ok : bool then filter node else ret (Some ErrNotFound))
  | textNodes data doReplace =>
    ForEach fuel data (fun t => textForEach fuel doReplace t filter)
  end.

(** [Cached] of the implementations that have the method. *)
Definition Cached (p : NodeEnum) : option int :=
  match p with
  | oneNode _ => Some 1
  | fixNodes nodes => Some (Z.of_nat (length nodes))
  | anyNodes _ => Some (-1)
  | _ => None
  end.

(** ** Node sets *)

Record NodeSet := { Data : NodeEnum; Err : error }.

(** What a terminal operation does to the tree and hands back. *)
Definition terminal (A : Type) : Type := heap -> outcome (A * heap).

(** The closure of [Collect]: [items = append(items, node); return nil]. *)
Definition collectVisitor : visitor (list html.ptr) :=
  fun node w => Done (None, World (mem w) (vis w ++ [node])).

(** The closure of [CollectOne(true)], over the named results
    [item] and [err]. *)
Definition exactlyVisitor : visitor (html.ptr * error) :=
  fun node w =>
    if bool_decide (snd (vis w) = Some ErrNotFound) then
      Done (None, World (mem w) (node, None))
    else
      Done (Some ErrBreak, World (mem w) (fst (vis w), Some ErrTooManyNodes)).

(** The closure of [CollectOne()]. *)
Definition firstVisitor : visitor (html.ptr * error) :=
  fun node w => Done (Some ErrBreak, World (mem w) (node, None)).

(** Drive [p] with [filter] over captured variables starting as [s]. *)
Definition drive {St} (fuel : nat) (p : NodeEnum) (filter : visitor St) (s : St)
    : terminal St :=
  fun h =>
    match ForEach fuel p filter (World h s) with
    | Done (_, w) => Done (vis w, mem w)
    | Panics why => Panics why
    | OutOfFuel => OutOfFuel
    end.

Module NodeSet.

(** Ok returns if node set is valid or not. *)
Definition Ok (p : NodeSet) : bool := bool_decide (Err p = None).

(** CachedLen returns cached len. *)
Definition CachedLen (p : NodeSet) : int :=
  match Cached (Data p) with
  | Some n => n
  | None => 0
  end.

(** Collect collects all nodes of the node set. *)
Definition Collect (fuel : nat) (p : NodeSet) : terminal (list html.ptr * error) :=
  fun h =>
    match Err p with
    | Some e => Done (([], Some e), h)
    | None =>
      match drive fuel (Data p) collectVisitor [] h with
      | Done (items, h') => Done ((items, None), h')
      | Panics why => Panics why
      | OutOfFuel => OutOfFuel
      end
    end.

(** CollectOne collects one node of a node set.  The variadic [exactly]
    is [None] for a call without argument (a nil slice). *)
Definition CollectOne (fuel : nat) (p : NodeSet) (exactly : option (list bool))
    : terminal (html.ptr * error) :=
  fun h =>
    match Err p with
    | Some e => Done ((None, Some e), h)
    | None =>
      match exactly with
      | Some [] => Panics IndexOutOfRange
      | Some (b :: _) =>
        if negb b then
          Panics (PanicMsg "please call `CollectOne()` instead of `CollectOne(false)`")
        else drive fuel (Data p) exactlyVisitor (None, Some ErrNotFound) h
      | None => drive fuel (Data p) firstVisitor (None, Some ErrNotFound) h
      end
    end.

(** Cache caches node set. *)
Definition Cache (fuel : nat) (p : NodeSet) : terminal NodeSet :=
  fun h =>
    match Cached (Data p) with
    | Some _ => Done (p, h)
    | None =>
      match Collect fuel p h with
      | Done ((nodes, Some err), h') => Done ({| Data := nilEnum; Err := Some err |}, h')
      | Done ((nodes, None), h') => Done ({| Data := fixNodes nodes; Err := None |}, h')
      | Panics why => Panics why
      | OutOfFuel => OutOfFuel
      end
    end.

(** ForEach visits the node set. *)
Definition ForEach {St} (fuel : nat) (p : NodeSet) (filter : NodeSet -> M St unit)
    : M St unit :=
  match Err p with
  | None =>
    ForEach fuel (Data p)
      (fun node => _ <- filter {| Data := oneNode node; Err := None |} ;; ret None)
  | Some _ => ret tt
  end.

(** Nodes creates a fixed node set. *)
Definition Nodes (nodes : list html.ptr) : NodeSet :=
  {| Data := fixNodes nodes; Err := None |}.

(** Any returns deeply visiting node set. *)
Definition Any (p : NodeSet) : NodeSet :=
  match Err p with
  | Some _ => p
  | None => {| Data := anyNodes (Data p); Err := None |}
  end.

(** ChildN return N level's generation node set. *)
Definition ChildN (p : NodeSet) (level : int) : NodeSet :=
  if bool_decide (Err p <> None) || (level =? 0) then p
  else if 0 <? level then {| Data := childLevelNodes (Data p) level; Err := None |}
  else {| Data := parentLevelNodes (Data p) level; Err := None |}.

(** Child returns child node set. *)
Definition Child (p : NodeSet) : NodeSet := ChildN p 1.

(** Parent return parent node set. *)
Definition Parent (p : NodeSet) : NodeSet := ChildN p (-1).

(** ParentN return N level's ancestor node set. *)
Definition ParentN (p : NodeSet) (level : int) : NodeSet := ChildN p (wrap (- level)).

(** One returns the first node as a node set. *)
Definition One (fuel : nat) (p : NodeSet) : terminal NodeSet :=
  fun h =>
    match Data p with
    | oneNode _ => Done (p, h)
    | _ =>
      match CollectOne fuel p None h with
      | Done ((node, Some err), h') => Done ({| Data := nilEnum; Err := Some err |}, h')
      | Done ((node, None), h') => Done ({| Data := oneNode node; Err := None |}, h')
      | Panics why => Panics why
      | OutOfFuel => OutOfFuel
      end
    end.

(** NextSibling returns next sibling node set. *)
Definition NextSibling (p : NodeSet) (delta : int) : NodeSet :=
  match Err p with
  | Some _ => p
  | None => {| Data := siblingNodes (Data p) delta; Err := None |}
  end.

(** PrevSibling returns prev sibling node set. *)
Definition PrevSibling (p : NodeSet) (delta : int) : NodeSet :=
  NextSibling p (wrap (- delta)).

(** PrevSiblings return all prev sibling node set. *)
Definition PrevSiblings (p : NodeSet) : NodeSet :=
  match Err p with
  | Some _ => p
  | None => {| Data := prevSiblingNodes (Data p); Err := None |}
  end.

(** NextSiblings return all next sibling node set. *)
Definition NextSiblings (p : NodeSet) : NodeSet :=
  match Err p with
  | Some _ => p
  | None => {| Data := nextSiblingNodes (Data p); Err := None |}
  end.

(** FirstChild returns first nodeType node as a node set. *)
Definition FirstChild (p : NodeSet) (nodeType : html.NodeType) : NodeSet :=
  match Err p with
  | Some _ => p
  | None => {| Data := firstChildNodes (Data p) nodeType; Err := None |}
  end.

Definition FirstTextChild (p : NodeSet) : NodeSet := FirstChild p html.TextNode.

Definition FirstElementChild (p : NodeSet) : NodeSet := FirstChild p html.ElementNode.

(** LastChild returns last nodeType node as a node set. *)
Definition LastChild (p : NodeSet) (nodeType : html.NodeType) : NodeSet :=
  match Err p with
  | Some _ => p
  | None => {| Data := lastChildNodes (Data p) nodeType; Err := None |}
  end.

Definition LastTextChild (p : NodeSet) : NodeSet := LastChild p html.TextNode.

Definition LastElementChild (p : NodeSet) : NodeSet := LastChild p html.ElementNode.

(** Match filters the node set. *)
Definition Match (p : NodeSet) (filter : html.ptr -> heap -> outcome bool) : NodeSet :=
  match Err p with
  | Some _ => p
  | None => {| Data := matchedNodes (Data p) filter; Err := None |}
  end.

(** ChildrenAsText converts all children as text node. *)
Definition ChildrenAsText (p : NodeSet) (doReplace : bool) : NodeSet :=
  match Err p with
  | Some _ => p
  | None => {| Data := textNodes (Data p) doReplace; Err := None |}
  end.

End NodeSet.

(** A predicate closure that reads only the fields of the node it is
    given, such as [func(node *html.Node) bool { return node.Data == v }]. *)
Definition onNode (q : html.Node -> bool) (node : html.ptr) (h : heap) : outcome bool :=
  match node with
  | None => Panics NilDeref
  | Some x =>
    match h !! x with
    | Some n => Done (q n)
    | None => Panics InvalidPointer
    end
  end.

(** [func(node *html.Node) bool { return node.Type == t }] *)
Definition hasType (t : html.NodeType) : html.ptr -> heap -> outcome bool :=
  onNode (fun n => bool_decide (html.Type_ n = t)).

(** ** Reference functions on the tree

    Pure descriptions of what a walk should produce, used to state what
    the drives compute.  They are not part of the package. *)

(** The nodes met from [node] along [link], nearest first. *)
Fixpoint chain (d : nat) (h : heap) (link : html.Node -> html.ptr) (node : html.ptr)
    : option (list html.loc) :=
  match d with
  | O => None
  | S d' =>
    match node with
    | None => Some []
    | Some x =>
      n ← h !! x;
      l ← chain d' h link (link n);
      Some (x :: l)
    end
  end.

(** The children of [x], first to last. *)
Definition childrenOf (d : nat) (h : heap) (x : html.loc) : option (list html.loc) :=
  n ← h !! x; chain d h html.NextSibling (html.FirstChild n).

(** The descendants of [x] exactly [n] levels below it, in document order. *)
Fixpoint levelNodes (d : nat) (h : heap) (n : nat) (x : html.loc)
    : option (list html.loc) :=
  match n with
  | O => Some [x]
  | S n' =>
    cs ← childrenOf d h x;
    ls ← mapM (levelNodes d h n') cs;
    Some (concat ls)
  end.

(** The nodes of the subtree of [x] that satisfy [q] and have no proper
    ancestor inside the subtree that satisfies it, in document order. *)
Fixpoint topmost (d : nat) (h : heap) (q : html.Node -> bool) (x : html.loc)
    : option (list html.loc) :=
  match d with
  | O => None
  | S d' =>
    n ← h !! x;
    if q n then Some [x]
    else
      cs ← chain d' h html.NextSibling (html.FirstChild n);
      ls ← mapM (topmost d' h q) cs;
      Some (concat ls)
  end.

(** Every child reached from a node names that node as its parent. *)
Definition parentsOk (d : nat) (h : heap) : bool :=
  forallb
    (fun x =>
       match childrenOf d h x with
       | Some cs =>
         forallb
           (fun c =>
              match h !! c with
              | Some n => bool_decide (html.Parent n = Some x)
              | None => false
              end)
           cs
       | None => false
       end)
    (seq 0 (length h)).

(** The subtree of [x] is a finite tree of height below [d] whose sibling
    lists have fewer than [d] nodes. *)
Fixpoint subtreeOk (d : nat) (h : heap) (x : html.loc) : bool :=
  match d with
  | O => false
  | S d' =>
    match h !! x with
    | None => false
    | Some n =>
      match chain d' h html.NextSibling (html.FirstChild n) with
      | None => false
      | Some cs => forallb (subtreeOk d' h) cs
      end
    end
  end.

(** ** A sample tree: [<div><p>A</p><p>B</p></div>] *)

Definition element (parent first last prev next : html.ptr) (a : html.Atom) (tag : string)
    : html.Node :=
  {| html.Parent := parent;
     html.FirstChild := first;
     html.LastChild := last;
     html.PrevSibling := prev;
     html.NextSibling := next;
     html.Type_ := html.ElementNode;
     html.DataAtom := a;
     html.Data := tag;
     html.Namespace := "";
     html.Attr := [] |}.

Definition text (parent prev next : html.ptr) (s : string) : html.Node :=
  {| html.Parent := parent;
     html.FirstChild := None;
     html.LastChild := None;
     html.PrevSibling := prev;
     html.NextSibling := next;
     html.Type_ := html.TextNode;
     html.DataAtom := 0%N;
     html.Data := s;
     html.Namespace := "";
     html.Attr := [] |}.

Definition div_ : html.loc := 0%nat.
Definition pA : html.loc := 1%nat.
Definition txtA : html.loc := 2%nat.
Definition pB : html.loc := 3%nat.
Definition txtB : html.loc := 4%nat.

Definition sample : heap :=
  [ element None (Some pA) (Some pB) None None atom.Div "div";
    element (Some div_) (Some txtA) (Some txtA) None (Some pB) atom.P "p";
    text (Some pA) None None "A";
    element (Some div_) (Some txtB) (Some txtB) (Some pA) None atom.P "p";
    text (Some pB) None None "B" ].

(** A visitor that records the node it is given and then behaves as [f]:
    the call log of a drive. *)
Definition logged {St} (f : visitor St) : visitor (St * list html.ptr) :=
  fun node w =>
    match f node (World (mem w) (fst (vis w))) with
    | Done (err, w') => Done (err, World (mem w') (vis w', snd (vis w) ++ [node]))
    | Panics why => Panics why
    | OutOfFuel => OutOfFuel
    end.

(** A visitor that answers [ErrBreak] to every node. *)
Definition breakVisitor : visitor unit :=
  fun node w => Done (Some ErrBreak, w).

(** The text payload of the node at [p]. *)
Definition payload (h : heap) (p : html.ptr) : option string :=
  x ← p; html.Data <$> h !! x.

(** ** Definitions used to state the properties *)

(** The tree after [ChildrenAsText(true)] has been driven over the single
    node [x] whose rendered text is [s]. *)
Definition replaced (h : heap) (x : html.loc) (n : html.Node) (s : string) : heap :=
  let node := Some (length h) in
  <[x := setLastChild node (setFirstChild node n)]>
    (<[x := setFirstChild node n]> (h ++ [textNode (Some x) s])).

(** What [Text] yields for a node whose only child is a Text node holding
    [s]: the trimmed payload, and a newline after a paragraph. *)
Definition rerendered (n : html.Node) (s : string) : string :=
  strings.Trim s blanks +:+
    (if bool_decide (html.DataAtom n = atom.P) then String lf "" else "")%string.

(** The rendered text of the [div] of the sample tree. *)
Definition textAB : string := "A" +:+ String lf ("B" +:+ String lf "").

(** The closure that [matchedNodes.ForEach] hands upstream when the set
    is collected. *)
Definition matchCollect (q : html.Node -> bool) : visitor (list html.ptr) :=
  fun node =>
    ok <- reading (onNode q node) ;;
    if ok : bool then collectVisitor node else ret (Some ErrNotFound).

(** The node [k] parent links above [y]. *)
Fixpoint ancestor (h : heap) (k : nat) (y : html.loc) : option html.loc :=
  match k with
  | O => Some y
  | S k' => n ← h !! y; p ← html.Parent n; ancestor h k' p
  end.

(** Enumerables that contain no [anyNodes]. *)
Fixpoint withoutAny (e : NodeEnum) : bool :=
  match e with
  | nilEnum | oneNode _ | fixNodes _ => true
  | anyNodes _ => false
  | childLevelNodes data _ | parentLevelNodes data _ | siblingNodes data _
  | prevSiblingNodes data | nextSiblingNodes data
  | firstChildNodes data _ | lastChildNodes data _
  | matchedNodes data _ | textNodes data _ => withoutAny data
  end.

(** What an observer of the visitor notes down: whether the visitor has
    answered Break, and whether it was called after that. *)
Record watched := { broken : bool; late : bool }.

Definition unwatched : watched := {| broken := false; late := false |}.

Definition watch {St} (f : visitor St) : visitor (St * watched) :=
  fun node w =>
    match f node (World (mem w) (fst (vis w))) with
    | Done (err, w') =>
      Done (err, World (mem w')
                   (vis w', {| broken := broken (snd (vis w)) || is_break err;
                               late := late (snd (vis w)) || broken (snd (vis w)) |}))
    | Panics why => Panics why
    | OutOfFuel => OutOfFuel
    end.

(** A computation that leaves the captured variables alone and returns a
    value satisfying [P]. *)
Definition quiet {St A} (P : A -> Prop) (m : M St A) : Prop :=
  forall w, match m w with
            | Done (a, w') => vis w' = vis w /\ P a
            | _ => True
            end.

(** A computation that, started before the visitor has answered Break,
    never calls it after a Break, and returns a value satisfying [P] when
    it ends after a Break. *)
Definition honours {St A} (P : A -> Prop) (m : M (St * watched) A) : Prop :=
  forall w, snd (vis w) = unwatched ->
            match m w with
            | Done (a, w') =>
              late (snd (vis w')) = false /\ (broken (snd (vis w')) = true -> P a)
            | _ => True
            end.

Definition isBreak (e : error) : Prop := e = Some ErrBreak.

Definition isBreakReturn (r : option error) : Prop := r = Some (Some ErrBreak).

(** Two visitors over different captured variables are run by the same
    enumerable from the same tree.  [R] relates the captured variables
    while the two visitors have answered alike; [Bad] holds of the first
    visitor's variables once they no longer need to agree.  [sim] says
    that the second computation follows the first until then. *)
Definition sim {St1 St2} (R : St1 -> St2 -> Prop) (Bad : St1 -> Prop) {A}
    (m1 : M St1 A) (m2 : M St2 A) : Prop :=
  forall h s1 s2,
    match m1 (World h s1) with
    | Done (a, w1) =>
      (Bad s1 -> Bad (vis w1)) /\
      (R s1 s2 ->
       Bad (vis w1) \/
       exists s2', m2 (World h s2) = Done (a, World (mem w1) s2') /\ R (vis w1) s2')
    | _ => True
    end.

(** ** The rest of the package: class lists, attributes, text predicates *)

(** [strings.IndexByte]: the index of the first [c] in [s], or -1. *)
Fixpoint IndexByte (s : string) (c : ascii) : int :=
  match s with
  | EmptyString => -1
  | String d r =>
    if Ascii.eqb d c then 0
    else let i := IndexByte r c in if i <? 0 then -1 else i + 1
  end.

(** The slices [s[:n]] and [s[n:]] for [0 <= n <= len(s)]. *)
Fixpoint sliceTo (s : string) (n : nat) : string :=
  match n, s with
  | S n', String c r => String c (sliceTo r n')
  | _, _ => EmptyString
  end.

Fixpoint sliceFrom (s : string) (n : nat) : string :=
  match n, s with
  | S n', String _ r => sliceFrom r n'
  | _, _ => s
  end.

(** ContainsClass checks class v is in source classes or not.  One
    iteration of its loop per unit of fuel. *)
Fixpoint ContainsClass (fuel : nat) (source v : string) : outcome bool :=
  match fuel with
  | O => OutOfFuel
  | S fuel' =>
    let pos := IndexByte source " " in
    if pos <? 0 then Done (bool_decide (source = v))
    else if bool_decide (sliceTo source (Z.to_nat pos) = v) then Done true
    else ContainsClass fuel' (sliceFrom source (Z.to_nat (pos + 1))) v
  end.

(** [for _, attr := range attrs { if attr.Key == k { return attr.Val, nil } }] *)
Fixpoint attrLookup (attrs : list html.Attribute) (k : string) : string * error :=
  match attrs with
  | [] => (EmptyString, Some ErrNotFound)
  | attr :: rest =>
    if bool_decide (html.Key attr = k) then (html.Val attr, None)
    else attrLookup rest k
  end.

(** AttributeVal returns attribute k's value of a node. *)
Definition AttributeVal (node : html.ptr) (k : string) (h : heap) : outcome (string * error) :=
  match node with
  | None => Panics NilDeref
  | Some x =>
    match h !! x with
    | None => Panics InvalidPointer
    | Some n =>
      if negb (bool_decide (html.Type_ n = html.ElementNode)) then
        Done (EmptyString, Some ErrInvalidNode)
      else Done (attrLookup (html.Attr n) k)
    end
  end.

(** EqualText checks if node is TextNode and value is equal to text or not. *)
Definition EqualText (node : html.ptr) (text : string) (h : heap) : outcome bool :=
  match node with
  | None => Panics NilDeref
  | Some x =>
    match h !! x with
    | None => Panics InvalidPointer
    | Some n =>
      if negb (bool_decide (html.Type_ n = html.TextNode)) then Done false
      else Done (bool_decide (html.Data n = text))
    end
  end.

(** ChildEqualText checks if child node is TextNode and value is equal to
    text or not. *)
Definition ChildEqualText (node : html.ptr) (text : string) (h : heap) : outcome bool :=
  match node with
  | None => Panics NilDeref
  | Some x =>
    match h !! x with
    | None => Panics InvalidPointer
    | Some n =>
      match html.FirstChild n with
      | None => Done false
      | Some c =>
        match h !! c with
        | None => Panics InvalidPointer
        | Some cn =>
          if bool_decide (html.NextSibling cn <> None) then Done false
          else EqualText (Some c) text h
        end
      end
    end
  end.

(** The closure of [NodeSet.Attribute(k, v)]: some attribute of the
    element has key [k] and value [v]. *)
Definition attributeFilter (k v : string) (n : html.Node) : bool :=
  if negb (bool_decide (html.Type_ n = html.ElementNode)) then false
  else existsb
         (fun attr => bool_decide (html.Key attr = k) && bool_decide (html.Val attr = v))
         (html.Attr n).

(** [for _, attr := range node.Attr { if attr.Key == "class" { return
    ContainsClass(attr.Val, v) } }; return false] *)
Fixpoint containsClassLoop (fuel : nat) (attrs : list html.Attribute) (v : string)
    : outcome bool :=
  match attrs with
  | [] => Done false
  | attr :: rest =>
    if bool_decide (html.Key attr = "class"%string) then ContainsClass fuel (html.Val attr) v
    else containsClassLoop fuel rest v
  end.

(** The closure of [NodeSet.ContainsClass(v)]. *)
Definition containsClassFilter (fuel : nat) (v : string) (node : html.ptr) (h : heap)
    : outcome bool :=
  match node with
  | None => Panics NilDeref
  | Some x =>
    match h !! x with
    | None => Panics InvalidPointer
    | Some n =>
      if negb (bool_decide (html.Type_ n = html.ElementNode)) then Done false
      else containsClassLoop fuel (html.Attr n) v
    end
  end.

(** The selector methods of [NodeSet] that apply [Match]. *)
Module Selector.

(** Attribute returns nodes whose attribute k's value is v. *)
Definition Attribute (p : NodeSet) (k v : string) : NodeSet :=
  NodeSet.Match p (onNode (attributeFilter k v)).

(** Class returns nodes whose attribute `class`'s value is v. *)
Definition Class (p : NodeSet) (v : string) : NodeSet := Attribute p "class" v.

(** Href returns nodes whose attribute `href`'s value is v. *)
Definition Href (p : NodeSet) (v : string) : NodeSet := Attribute p "href" v.

(** ChildEqualText returns node set whose child is TextNode and value is
    equal to text. *)
Definition ChildEqualText (p : NodeSet) (text : string) : NodeSet :=
  NodeSet.Match p (fun node => ChildEqualText node text).

(** EqualText returns node set who is TextNode and value is equal to text. *)
Definition EqualText (p : NodeSet) (text : string) : NodeSet :=
  NodeSet.Match p (fun node => EqualText node text).

(** ContainsClass returns nodes whose attribute `class` contains v. *)
Definition ContainsClass (fuel : nat) (p : NodeSet) (v : string) : NodeSet :=
  NodeSet.Match p (containsClassFilter fuel v).

(** ID returns nodes whose attribute `id`'s value is v. *)
Definition ID (fuel : nat) (p : NodeSet) (v : string) (h : heap) : outcome (NodeSet * heap) :=
  NodeSet.One fuel (Attribute p "id" v) h.

End Selector.

(** ** Scanning an integer out of a text *)

Definition ErrInvalidScanFormat : errval := ErrOther "invalid fmt.Scan format".
Definition ErrUnmatchedScanFormat : errval := ErrOther "unmatched fmt.Scan format".

(** [strings.HasPrefix] and [strings.HasSuffix]. *)
Fixpoint HasPrefix (s prefix : string) {struct prefix} : bool :=
  match prefix with
  | EmptyString => true
  | String a prefix' =>
    match s with
    | EmptyString => false
    | String b s' => Ascii.eqb a b && HasPrefix s' prefix'
    end
  end.

Definition HasSuffix (s suffix : string) : bool :=
  (String.length suffix <=? String.length s)%nat &&
  String.eqb (sliceFrom s (String.length s - String.length suffix)) suffix.

(** [strings.Index]: the index of the first [sub] in [s], or -1. *)
Fixpoint Index (s sub : string) : int :=
  if HasPrefix s sub then 0
  else
    match s with
    | EmptyString => -1
    | String _ r => let i := Index r sub in if i <? 0 then -1 else i + 1
    end.

(** [strings.Replace(s, old, new, -1)] for a non-empty [old]: every
    occurrence of [old] from the left, none overlapping another.  [skip]
    counts the bytes of an occurrence still to be passed over. *)
Fixpoint replaceFrom (skip : nat) (s old new : string) : string :=
  match s with
  | EmptyString => EmptyString
  | String c r =>
    match skip with
    | S k => replaceFrom k r old new
    | O =>
      if HasPrefix s old
      then (new +:+ replaceFrom (String.length old - 1) r old new)%string
      else String c (replaceFrom 0 r old new)
    end
  end.

Definition Replace (s old new : string) : string := replaceFrom 0 s old new.

(** The slice [s[lo:hi]]; [None] when the bounds are out of range. *)
Definition slice (s : string) (lo hi : nat) : option string :=
  if (lo <=? hi)%nat && (hi <=? String.length s)%nat
  then Some (sliceTo (sliceFrom s lo) (hi - lo))
  else None.

(** parseFormat splits a scan format at its first [%d], or else at its
    first [%v]. *)
Definition parseFormat (format : string) : string * string * error :=
  let pos := Index format "%d" in
  let pos := if pos <? 0 then Index format "%v" else pos in
  if pos <? 0 then (EmptyString, EmptyString, Some ErrInvalidScanFormat)
  else (Replace (sliceTo format (Z.to_nat pos)) "%%" "%",
        Replace (sliceFrom format (Z.to_nat (pos + 2))) "%%" "%",
        None).

(** fmtSscanf, over [strconv.Atoi]; [v] is what the pointer holds before
    the call, and the result holds what it holds after it.  The slice
    expression panics with a bounds error of the runtime when its low
    bound exceeds its high bound, as an index out of range does. *)
Definition fmtSscanf (Atoi : string -> int * error) (text format : string) (v : int)
    : outcome (int * error) :=
  match parseFormat format with
  | (_, _, Some err) => Done (v, Some err)
  | (prefix, suffix, None) =>
    if HasPrefix text prefix && HasSuffix text suffix then
      match slice text (String.length prefix)
              (String.length text - String.length suffix) with
      | Some t => Done (Atoi (Replace t "," ""))
      | None => Panics IndexOutOfRange
      end
    else Done (v, Some ErrUnmatchedScanFormat)
  end.

(** ** Reference functions for the lazy selections *)

(** The space-separated fields of a class list, empty fields included. *)
Fixpoint fields (s : string) : list string :=
  match s with
  | EmptyString => [EmptyString]
  | String c r =>
    match fields r with
    | f :: fs => if Ascii.eqb c " " then EmptyString :: f :: fs else String c f :: fs
    | [] => []
    end
  end.

(** Calling a visitor on the nodes of a list in order, up to and
    including the first one it answers Break to; the result tells whether
    it did. *)
Fixpoint visit {St} (l : list html.ptr) (f : visitor St) : M St bool :=
  match l with
  | [] => ret false
  | p :: rest =>
    err <- f p ;;
    if is_break err then ret true else visit rest f
  end.

(** The node reached from [x] by [k] steps along [link]: [Some None] when
    the links run out first. *)
Fixpoint hop (h : heap) (link : html.Node -> html.ptr) (k : nat) (x : html.loc)
    : option html.ptr :=
  match k with
  | O => Some (Some x)
  | S k' =>
    n ← h !! x;
    match link n with
    | None => Some None
    | Some y => hop h link k' y
    end
  end.

(** What a step by [k] links emits. *)
Definition hopRef (h : heap) (link : html.Node -> html.ptr) (k : nat) (p : html.ptr)
    : option (list html.ptr) :=
  x ← p;
  r ← hop h link k x;
  Some (match r with Some y => [Some y] | None => [] end).

Definition childLevelRef (d : nat) (h : heap) (level : int) (p : html.ptr)
    : option (list html.ptr) :=
  x ← p; l ← levelNodes d h (Z.to_nat level) x; Some (fmap (M := list) Some l).

Definition siblingRef (h : heap) (delta : int) (p : html.ptr) : option (list html.ptr) :=
  if 0 <? delta then hopRef h html.NextSibling (Z.to_nat delta) p
  else if delta <? 0 then hopRef h html.PrevSibling (Z.to_nat (- delta)) p
  else Some [p].

Definition allSiblingsRef (d : nat) (h : heap) (link : html.Node -> html.ptr)
    (p : html.ptr) : option (list html.ptr) :=
  x ← p; n ← h !! x; l ← chain d h link (link n); Some (fmap (M := list) Some l).

(** Whether the node at [c] has type [t]. *)
Definition typeAt (h : heap) (t : html.NodeType) (c : html.loc) : bool :=
  match h !! c with
  | Some n => bool_decide (html.Type_ n = t)
  | None => false
  end.

(** The first node of type [t] met from the first (or last) child of the
    node along [link]. *)
Definition typedChildRef (d : nat) (h : heap) (first link : html.Node -> html.ptr)
    (t : html.NodeType) (p : html.ptr) : option (list html.ptr) :=
  x ← p; n ← h !! x; cs ← chain d h link (first n);
  Some (match find (typeAt h t) cs with Some c => [Some c] | None => [] end).

Definition matchRef (h : heap) (pred : html.ptr -> heap -> outcome bool) (p : html.ptr)
    : option (list html.ptr) :=
  match pred p h with
  | Done true => Some [p]
  | Done false => Some []
  | _ => None
  end.

Definition inInt (z : Z) : bool := (- 2 ^ 63 <=? z) && (z <? 2 ^ 63).

(** The selection of an enumerable built from single nodes and fixed
    lists with the level, sibling, typed-child and match combinators, as
    a list in emission order.  Deep search and text synthesis are left
    out: what the first emits depends on the visitor, and the second
    writes to the tree. *)
Fixpoint selection (d : nat) (h : heap) (e : NodeEnum) : option (list html.ptr) :=
  match e with
  | nilEnum | anyNodes _ | textNodes _ _ => None
  | oneNode node => Some [node]
  | fixNodes nodes => Some nodes
  | childLevelNodes data level =>
    if (0 <? level) && inInt level then
      l ← selection d h data; outs ← mapM (childLevelRef d h level) l; Some (concat outs)
    else None
  | parentLevelNodes data level =>
    if (level <? 0) && inInt level then
      l ← selection d h data;
      outs ← mapM (hopRef h html.Parent (Z.to_nat (- level))) l; Some (concat outs)
    else None
  | siblingNodes data delta =>
    if inInt delta then
      l ← selection d h data; outs ← mapM (siblingRef h delta) l; Some (concat outs)
    else None
  | prevSiblingNodes data =>
    l ← selection d h data;
    outs ← mapM (allSiblingsRef d h html.PrevSibling) l; Some (concat outs)
  | nextSiblingNodes data =>
    l ← selection d h data;
    outs ← mapM (allSiblingsRef d h html.NextSibling) l; Some (concat outs)
  | firstChildNodes data t =>
    l ← selection d h data;
    outs ← mapM (typedChildRef d h html.FirstChild html.NextSibling t) l;
    Some (concat outs)
  | lastChildNodes data t =>
    l ← selection d h data;
    outs ← mapM (typedChildRef d h html.LastChild html.PrevSibling t) l;
    Some (concat outs)
  | matchedNodes data pred =>
    l ← selection d h data; outs ← mapM (matchRef h pred) l; Some (concat outs)
  end.

(** The largest number of levels or siblings a combinator of [e] steps. *)
Fixpoint reach (e : NodeEnum) : nat :=
  match e with
  | nilEnum | oneNode _ | fixNodes _ => 0
  | childLevelNodes data z | parentLevelNodes data z | siblingNodes data z =>
    Nat.max (Z.to_nat (Z.abs z)) (reach data)
  | anyNodes data | prevSiblingNodes data | nextSiblingNodes data
  | firstChildNodes data _ | lastChildNodes data _
  | matchedNodes data _ | textNodes data _ => reach data
  end.

(** A visitor that leaves the tree [h] alone on the nodes of [l]. *)
Definition keepsAt {St} (h : heap) (f : visitor St) (l : list html.ptr) : Prop :=
  forall p s, p ∈ l ->
    match f p (World h s) with
    | Done (_, w') => mem w' = h
    | _ => True
    end.

(** The computation [m] does what the visit [v] does and returns a value
    that tells, as [rel] says, whether the visitor answered Break. *)
Definition follows {St A} (rel : A -> bool -> Prop) (m : M St A) (v : M St bool)
    (w : world St) : Prop :=
  match v w with
  | Done (b, w') => exists a, m w = Done (a, w') /\ rel a b
  | Panics why => m w = Panics why
  | OutOfFuel => m w = OutOfFuel
  end.

Definition breaks (e : error) (b : bool) : Prop := is_break e = b.

Definition returns (r : option error) (b : bool) : Prop :=
  r = if b then Some (Some ErrBreak) else None.

(** Enumerables all of whose [textNodes] have a flag that [ok] accepts. *)
Fixpoint texts (ok : bool -> bool) (e : NodeEnum) : bool :=
  match e with
  | nilEnum | oneNode _ | fixNodes _ => true
  | textNodes data doReplace => ok doReplace && texts ok data
  | anyNodes data
  | childLevelNodes data _ | parentLevelNodes data _ | siblingNodes data _
  | prevSiblingNodes data | nextSiblingNodes data
  | firstChildNodes data _ | lastChildNodes data _
  | matchedNodes data _ => texts ok data
  end.

(** Enumerables that contain no [textNodes]. *)
Definition withoutText : NodeEnum -> bool := texts (fun _ => false).

(** Enumerables whose [textNodes] do not replace the children. *)
Definition withoutReplace : NodeEnum -> bool := texts negb.

(** A computation that keeps a property of the tree. *)
Definition preserves {St A} (Inv : heap -> Prop) (m : M St A) : Prop :=
  forall w, Inv (mem w) ->
            match m w with
            | Done (_, w') => Inv (mem w')
            | _ => True
            end.

(** The same node, up to the links to its first and last child. *)
Definition sameButChildren (n n' : html.Node) : Prop :=
  html.Parent n' = html.Parent n /\
  html.PrevSibling n' = html.PrevSibling n /\
  html.NextSibling n' = html.NextSibling n /\
  html.Type_ n' = html.Type_ n /\
  html.DataAtom n' = html.DataAtom n /\
  html.Data n' = html.Data n /\
  html.Namespace n' = html.Namespace n /\
  html.Attr n' = html.Attr n.

(** The tree [h'] holds every node of [h], each the same up to the links
    to its first and last child. *)
Definition grown (h h' : heap) : Prop :=
  forall x n, h !! x = Some n -> exists n', h' !! x = Some n' /\ sameButChildren n n'.

(** Driving [e] on the tree [h] is calling the visitor on the nodes of
    [l], in order, up to the first Break. *)
Definition emits (fuel : nat) (h : heap) (e : NodeEnum) (l : list html.ptr) : Prop :=
  forall St (f : visitor St),
    keepsAt h f l ->
    forall s, ForEach fuel e f (World h s) = (_ <- visit l f ;; ret tt) (World h s).

(** Whether [p] points at a node of the tree. *)
Definition live (h : heap) (p : html.ptr) : bool :=
  match p with
  | Some x => match h !! x with Some _ => true | None => false end
  | None => false
  end.

(** Whether [p] points at a node that satisfies [q]. *)
Definition satisfies (h : heap) (q : html.Node -> bool) (p : html.ptr) : bool :=
  match p with
  | Some x => match h !! x with Some n => q n | None => false end
  | None => false
  end.

(** ** A sample list with attributes

    A list of three items with [id] and [class] attributes.  The tags
    are custom elements, whose atom is zero; the third item is built by
    hand with the key [id] twice, which the parser would not produce. *)

Definition attribute (k v : string) : html.Attribute :=
  {| html.AttrNamespace := ""; html.Key := k; html.Val := v |}.

Definition withAttr (attrs : list html.Attribute) (n : html.Node) : html.Node :=
  {| html.Parent := html.Parent n;
     html.FirstChild := html.FirstChild n;
     html.LastChild := html.LastChild n;
     html.PrevSibling := html.PrevSibling n;
     html.NextSibling := html.NextSibling n;
     html.Type_ := html.Type_ n;
     html.DataAtom := html.DataAtom n;
     html.Data := html.Data n;
     html.Namespace := html.Namespace n;
     html.Attr := attrs |}.

Definition listing : heap :=
  [ element None (Some 1%nat) (Some 3%nat) None None 0%N "x-list";
    withAttr [attribute "id" "a"; attribute "class" "x y"]
      (element (Some 0%nat) None None None (Some 2%nat) 0%N "x-item");
    withAttr [attribute "id" "b"; attribute "class" "y"]
      (element (Some 0%nat) None None (Some 1%nat) (Some 3%nat) 0%N "x-item");
    withAttr [attribute "id" "a"; attribute "class" "z"; attribute "id" "c"]
      (element (Some 0%nat) None None (Some 2%nat) None 0%N "x-item") ].

(** Whether the node is of type [t]. *)
Definition ofType (t : html.NodeType) (n : html.Node) : bool :=
  bool_decide (html.Type_ n = t).

(** The terminal operation [t], started on the tree [h], returns and
    leaves the tree [h']. *)
Definition ends {A} (t : terminal A) (h h' : heap) : Prop :=
  exists r, t h = Done (r, h').

(** Some terminal operation on the node set [p] takes [h] to [h']. *)
Definition queried (fuel : nat) (p : NodeSet) (h h' : heap) : Prop :=
  ends (NodeSet.Collect fuel p) h h' \/
  (exists exactly, ends (NodeSet.CollectOne fuel p exactly) h h') \/
  ends (NodeSet.Cache fuel p) h h' \/
  ends (NodeSet.One fuel p) h h'.

(** Whether every next-sibling link of the tree points at a node whose
    previous-sibling link points back. *)
Definition siblingsOk (h : heap) : bool :=
  forallb
    (fun x =>
       match h !! x with
       | Some n =>
         match html.NextSibling n with
         | Some y =>
           match h !! y with
           | Some m => bool_decide (html.PrevSibling m = Some x)
           | None => false
           end
         | None => true
         end
       | None => true
       end)
    (seq 0 (length h)).

(** Whether [p] has a [k]-th next sibling. *)
Definition hasNext (h : heap) (k : nat) (p : html.ptr) : bool :=
  match p with
  | Some x =>
    match hop h html.NextSibling k x with
    | Some (Some _) => true
    | _ => false
    end
  | None => false
  end.

(** Calling [g] on one single-node set per node of [l], in order. *)
Fixpoint each {St} (l : list html.ptr) (g : NodeSet -> M St unit) : M St unit :=
  match l with
  | [] => ret tt
  | p :: rest => _ <- g {| Data := oneNode p; Err := None |} ;; each rest g
  end.



(** A visitor that answers nil or Break, as those of the terminal
    operations do. *)
Definition decisive {St} (f : visitor St) : Prop :=
  forall p w, match f p w with
              | Done (e, _) => e = None \/ e = Some ErrBreak
              | _ => True
              end.

(** Whether a predicate call returned, and whether it returned true. *)
Definition answers (o : outcome bool) : bool :=
  match o with Done _ => true | _ => false end.

Definition accepts (o : outcome bool) : bool :=
  match o with Done b => b | _ => false end.

(** The payload of the Text node at [c]. *)
Definition textOf (h : heap) (c : html.loc) : option string :=
  m ← h !! c;
  if bool_decide (html.Type_ m = html.TextNode) then Some (html.Data m) else None.

(** [strings.Join(ws, " ")]. *)
Fixpoint joinWords (ws : list string) : string :=
  match ws with
  | [] => EmptyString
  | [w] => w
  | w :: rest => (w +:+ (" " +:+ joinWords rest))%string
  end.

Definition nonEmpty (s : string) : bool := negb (String.eqb s "").

(** What [printText] makes of the printer. *)
Definition say (p : textPrinter) (v : string) : textPrinter :=
  if bool_decide (v = ""%string) then p
  else {| data := ((data p +:+ (if notLineStart p then " " else "")) +:+ v)%string;
          notLineStart := true |}.

(** * Properties *)

(** ** Reasoning about drives *)

Lemma bind_Done {St A B} (m : M St A) (k : A -> M St B) w a w' :
  m w = Done (a, w') -> bind m k w = k a w'.
Proof. intros H. unfold bind. now rewrite H. Qed.

Lemma deref_Some {St} (w : world St) x n :
  mem w !! x = Some n -> deref (Some x) w = Done (n, w).
Proof. intros H. unfold deref. now rewrite H. Qed.

Lemma for_links_unfold {St A} fuel link (body : html.ptr -> M St (option A)) node :
  for_links (S fuel) link body node =
    match node with
    | None => ret None
    | Some _ =>
      r <- body node ;;
      match r with
      | Some a => ret (Some a)
      | None => n <- deref node ;; for_links fuel link body (link n)
      end
    end.
Proof. reflexivity. Qed.

Lemma printNode_unfold fuel x :
  printNode (S fuel) (Some x) =
    (n <- deref (Some x) ;;
     if bool_decide (html.Type_ n = html.TextNode) then
       printText (strings.Trim (html.Data n) blanks)
     else
       _ <- for_links (A := unit) fuel html.NextSibling
              (fun child => _ <- printNode fuel child ;; ret None)
              (html.FirstChild n) ;;
       endOfNode (html.DataAtom n)).
Proof. reflexivity. Qed.

(** ** Text-only extraction *)

(** C1 (code as written): [ExactText] hands back the payload of every
    node that is NOT a Text node and answers [ErrNotTextNode] on every
    Text node, the reverse of what its comment and the name of the
    failure announce; on the sample tree the Text node [A] is refused and
    the element [div] yields its tag name. *)
Theorem ExactText_inverted :
  (forall (h : heap) (x : html.loc),
     ExactText (Some x) h =
       match h !! x with
       | Some n =>
         match html.Type_ n with
         | html.TextNode => Done (""%string, Some ErrNotTextNode)
         | _ => Done (html.Data n, None)
         end
       | None => Panics InvalidPointer
       end) /\
  ExactText (Some txtA) sample = Done (""%string, Some ErrNotTextNode) /\
  ExactText (Some div_) sample = Done ("div"%string, None).
Proof.
  split; [|split; reflexivity].
  intros h x. unfold ExactText.
  destruct (h !! x) as [n|]; [|reflexivity].
  destruct (html.Type_ n); reflexivity.
Qed.

(** ** Failure propagation *)

(** C4 (as the code has it): on a node set whose failure is set, every
    lazy operator hands the very same node set back, whatever its
    enumerable is, and the terminal collectors return that failure
    unchanged and leave the tree alone, with any fuel and any argument
    list.  [One] and [Cache] do not drive the enumerable either and keep
    the failure and the tree, but they look at the enumerable first:
    [One] hands the node set back when it holds a single node, [Cache]
    when the enumerable has the method [Cached]; otherwise they hand
    back a failed node set with the same failure and a nil enumerable. *)
Theorem failed_set_passes_through (d : NodeEnum) (e : errval) :
  let p := {| Data := d; Err := Some e |} in
  (forall level, NodeSet.ChildN p level = p) /\
  NodeSet.Child p = p /\
  NodeSet.Parent p = p /\
  (forall level, NodeSet.ParentN p level = p) /\
  NodeSet.Any p = p /\
  (forall delta, NodeSet.NextSibling p delta = p) /\
  (forall delta, NodeSet.PrevSibling p delta = p) /\
  NodeSet.PrevSiblings p = p /\
  NodeSet.NextSiblings p = p /\
  (forall t, NodeSet.FirstChild p t = p) /\
  NodeSet.FirstTextChild p = p /\
  NodeSet.FirstElementChild p = p /\
  (forall t, NodeSet.LastChild p t = p) /\
  NodeSet.LastTextChild p = p /\
  NodeSet.LastElementChild p = p /\
  (forall f, NodeSet.Match p f = p) /\
  (forall b, NodeSet.ChildrenAsText p b = p) /\
  (forall fuel exactly h,
     NodeSet.CollectOne fuel p exactly h = Done ((None, Some e), h)) /\
  (forall fuel h, NodeSet.Collect fuel p h = Done (([], Some e), h)) /\
  (forall fuel h,
     NodeSet.One fuel p h
     = Done (match d with
             | oneNode _ => p
             | _ => {| Data := nilEnum; Err := Some e |}
             end, h)) /\
  (forall fuel h,
     NodeSet.Cache fuel p h
     = Done (match Cached d with
             | Some _ => p
             | None => {| Data := nilEnum; Err := Some e |}
             end, h)).
Proof.
  intros p. subst p.
  repeat split; try reflexivity; intros.
  - unfold NodeSet.One; destruct d; reflexivity.
  - unfold NodeSet.Cache; destruct d; reflexivity.
Qed.

(** C4, counterexample: on a failed node set whose enumerable is the lazy
    selection of the children of the [div], [One] and [Cache] keep the
    failure but do not hand the node set back: what they return has a
    nil enumerable. *)
Lemma failed_set_rebuilt :
  let p := {| Data := childLevelNodes (fixNodes [Some div_]) 1; Err := Some ErrNotFound |} in
  NodeSet.One 8 p sample = Done ({| Data := nilEnum; Err := Some ErrNotFound |}, sample) /\
  NodeSet.Cache 8 p sample = Done ({| Data := nilEnum; Err := Some ErrNotFound |}, sample) /\
  NodeSet.One 8 p sample <> Done (p, sample) /\
  NodeSet.Cache 8 p sample <> Done (p, sample).
Proof.
  repeat split; try reflexivity; discriminate.
Qed.

(** ** The single-node collector *)

(** C9 (as the code has it): [CollectOne(false)] panics with its message
    on every node set that has not failed, before the enumerable is
    driven; on a failed node set the failure check comes first and the
    call returns that failure. *)
Theorem CollectOne_false (fuel : nat) (p : NodeSet) (rest : list bool) (h : heap) :
  NodeSet.CollectOne fuel p (Some (false :: rest)) h =
    match Err p with
    | Some e => Done ((None, Some e), h)
    | None =>
      Panics (PanicMsg "please call `CollectOne()` instead of `CollectOne(false)`")
    end.
Proof.
  unfold NodeSet.CollectOne. destruct (Err p); reflexivity.
Qed.

(** C9, counterexample: on a failed node set [CollectOne(false)] returns
    a failure value instead of panicking. *)
Lemma CollectOne_false_returns :
  ~ (forall (p : NodeSet) (fuel : nat) (h : heap),
       exists why, NodeSet.CollectOne fuel p (Some [false]) h = Panics why).
Proof.
  intros H.
  destruct (H {| Data := nilEnum; Err := Some ErrInvalidNode |} 0%nat sample) as [why Hw].
  discriminate Hw.
Qed.

(** ** Materializing *)

(** C7 (as the code has it): on a node set that has not failed, [Cache]
    is a no-op exactly when the enumerable has the [Cached] method, which
    [oneNode], [fixNodes] and also the lazy [anyNodes] (whose [Cached]
    answers the sentinel -1) have; for every other enumerable it collects
    the nodes and wraps them as a fixed list of known length. *)
Theorem Cache_noop_iff_has_Cached (fuel : nat) (d : NodeEnum) (h : heap) :
  let p := {| Data := d; Err := None |} in
  (NodeSet.Cache fuel p h = Done (p, h) <-> Cached d <> None) /\
  (forall data, Cached (anyNodes data) = Some (-1)) /\
  (forall nodes h',
     Cached d = None ->
     NodeSet.Collect fuel p h = Done ((nodes, None), h') ->
     NodeSet.Cache fuel p h = Done (NodeSet.Nodes nodes, h') /\
     NodeSet.CachedLen (NodeSet.Nodes nodes) = Z.of_nat (length nodes)).
Proof.
  intros p. subst p. split; [|split].
  - unfold NodeSet.Cache. cbn [Data Err]. split.
    + intros HC Hnone. rewrite Hnone in HC.
      destruct (NodeSet.Collect fuel _ h) as [[[nodes [err|]] h']| |]; try discriminate.
      injection HC as Hd _. subst d. discriminate.
    + intros Hsome. destruct (Cached d); [reflexivity|congruence].
  - reflexivity.
  - intros nodes h' Hnone HC. unfold NodeSet.Cache. cbn [Data].
    rewrite Hnone, HC. split; reflexivity.
Qed.

(** C7, counterexample: the deep-search set over the sample tree is lazy
    and reports the sentinel length, yet [Cache] hands it back untouched
    instead of the fixed list of its collected nodes. *)
Lemma Cache_skips_anyNodes :
  let p := NodeSet.Any (NodeSet.Nodes [Some div_]) in
  NodeSet.CachedLen p = -1 /\
  NodeSet.Collect 8 p sample = Done (([Some div_], None), sample) /\
  NodeSet.Cache 8 p sample = Done (p, sample) /\
  NodeSet.Cache 8 p sample <> Done (NodeSet.Nodes [Some div_], sample).
Proof.
  repeat split; try reflexivity. discriminate.
Qed.

(** ** Children as text *)

Lemma String_append_nil_r (s : string) : (s +:+ "")%string = s.
Proof.
  induction s as [|c s IH]; [reflexivity|].
  change (String c (s +:+ "") = String c s). now rewrite IH.
Qed.

Lemma replaced_lookup_node h x n s :
  h !! x = Some n ->
  replaced h x n s !! x = Some (setLastChild (Some (length h)) (setFirstChild (Some (length h)) n)).
Proof.
  intros Hx. unfold replaced.
  apply list_lookup_insert_eq. rewrite length_insert, length_app.
  apply lookup_lt_Some in Hx. lia.
Qed.

Lemma replaced_lookup_text h x n s :
  h !! x = Some n ->
  replaced h x n s !! length h = Some (textNode (Some x) s).
Proof.
  intros Hx. unfold replaced. cbv zeta.
  assert (x <> length h) by (apply lookup_lt_Some in Hx; lia).
  rewrite !list_lookup_insert_ne by assumption.
  rewrite lookup_app_r by lia. now rewrite Nat.sub_diag.
Qed.

(** Driving [ChildrenAsText(true)] over the single node [x]. *)
Lemma Collect_ChildrenAsText fuel h x n s :
  h !! x = Some n ->
  Text fuel (Some x) h = Done s ->
  NodeSet.Collect fuel (NodeSet.ChildrenAsText (NodeSet.Nodes [Some x]) true) h =
    Done (([Some (length h)], None), replaced h x n s).
Proof.
  intros Hx HT.
  assert (Hx' : (h ++ [textNode (Some x) s]) !! x = Some n)
    by (rewrite lookup_app_l; [assumption | now apply lookup_lt_Some in Hx]).
  unfold NodeSet.Collect, drive. cbn.
  unfold textForEach, bind, reading, new_node, update, collectVisitor. cbn.
  rewrite HT. cbn. rewrite Hx'. cbn [mem vis].
  rewrite list_lookup_insert_eq
    by (rewrite length_app; apply lookup_lt_Some in Hx; lia).
  reflexivity.
Qed.

(** A sibling loop over a finite list whose body leaves the tree alone
    and never returns early runs to the end. *)
Lemma for_links_total {St A} (d : nat) (h : heap) link
    (body : html.ptr -> M St (option A)) :
  forall start cs fuel,
    chain d h link start = Some cs ->
    (d <= fuel)%nat ->
    (forall c s, c ∈ cs -> exists s', body (Some c) (World h s) = Done (None, World h s')) ->
    forall s, exists s',
      for_links fuel link body start (World h s) = Done (None, World h s').
Proof.
  induction d as [|d IH]; intros start cs fuel Hchain Hfuel Hbody s;
    [discriminate|].
  destruct fuel as [|fuel]; [lia|].
  rewrite for_links_unfold. cbn in Hchain.
  destruct start as [x|]; [|cbn; eauto].
  destruct (h !! x) as [n|] eqn:Hx; [|discriminate]. cbn in Hchain.
  destruct (chain d h link (link n)) as [l|] eqn:Hl; [|discriminate].
  cbn in Hchain. injection Hchain as <-.
  destruct (Hbody x s) as [s1 Hs1]; [left|].
  erewrite bind_Done by exact Hs1. cbv beta iota.
  erewrite bind_Done by (apply deref_Some; exact Hx).
  apply (IH _ l); [assumption | lia |].
  intros c s0 Hc. apply Hbody. now right.
Qed.

(** Rendering a finite subtree succeeds and leaves the tree alone. *)
Lemma printNode_total (h : heap) :
  forall d x fuel,
    subtreeOk d h x = true ->
    (d <= fuel)%nat ->
    forall p, exists p', printNode fuel (Some x) (World h p) = Done (tt, World h p').
Proof.
  induction d as [|d IH]; intros x fuel Hok Hfuel p; [discriminate|].
  destruct fuel as [|fuel]; [lia|].
  cbn in Hok. destruct (h !! x) as [n|] eqn:Hx; [|discriminate].
  destruct (chain d h html.NextSibling (html.FirstChild n)) as [cs|] eqn:Hcs;
    [|discriminate].
  rewrite forallb_forall in Hok.
  rewrite printNode_unfold.
  erewrite bind_Done by (apply deref_Some; exact Hx).
  case_bool_decide.
  - unfold printText. case_bool_decide; cbn; eauto.
  - destruct (for_links_total (A := unit) d h html.NextSibling
                (fun child => _ <- printNode fuel child ;; ret None)
                (html.FirstChild n) cs fuel Hcs ltac:(lia)) with (s := p)
      as [p1 Hp1].
    { intros c s Hc.
      destruct (IH c fuel) with (p := s) as [s' Hs'];
        [apply Hok; now apply list_elem_of_In | lia |].
      exists s'. erewrite bind_Done by exact Hs'. reflexivity. }
    erewrite bind_Done by exact Hp1.
    unfold endOfNode. case_bool_decide; cbn; eauto.
Qed.

Lemma Text_total (d fuel : nat) (h : heap) (x : html.loc) :
  subtreeOk d h x = true -> (d <= fuel)%nat ->
  exists s, Text fuel (Some x) h = Done s.
Proof.
  intros Hok Hfuel. unfold Text.
  destruct (printNode_total h d x fuel Hok Hfuel {| data := ""; notLineStart := false |})
    as [p' Hp'].
  rewrite Hp'. eauto.
Qed.

(** [Text] of a Text node only looks at the node itself. *)
Lemma Text_text_node fuel h x n :
  h !! x = Some n ->
  html.Type_ n = html.TextNode ->
  Text (S fuel) (Some x) h =
    Done (if bool_decide (strings.Trim (html.Data n) blanks = ""%string)
          then ""%string else strings.Trim (html.Data n) blanks).
Proof.
  intros Hx Ht. unfold Text. cbn. unfold bind, deref. cbn. rewrite Hx.
  rewrite bool_decide_eq_true_2 by assumption.
  unfold printText. case_bool_decide; reflexivity.
Qed.

(** [Text] of a node that is not a Text node, after its children have
    been replaced by the synthetic Text node. *)
Lemma Text_replaced fuel h x n s :
  h !! x = Some n ->
  html.Type_ n <> html.TextNode ->
  Text (S (S (S fuel))) (Some x) (replaced h x n s) = Done (rerendered n s).
Proof.
  intros Hx Ht.
  pose proof (replaced_lookup_node _ _ _ s Hx) as Hnode.
  pose proof (replaced_lookup_text _ _ _ s Hx) as Htext.
  set (h1 := replaced h x n s) in *.
  set (v := strings.Trim s blanks).
  set (p1 := if bool_decide (v = ""%string)
             then {| data := ""; notLineStart := false |}
             else {| data := v; notLineStart := true |}).
  assert (Hchild : forall f,
    printNode (S f) (Some (length h)) (World h1 {| data := ""; notLineStart := false |})
    = Done (tt, World h1 p1)).
  { intros f. rewrite printNode_unfold.
    erewrite bind_Done by (apply deref_Some; exact Htext).
    cbn [html.Type_ html.Data textNode].
    rewrite bool_decide_eq_true_2 by reflexivity.
    unfold printText, p1. fold v. case_bool_decide; reflexivity. }
  unfold Text. rewrite printNode_unfold.
  erewrite bind_Done by (apply deref_Some; exact Hnode).
  cbn [html.Type_ html.FirstChild html.DataAtom setLastChild setFirstChild].
  rewrite bool_decide_eq_false_2 by assumption.
  erewrite bind_Done; cycle 1.
  { rewrite for_links_unfold.
    erewrite bind_Done by (erewrite bind_Done by apply Hchild; reflexivity).
    cbv beta iota.
    erewrite bind_Done by (apply deref_Some; exact Htext).
    cbn [html.NextSibling textNode]. rewrite for_links_unfold. reflexivity. }
  unfold endOfNode, rerendered. fold v. cbn [mem vis]. unfold p1.
  repeat case_bool_decide; cbn [data vis]; rewrite ?String_append_nil_r;
    solve [reflexivity | match goal with H : v = _ |- _ => now rewrite H end].
Qed.

(** C8 (as the code has it): driving [ChildrenAsText(true)] twice in a row
    over the same node, whose subtree is finite, yields a synthetic Text
    node both times; the first payload is the rendered text of the node,
    and the second is the same for a Text node, and otherwise the first
    payload trimmed of blanks at both ends, followed by a newline when
    the node is a paragraph. *)
Theorem ChildrenAsText_twice (d fuel fuel2 : nat) (h : heap) (x : html.loc)
    (n : html.Node) :
  h !! x = Some n ->
  subtreeOk d h x = true ->
  (d <= fuel)%nat ->
  (3 <= fuel2)%nat ->
  let p := NodeSet.ChildrenAsText (NodeSet.Nodes [Some x]) true in
  exists s1 h1 h2 q1 q2,
    Text fuel (Some x) h = Done s1 /\
    NodeSet.Collect fuel p h = Done (([q1], None), h1) /\
    payload h1 q1 = Some s1 /\
    NodeSet.Collect fuel2 p h1 = Done (([q2], None), h2) /\
    payload h2 q2 =
      Some (if bool_decide (html.Type_ n = html.TextNode) then s1
            else rerendered n s1).
Proof.
  intros Hx Hok Hd Hfuel p. subst p.
  destruct (Text_total d fuel h x Hok Hd) as [s1 HT].
  pose proof (replaced_lookup_node _ _ _ s1 Hx) as Hnode.
  set (n1 := setLastChild _ _) in Hnode.
  set (s2 := if bool_decide (html.Type_ n = html.TextNode) then s1
             else rerendered n s1).
  assert (HT2 : Text fuel2 (Some x) (replaced h x n s1) = Done s2).
  { unfold s2. case_bool_decide as Hty.
    - destruct fuel as [|f]; [discriminate|].
      rewrite (Text_text_node _ _ _ _ Hx Hty) in HT.
      destruct fuel2 as [|f2]; [lia|].
      rewrite (Text_text_node _ _ _ n1 Hnode Hty). exact HT.
    - destruct fuel2 as [|[|[|f2]]]; try lia.
      now apply Text_replaced. }
  exists s1, (replaced h x n s1), (replaced (replaced h x n s1) x n1 s2),
    (Some (length h)), (Some (length (replaced h x n s1))).
  split; [exact HT|].
  split; [now apply Collect_ChildrenAsText|].
  split; [unfold payload; cbn; now rewrite (replaced_lookup_text _ _ _ s1 Hx)|].
  split; [now apply Collect_ChildrenAsText|].
  unfold payload; cbn. now rewrite (replaced_lookup_text _ _ _ s2 Hnode).
Qed.

(** C8, on the [div] of the sample tree. *)
Lemma ChildrenAsText_twice_witness :
  let p := NodeSet.ChildrenAsText (NodeSet.Nodes [Some div_]) true in
  exists s1 h1 h2 q1 q2,
    Text 8 (Some div_) sample = Done s1 /\
    NodeSet.Collect 8 p sample = Done (([q1], None), h1) /\
    payload h1 q1 = Some s1 /\
    NodeSet.Collect 8 p h1 = Done (([q2], None), h2) /\
    payload h2 q2 = Some (strings.Trim s1 blanks +:+ "").
Proof.
  exact (ChildrenAsText_twice 4 8 8 sample div_ _ eq_refl eq_refl
           ltac:(repeat constructor) ltac:(repeat constructor)).
Defined.

(** C8, counterexample: on the [div] of the sample tree the first call
    yields the payload [A\nB\n] and the second call yields [A\nB]. *)
Lemma ChildrenAsText_twice_differs :
  let p := NodeSet.ChildrenAsText (NodeSet.Nodes [Some div_]) true in
  exists h1 h2 q1 q2,
    NodeSet.Collect 8 p sample = Done (([q1], None), h1) /\
    NodeSet.Collect 8 p h1 = Done (([q2], None), h2) /\
    payload h1 q1 = Some textAB /\
    payload h2 q2 = Some ("A" +:+ String lf "B") /\
    payload h1 q1 <> payload h2 q2.
Proof.
  cbv zeta. do 4 eexists.
  split; [vm_compute; reflexivity|].
  split; [vm_compute; reflexivity|].
  split; [vm_compute; reflexivity|].
  split; [vm_compute; reflexivity|].
  vm_compute. discriminate.
Qed.

(** ** Walking sibling lists *)

(** A sibling loop whose body leaves the tree alone, never returns early
    and appends to the collected items what is known for each sibling. *)
Lemma for_links_collect {A} (d : nat) (h : heap) link
    (body : html.ptr -> M (list html.ptr) (option A)) :
  forall start cs outs fuel,
    chain d h link start = Some cs ->
    (d <= fuel)%nat ->
    Forall2 (fun c o => forall s,
               body (Some c) (World h s) = Done (None, World h (s ++ o))) cs outs ->
    forall s,
      for_links fuel link body start (World h s) = Done (None, World h (s ++ concat outs)).
Proof.
  induction d as [|d IH]; intros start cs outs fuel Hchain Hfuel Hbody s;
    [discriminate|].
  destruct fuel as [|fuel]; [lia|].
  rewrite for_links_unfold. cbn in Hchain.
  destruct start as [x|].
  - destruct (h !! x) as [n|] eqn:Hx; [|discriminate]. cbn in Hchain.
    destruct (chain d h link (link n)) as [l|] eqn:Hl; [|discriminate].
    cbn in Hchain. injection Hchain as <-.
    inversion Hbody as [|? o ? outs' Hc Hrest]; subst.
    erewrite bind_Done by apply Hc. cbv beta iota.
    erewrite bind_Done by (apply deref_Some; exact Hx).
    rewrite (IH _ _ outs' fuel Hl); [|lia|exact Hrest]. cbn [concat].
    now rewrite app_assoc.
  - injection Hchain as <-. inversion Hbody; subst. cbn.
    now rewrite app_nil_r.
Qed.

Lemma fmap_Some_concat (ls : list (list html.loc)) :
  concat (fmap (fmap (M := list) Some) ls) = Some <$> concat ls.
Proof.
  induction ls as [|l ls IH]; [reflexivity|].
  cbn. rewrite fmap_app. now rewrite <- IH.
Qed.

(** ** Deep search *)

Lemma anyForEach_topmost (q : html.Node -> bool) (h : heap) :
  forall d x l fuel,
    topmost d h q x = Some l ->
    (d <= fuel)%nat ->
    forall s,
      anyForEach fuel (Some x) (matchCollect q) (World h s)
      = Done (None, World h (s ++ (Some <$> l))).
Proof.
  induction d as [|d IH]; intros x l fuel Htop Hfuel s; [discriminate|].
  destruct fuel as [|fuel]; [lia|].
  cbn in Htop. destruct (h !! x) as [n|] eqn:Hx; [|discriminate]. cbn in Htop.
  cbn [anyForEach].
  assert (Hq : matchCollect q (Some x) (World h s) =
               if q n then Done (None, World h (s ++ [Some x]))
               else Done (Some ErrNotFound, World h s)).
  { unfold matchCollect, bind, reading, onNode. cbn. rewrite Hx.
    destruct (q n); reflexivity. }
  destruct (q n) eqn:Hqn.
  - injection Htop as <-. erewrite bind_Done by exact Hq. reflexivity.
  - destruct (chain d h html.NextSibling (html.FirstChild n)) as [cs|] eqn:Hcs;
      [|discriminate].
    cbn in Htop. destruct (mapM (topmost d h q) cs) as [ls|] eqn:Hls; [|discriminate].
    cbn in Htop. injection Htop as <-.
    erewrite bind_Done by exact Hq. cbn [orb bool_decide is_break].
    rewrite bool_decide_eq_false_2 by discriminate.
    unfold is_break at 1. rewrite bool_decide_eq_false_2 by discriminate.
    cbn [orb].
    erewrite bind_Done by (apply deref_Some; exact Hx).
    erewrite bind_Done; cycle 1.
    { eapply (for_links_collect d h)
        with (outs := fmap (M := list) (fmap (M := list) Some) ls);
        [exact Hcs | lia |].
      apply mapM_Some in Hls. apply Forall2_fmap_r.
      eapply Forall2_impl; [exact Hls|].
      intros c lc Hc s'. cbv beta.
      erewrite bind_Done by (apply IH; [exact Hc | lia]). reflexivity. }
    cbn. now rewrite fmap_Some_concat.
Qed.

(** A range over a fixed list whose visitor leaves the tree alone, never
    answers [ErrBreak] and appends what is known for each node. *)
Lemma rangeNodes_collect (h : heap) (f : visitor (list html.ptr)) :
  forall (xs : list html.ptr) outs,
    Forall2 (fun x o => forall s, exists e,
               f x (World h s) = Done (e, World h (s ++ o)) /\ is_break e = false)
            xs outs ->
    forall s,
      rangeNodes xs f (World h s) = Done (tt, World h (s ++ concat outs)).
Proof.
  induction 1 as [|x o xs outs Hx _ IH]; intros s; cbn.
  - now rewrite app_nil_r.
  - destruct (Hx s) as (e & He & Hb).
    erewrite bind_Done by exact He. rewrite Hb, IH. now rewrite app_assoc.
Qed.

(** C2 (as the code has it): deep search stops descending below a node
    as soon as the visitor accepts it.  Collected through a filter on the
    node's own fields, [Any] yields, in document order and input by
    input, the topmost nodes of each input's subtree that pass the
    filter; collected directly, it yields the input nodes only. *)
Theorem Any_Match_collects_topmost (q : html.Node -> bool) (d : nat) (h : heap)
    (xs : list html.loc) (ls : list (list html.loc)) (fuel : nat) :
  mapM (topmost d h q) xs = Some ls ->
  (d <= fuel)%nat ->
  NodeSet.Collect fuel
    (NodeSet.Match (NodeSet.Any (NodeSet.Nodes (Some <$> xs))) (onNode q)) h
    = Done ((Some <$> concat ls, None), h) /\
  NodeSet.Collect fuel (NodeSet.Any (NodeSet.Nodes (Some <$> xs))) h
    = Done ((Some <$> xs, None), h).
Proof.
  intros Hls Hfuel. apply mapM_Some in Hls. split.
  - unfold NodeSet.Collect, drive. cbn.
    change (fun node : option nat => _ <- anyForEach fuel node _ ;; ret None)
      with (fun node : option nat =>
              _ <- anyForEach fuel node (matchCollect q) ;; ret (A := error) None).
    rewrite (rangeNodes_collect h _ (Some <$> xs)
               (fmap (M := list) (fmap (M := list) Some) ls)).
    + cbn. now rewrite fmap_Some_concat.
    + apply Forall2_fmap. eapply Forall2_impl; [exact Hls|].
      intros x l Hx s. exists None. split; [|reflexivity].
      erewrite bind_Done by (eapply anyForEach_topmost; [exact Hx|exact Hfuel]).
      reflexivity.
  - unfold NodeSet.Collect, drive. cbn.
    rewrite (rangeNodes_collect h _ (Some <$> xs) ((fun x => [Some x]) <$> xs)).
    + cbn. f_equal. f_equal. f_equal. clear.
      induction xs as [|x xs IH]; [reflexivity|]. cbn. now rewrite IH.
    + apply Forall2_fmap.
      induction Hls as [|x l xs ls Hx _ IH]; constructor; [|exact IH].
      intros s. exists None. split; [|reflexivity].
      destruct d as [|d]; [discriminate|]. destruct fuel as [|fuel]; [lia|].
      reflexivity.
Qed.

(** C2, on the sample tree filtered to Text nodes. *)
Lemma Any_Match_collects_topmost_witness :
  NodeSet.Collect 8
    (NodeSet.Match (NodeSet.Any (NodeSet.Nodes [Some div_]))
       (hasType html.TextNode)) sample
    = Done (([Some txtA; Some txtB], None), sample) /\
  NodeSet.Collect 8 (NodeSet.Any (NodeSet.Nodes [Some div_])) sample
    = Done (([Some div_], None), sample).
Proof.
  exact (Any_Match_collects_topmost
           (fun n => bool_decide (html.Type_ n = html.TextNode))
           4 sample [div_] [[txtA; txtB]] 8 eq_refl ltac:(repeat constructor)).
Defined.

(** C2, counterexample: on [<div><p>A</p><p>B</p></div>] deep search
    filtered to Element nodes yields the [div] alone, not
    [div, p(A), p(B)]: the two paragraphs below the accepted [div] are
    never visited. *)
Lemma Any_elements_of_sample :
  let p := NodeSet.Match (NodeSet.Any (NodeSet.Nodes [Some div_]))
             (hasType html.ElementNode) in
  NodeSet.Collect 8 p sample = Done (([Some div_], None), sample) /\
  NodeSet.Collect 8 p sample <> Done (([Some div_; Some pA; Some pB], None), sample).
Proof.
  split; [reflexivity|discriminate].
Qed.

(** ** Descending and ascending by level *)

Lemma wrap_small (z : Z) : - 2 ^ 63 <= z < 2 ^ 63 -> wrap z = z.
Proof. intros H. unfold wrap. rewrite Z.mod_small; lia. Qed.

Lemma ancestor_last (h : heap) (k : nat) (y : html.loc) :
  ancestor h (S k) y = c ← ancestor h k y; ancestor h 1 c.
Proof.
  revert y. induction k as [|k IH]; intros y.
  - cbn. destruct (h !! y) as [n|]; cbn; [|reflexivity].
    destruct (html.Parent n); reflexivity.
  - change (ancestor h (S (S k)) y)
      with (n ← h !! y; p ← html.Parent n; ancestor h (S k) p).
    destruct (h !! y) as [n|] eqn:Hy; cbn [mbind option_bind]; cbn.
    + rewrite Hy. cbn. destruct (html.Parent n) as [p|]; cbn; [|reflexivity].
      apply IH.
    + now rewrite Hy.
Qed.

Lemma elem_of_concat {A} (x : A) (ls : list (list A)) :
  x ∈ concat ls <-> exists l, x ∈ l /\ l ∈ ls.
Proof.
  induction ls as [|l ls IH]; cbn.
  - split; [intros H; inversion H | intros (l & _ & H); inversion H].
  - rewrite elem_of_app, IH. split.
    + intros [H|(l' & H1 & H2)]; [exists l | exists l'];
        (split; [assumption|]); [left | now right].
    + intros (l' & H1 & H2). apply elem_of_cons in H2 as [->|H2]; [now left|].
      right. eauto.
Qed.

Lemma parentsOk_child (d : nat) (h : heap) (x c : html.loc) (cs : list html.loc) :
  parentsOk d h = true ->
  childrenOf d h x = Some cs ->
  c ∈ cs ->
  ancestor h 1 c = Some x.
Proof.
  intros Hok Hcs Hc. unfold parentsOk in Hok.
  rewrite forallb_forall in Hok.
  assert (Hx : (x < length h)%nat).
  { unfold childrenOf in Hcs. destruct (h !! x) eqn:E; [|discriminate].
    now apply lookup_lt_Some in E. }
  specialize (Hok x). rewrite Hcs in Hok.
  assert (Hin : In x (seq 0 (length h))) by (apply in_seq; lia).
  apply Hok in Hin. rewrite forallb_forall in Hin.
  apply list_elem_of_In in Hc. apply Hin in Hc.
  cbn. destruct (h !! c) as [nc|]; [|discriminate]. cbn.
  apply bool_decide_eq_true_1 in Hc. now rewrite Hc.
Qed.

Lemma levelNodes_ancestor (d : nat) (h : heap) :
  parentsOk d h = true ->
  forall k x l y,
    levelNodes d h k x = Some l -> y ∈ l -> ancestor h k y = Some x.
Proof.
  intros Hok. induction k as [|k IH]; intros x l y Hl Hy.
  - cbn in Hl. injection Hl as <-. apply list_elem_of_singleton in Hy. now subst.
  - cbn in Hl. destruct (childrenOf d h x) as [cs|] eqn:Hcs; [|discriminate].
    cbn in Hl. destruct (mapM (levelNodes d h k) cs) as [ls|] eqn:Hls; [|discriminate].
    cbn in Hl. injection Hl as <-.
    apply mapM_Some in Hls.
    apply elem_of_concat in Hy as (lc & Hy & Hlc).
    apply list_elem_of_lookup in Hlc as (i & Hi).
    destruct (Forall2_lookup_r _ _ _ _ _ Hls Hi) as (c & Hc & Hclc).
    rewrite ancestor_last, (IH _ _ _ Hclc Hy). cbn [mbind option_bind].
    eapply parentsOk_child; [exact Hok | exact Hcs |].
    apply list_elem_of_lookup. eauto.
Qed.

Lemma parentLevelForEach_ancestor {St} (f : visitor St) (w : world St) :
  forall k y x fuel,
    ancestor (mem w) k y = Some x ->
    (k < fuel)%nat ->
    Z.of_nat k <= 2 ^ 63 ->
    parentLevelForEach fuel (Some y) (- Z.of_nat k) f w = f (Some x) w.
Proof.
  induction k as [|k IH]; intros y x fuel Hanc Hfuel Hk;
    (destruct fuel as [|fuel]; [lia|]); cbn [parentLevelForEach].
  - cbn in Hanc. injection Hanc as <-. reflexivity.
  - replace (- Z.of_nat (S k) <? 0) with true by (symmetry; apply Z.ltb_lt; lia).
    cbn in Hanc. destruct (mem w !! y) as [n|] eqn:Hy; [|discriminate].
    cbn in Hanc. destruct (html.Parent n) as [p|] eqn:Hp; [|discriminate].
    cbn in Hanc.
    erewrite bind_Done by (apply deref_Some; exact Hy). rewrite Hp.
    replace (wrap (- Z.of_nat (S k) + 1)) with (- Z.of_nat k)
      by (rewrite wrap_small; lia).
    apply IH; [assumption | lia | lia].
Qed.

Lemma childLevelForEach_levelNodes (d : nat) (h : heap) (g : visitor (list html.ptr))
    (out : html.loc -> list html.ptr) :
  forall k x l fuel,
    levelNodes d h k x = Some l ->
    (d + k < fuel)%nat ->
    Z.of_nat k < 2 ^ 63 ->
    (forall y s, y ∈ l -> exists e,
        g (Some y) (World h s) = Done (e, World h (s ++ out y)) /\ is_break e = false) ->
    forall s, exists e,
      childLevelForEach fuel (Some x) (Z.of_nat k) g (World h s)
      = Done (e, World h (s ++ concat (out <$> l))) /\ is_break e = false.
Proof.
  induction k as [|k IH]; intros x l fuel Hl Hfuel Hk Hg s;
    (destruct fuel as [|fuel]; [lia|]); cbn [childLevelForEach].
  - cbn in Hl. injection Hl as <-. cbn. rewrite app_nil_r.
    apply Hg. now apply list_elem_of_singleton.
  - replace (Z.of_nat (S k) =? 0) with false by (symmetry; apply Z.eqb_neq; lia).
    replace (wrap (Z.of_nat (S k) - 1)) with (Z.of_nat k)
      by (rewrite wrap_small; lia).
    cbn in Hl. destruct (childrenOf d h x) as [cs|] eqn:Hcs; [|discriminate].
    cbn in Hl. destruct (mapM (levelNodes d h k) cs) as [ls|] eqn:Hls; [|discriminate].
    cbn in Hl. injection Hl as <-.
    unfold childrenOf in Hcs. destruct (h !! x) as [n|] eqn:Hx; [|discriminate].
    cbn in Hcs. apply mapM_Some in Hls.
    exists None. split; [|reflexivity].
    erewrite bind_Done by (apply deref_Some; exact Hx).
    erewrite bind_Done; cycle 1.
    { eapply (for_links_collect d h)
        with (outs := fmap (M := list) (fun lc => concat (out <$> lc)) ls);
        [exact Hcs | lia |].
      apply Forall2_fmap_r.
      apply Forall2_same_length_lookup. split; [eapply Forall2_length; eassumption|].
      intros i c lc Hc Hlc s'. cbv beta.
      assert (Hclc : levelNodes d h k c = Some lc)
        by exact (Forall2_lookup_lr _ _ _ _ _ _ Hls Hc Hlc).
      destruct (IH c lc fuel Hclc ltac:(lia) ltac:(lia)) with (s := s')
        as (e & He & Hb).
      { intros y s'' Hy. apply Hg. apply elem_of_concat.
        exists lc. split; [assumption|]. apply list_elem_of_lookup. eauto. }
      erewrite bind_Done by exact He. now rewrite Hb. }
    unfold ret. cbn [or_nil]. do 4 f_equal. clear.
    induction ls as [|lc ls IH]; [reflexivity|].
    cbn. now rewrite fmap_app, concat_app, IH.
Qed.

Lemma ChildN_down (p : NodeSet) (level : int) :
  Err p = None -> 0 < level ->
  NodeSet.ChildN p level = {| Data := childLevelNodes (Data p) level; Err := None |}.
Proof.
  intros He Hl. unfold NodeSet.ChildN. rewrite He.
  replace (level =? 0) with false by (symmetry; apply Z.eqb_neq; lia).
  replace (0 <? level) with true by (symmetry; apply Z.ltb_lt; lia).
  reflexivity.
Qed.

Lemma ChildN_up (p : NodeSet) (level : int) :
  Err p = None -> level < 0 ->
  NodeSet.ChildN p level = {| Data := parentLevelNodes (Data p) level; Err := None |}.
Proof.
  intros He Hl. unfold NodeSet.ChildN. rewrite He.
  replace (level =? 0) with false by (symmetry; apply Z.eqb_neq; lia).
  replace (0 <? level) with false by (symmetry; apply Z.ltb_ge; lia).
  reflexivity.
Qed.

Lemma concat_const_singleton {A B} (a : A) (l : list B) :
  concat ((fun _ => [a]) <$> l) = replicate (length l) a.
Proof. induction l as [|b l IH]; [reflexivity|]. cbn. now rewrite IH. Qed.

Lemma concat_zip_singletons (xs : list html.loc) (ls : list (list html.loc)) :
  length xs = length ls ->
  Forall (fun l => length l = 1%nat) ls ->
  concat (zip_with (fun x l => replicate (length l) (Some x)) xs ls) = Some <$> xs.
Proof.
  revert ls. induction xs as [|x xs IH]; intros [|l ls] Hlen Hone;
    try discriminate; [reflexivity|].
  inversion Hone as [|? ? Hl Hrest]; subst. cbn. rewrite Hl. cbn.
  f_equal. apply IH; [now injection Hlen | assumption].
Qed.

Lemma concat_pointers (l : list html.loc) :
  concat ((fun y => [Some y]) <$> l) = Some <$> l.
Proof. induction l as [|y l IH]; [reflexivity|]. cbn. now rewrite IH. Qed.

Lemma concat_own_singletons {A} (ys : list A) (ls : list (list A)) :
  Forall2 (fun y l => l = [y]) ys ls -> concat ls = ys.
Proof. induction 1 as [|y l ys ls -> _ IH]; [reflexivity|]. cbn. now rewrite IH. Qed.

(** C3 (as the code has it): the two level combinators do not undo each
    other.  On a tree whose children name their parent, descending
    [k > 0] levels from a fixed list of nodes and ascending [k] levels
    again yields, collected, every input node once for each descendant
    it has [k] levels down, in input order.  Ascending [k] levels first
    and descending [k] levels again yields, for every input node in
    turn, all the nodes [k] levels below its ancestor, in document
    order.  Either is the input sequence itself when, in the first case,
    every input node has exactly one descendant at that depth, and in
    the second, every input node is the only node at that depth below
    its ancestor. *)
Theorem ChildN_round_trip (d k : nat) (h : heap) (fuel : nat) :
  parentsOk d h = true ->
  (0 < k)%nat ->
  Z.of_nat k < 2 ^ 63 ->
  (d + k < fuel)%nat ->
  (forall (xs : list html.loc) (ls : list (list html.loc)),
     mapM (levelNodes d h k) xs = Some ls ->
     let p := NodeSet.ChildN (NodeSet.ChildN (NodeSet.Nodes (Some <$> xs)) (Z.of_nat k))
                (- Z.of_nat k) in
     NodeSet.Collect fuel p h
       = Done ((concat (zip_with (fun x l => replicate (length l) (Some x)) xs ls), None),
               h) /\
     (Forall (fun l => length l = 1%nat) ls ->
      NodeSet.Collect fuel p h = Done ((Some <$> xs, None), h))) /\
  (forall (ys tops : list html.loc) (ls : list (list html.loc)),
     mapM (ancestor h k) ys = Some tops ->
     mapM (levelNodes d h k) tops = Some ls ->
     let p := NodeSet.ChildN (NodeSet.ChildN (NodeSet.Nodes (Some <$> ys)) (- Z.of_nat k))
                (Z.of_nat k) in
     NodeSet.Collect fuel p h = Done ((Some <$> concat ls, None), h) /\
     (Forall2 (fun y l => l = [y]) ys ls ->
      NodeSet.Collect fuel p h = Done ((Some <$> ys, None), h))).
Proof.
  intros Hok Hpos Hk Hfuel. split.
  - intros xs ls Hls p. apply mapM_Some in Hls.
    assert (Hmain : NodeSet.Collect fuel p h
      = Done ((concat (zip_with (fun x l => replicate (length l) (Some x)) xs ls), None),
              h)).
    { subst p. rewrite (ChildN_down _ (Z.of_nat k)) by (reflexivity || lia).
      rewrite ChildN_up by (reflexivity || lia).
      unfold NodeSet.Collect, drive. cbn [Err Data ForEach NodeSet.Nodes].
      rewrite (rangeNodes_collect h _ (Some <$> xs)
                 (zip_with (fun x l => replicate (length l) (Some x)) xs ls));
        [reflexivity|].
      induction Hls as [|x l xs ls Hx _ IH]; cbn; constructor; [|exact IH].
      intros s. rewrite <- (concat_const_singleton (Some x) l).
      apply (childLevelForEach_levelNodes d h _ (fun _ => [Some x]) k x l fuel Hx Hfuel Hk).
      intros y s' Hy. exists None. split; [|reflexivity].
      rewrite (parentLevelForEach_ancestor _ _ k y x); [reflexivity | | lia | lia].
      cbn [mem]. eapply levelNodes_ancestor; eassumption. }
    split; [exact Hmain|].
    intros Hone. rewrite Hmain. rewrite concat_zip_singletons; [reflexivity | | exact Hone].
    eapply Forall2_length; eassumption.
  - intros ys tops ls Htops Hls p.
    apply mapM_Some in Htops. apply mapM_Some in Hls.
    assert (Hmain : NodeSet.Collect fuel p h = Done ((Some <$> concat ls, None), h)).
    { subst p. rewrite (ChildN_up _ (- Z.of_nat k)) by (reflexivity || lia).
      rewrite ChildN_down by (reflexivity || lia).
      unfold NodeSet.Collect, drive. cbn [Err Data ForEach NodeSet.Nodes].
      rewrite (rangeNodes_collect h _ (Some <$> ys)
                 (fmap (M := list) (fmap (M := list) Some) ls));
        [now rewrite fmap_Some_concat|].
      clear Hok. revert ls Hls.
      induction Htops as [|y top ys tops Hy _ IH]; intros ls Hls;
        inversion Hls as [|? l ? ls' Hl Hrest]; subst; cbn; constructor;
        [|now apply IH].
      intros s.
      rewrite (parentLevelForEach_ancestor _ _ k y top); [|exact Hy|lia|lia].
      rewrite <- concat_pointers.
      apply (childLevelForEach_levelNodes d h _ (fun c => [Some c]) k top l fuel
               Hl Hfuel Hk).
      intros c s' _. exists None. split; reflexivity. }
    split; [exact Hmain|].
    intros Hown. rewrite Hmain. now rewrite (concat_own_singletons ys ls Hown).
Qed.

(** C3, on the sample tree: down and up again from the two paragraphs,
    each with one child, and up and down again from the two texts, each
    an only child. *)
Lemma ChildN_round_trip_witness :
  NodeSet.Collect 8
    (NodeSet.ChildN (NodeSet.ChildN (NodeSet.Nodes [Some pA; Some pB]) 1) (-1)) sample
  = Done (([Some pA; Some pB], None), sample) /\
  NodeSet.Collect 8
    (NodeSet.ChildN (NodeSet.ChildN (NodeSet.Nodes [Some txtA; Some txtB]) (-1)) 1) sample
  = Done (([Some txtA; Some txtB], None), sample).
Proof.
  split.
  - exact (proj1 (proj1 (ChildN_round_trip 4 1 sample 8 eq_refl (le_n 1) eq_refl
                           ltac:(repeat constructor))
                    [pA; pB] [[txtA]; [txtB]] eq_refl)).
  - exact (proj1 (proj2 (ChildN_round_trip 4 1 sample 8 eq_refl (le_n 1) eq_refl
                           ltac:(repeat constructor))
                    [txtA; txtB] [pA; pB] [[txtA]; [txtB]] eq_refl eq_refl)).
Defined.

(** C3, counterexample: neither composition gives the input back.  The
    [div] of the sample tree has descendants one level down, yet
    [ChildN(1)] followed by [ChildN(-1)] over the [div] alone collects
    the [div] twice, once for each of its two children; and the first
    paragraph has an ancestor one level up, yet [ChildN(-1)] followed by
    [ChildN(1)] over that paragraph alone collects both paragraphs. *)
Lemma ChildN_round_trip_not_identity :
  let down_up := NodeSet.ChildN (NodeSet.ChildN (NodeSet.Nodes [Some div_]) 1) (-1) in
  let up_down := NodeSet.ChildN (NodeSet.ChildN (NodeSet.Nodes [Some pA]) (-1)) 1 in
  levelNodes 4 sample 1 div_ = Some [pA; pB] /\
  NodeSet.Collect 8 (NodeSet.Nodes [Some div_]) sample = Done (([Some div_], None), sample) /\
  NodeSet.Collect 8 down_up sample = Done (([Some div_; Some div_], None), sample) /\
  NodeSet.Collect 8 down_up sample <> NodeSet.Collect 8 (NodeSet.Nodes [Some div_]) sample /\
  ancestor sample 1 pA = Some div_ /\
  NodeSet.Collect 8 (NodeSet.Nodes [Some pA]) sample = Done (([Some pA], None), sample) /\
  NodeSet.Collect 8 up_down sample = Done (([Some pA; Some pB], None), sample) /\
  NodeSet.Collect 8 up_down sample <> NodeSet.Collect 8 (NodeSet.Nodes [Some pA]) sample.
Proof.
  repeat split; try reflexivity; discriminate.
Qed.

(** ** Drives do not depend on what the visitor captures

    Two visitors over different captured variables are run by the same
    enumerable from the same tree.  [R] relates the captured variables
    while the two visitors have answered alike; [Bad] holds of the first
    visitor's variables once they no longer need to agree. *)
Section Simulation.

Context {St1 St2 : Type}.
Variable R : St1 -> St2 -> Prop.
Variable Bad : St1 -> Prop.

Lemma sim_ret {A} (a : A) : sim R Bad (ret a) (ret a).
Proof. intros h s1 s2. cbn. split; [tauto|]. intros HR. right. eauto. Qed.

Lemma sim_bind {A B} (m1 : M St1 A) (m2 : M St2 A) (k1 : A -> M St1 B) (k2 : A -> M St2 B) :
  sim R Bad m1 m2 -> (forall a, sim R Bad (k1 a) (k2 a)) -> sim R Bad (bind m1 k1) (bind m2 k2).
Proof.
  intros Hm Hk h s1 s2. unfold bind at 1.
  specialize (Hm h s1 s2).
  destruct (m1 (World h s1)) as [[a [h1 t1]]| |]; [|exact I|exact I].
  cbn [mem vis] in Hm. destruct Hm as [Hbad Hrel].
  pose proof (Hk a h1 t1 s2) as Hk1.
  destruct (k1 a (World h1 t1)) as [[b [h2 t2]]| |] eqn:E1; [|exact I|exact I].
  cbn [mem vis] in *. destruct Hk1 as [Hbad1 _]. split; [tauto|].
  intros HR. destruct (Hrel HR) as [Hb|(s2' & Hm2 & HR')]; [left; tauto|].
  pose proof (Hk a h1 t1 s2') as Hk2. rewrite E1 in Hk2. cbn [mem vis] in Hk2.
  destruct Hk2 as [_ Hrel2].
  destruct (Hrel2 HR') as [Hb|(s2'' & Hk2 & HR'')]; [now left|].
  right. exists s2''. split; [|assumption].
  unfold bind. now rewrite Hm2.
Qed.

(** Steps that read or change the tree only. *)
Lemma sim_tree {A} (step : heap -> outcome (A * heap)) (m1 : M St1 A) (m2 : M St2 A) :
  (forall h s, m1 (World h s) =
     match step h with
     | Done (a, h') => Done (a, World h' s)
     | Panics why => Panics why
     | OutOfFuel => OutOfFuel
     end) ->
  (forall h s, m2 (World h s) =
     match step h with
     | Done (a, h') => Done (a, World h' s)
     | Panics why => Panics why
     | OutOfFuel => OutOfFuel
     end) ->
  sim R Bad m1 m2.
Proof.
  intros H1 H2 h s1 s2. rewrite H1.
  destruct (step h) as [[a h']| |] eqn:E; [|exact I|exact I].
  cbn. split; [tauto|]. intros HR. right. exists s2. rewrite H2, E. auto.
Qed.

Lemma sim_deref p : sim R Bad (deref p) (deref p).
Proof.
  apply (sim_tree (fun h =>
           match p with
           | None => Panics NilDeref
           | Some x => match h !! x with
                       | Some n => Done (n, h)
                       | None => Panics InvalidPointer
                       end
           end));
    intros h s; unfold deref; cbn; destruct p as [x|]; [|reflexivity| |reflexivity];
    destruct (h !! x); reflexivity.
Qed.

Lemma sim_update p f : sim R Bad (update p f) (update p f).
Proof.
  apply (sim_tree (fun h =>
           match p with
           | None => Panics NilDeref
           | Some x => match h !! x with
                       | Some n => Done (tt, <[x := f n]> h)
                       | None => Panics InvalidPointer
                       end
           end));
    intros h s; unfold update; cbn; destruct p as [x|]; [|reflexivity| |reflexivity];
    destruct (h !! x); reflexivity.
Qed.

Lemma sim_new_node n : sim R Bad (new_node n) (new_node n).
Proof.
  apply (sim_tree (fun h => Done (Some (length h), h ++ [n])));
    intros h s; reflexivity.
Qed.

Lemma sim_reading {A} (f : heap -> outcome A) : sim R Bad (reading f) (reading f).
Proof.
  apply (sim_tree (fun h =>
           match f h with
           | Done a => Done (a, h)
           | Panics why => Panics why
           | OutOfFuel => OutOfFuel
           end));
    intros h s; unfold reading; cbn; destruct (f h); reflexivity.
Qed.

Lemma sim_throw {A} why : sim R Bad (throw (A := A) why) (throw why).
Proof. intros h s1 s2. exact I. Qed.

Lemma sim_out_of_fuel {A} : sim R Bad (out_of_fuel (A := A)) out_of_fuel.
Proof. intros h s1 s2. exact I. Qed.

Ltac sim_step :=
  first
    [ apply sim_ret | apply sim_deref | apply sim_update | apply sim_new_node
    | apply sim_reading | apply sim_throw | apply sim_out_of_fuel
    | match goal with H : forall p, sim _ _ (_ p) (_ p) |- _ => apply H end
    | match goal with H : forall p, sim _ _ _ _ |- _ => apply H end
    | apply sim_bind; [|intros ?]
    | match goal with
      | |- sim _ _ (if ?c then _ else _) _ => destruct c
      | |- sim _ _ (match ?x with _ => _ end) _ => destruct x
      end ].

Lemma sim_for_links {A} link (body1 : html.ptr -> M St1 (option A))
    (body2 : html.ptr -> M St2 (option A)) :
  (forall p, sim R Bad (body1 p) (body2 p)) ->
  forall fuel node, sim R Bad (for_links fuel link body1 node) (for_links fuel link body2 node).
Proof.
  intros Hbody. induction fuel as [|fuel IH]; intros node; cbn [for_links].
  - apply sim_out_of_fuel.
  - destruct node as [x|]; repeat sim_step; try apply IH.
Qed.

Section Visitors.

Variable f1 : visitor St1.
Variable f2 : visitor St2.
Hypothesis Hf : forall p, sim R Bad (f1 p) (f2 p).

Lemma sim_rangeNodes nodes : sim R Bad (rangeNodes nodes f1) (rangeNodes nodes f2).
Proof.
  induction nodes as [|node rest IH]; cbn [rangeNodes]; repeat sim_step; try exact IH.
Qed.

Lemma sim_anyForEach fuel : forall p, sim R Bad (anyForEach fuel p f1) (anyForEach fuel p f2).
Proof.
  induction fuel as [|fuel IH]; intros p; cbn [anyForEach]; repeat sim_step;
    try (apply sim_for_links; intros node; repeat sim_step; try apply IH).
Qed.

Lemma sim_childLevelForEach fuel :
  forall p level,
    sim R Bad (childLevelForEach fuel p level f1) (childLevelForEach fuel p level f2).
Proof.
  induction fuel as [|fuel IH]; intros p level; cbn [childLevelForEach];
    repeat sim_step;
    try (apply sim_for_links; intros node; repeat sim_step; try apply IH).
Qed.

Lemma sim_parentLevelForEach fuel :
  forall p level,
    sim R Bad (parentLevelForEach fuel p level f1) (parentLevelForEach fuel p level f2).
Proof.
  induction fuel as [|fuel IH]; intros p level; cbn [parentLevelForEach];
    repeat sim_step; try apply IH.
Qed.

Lemma sim_siblingForEach fuel :
  forall p delta,
    sim R Bad (siblingForEach fuel p delta f1) (siblingForEach fuel p delta f2).
Proof.
  induction fuel as [|fuel IH]; intros p delta; cbn [siblingForEach];
    repeat sim_step; apply IH.
Qed.

Lemma sim_allSiblingsForEach fuel link node :
  sim R Bad (allSiblingsForEach fuel link node f1) (allSiblingsForEach fuel link node f2).
Proof.
  unfold allSiblingsForEach. repeat sim_step;
    try (apply sim_for_links; intros p; repeat sim_step).
Qed.

Lemma sim_textForEach fuel doReplace t :
  sim R Bad (textForEach fuel doReplace t f1) (textForEach fuel doReplace t f2).
Proof. unfold textForEach. repeat sim_step. Qed.

End Visitors.

Lemma sim_FirstChild fuel node nodeType :
  sim R Bad (FirstChild fuel node nodeType) (FirstChild fuel node nodeType).
Proof.
  unfold FirstChild. repeat sim_step;
    try (apply sim_for_links; intros p; repeat sim_step).
Qed.

Lemma sim_LastChild fuel node nodeType :
  sim R Bad (LastChild fuel node nodeType) (LastChild fuel node nodeType).
Proof.
  unfold LastChild. repeat sim_step;
    try (apply sim_for_links; intros p; repeat sim_step).
Qed.

(** The drive of every enumerable carries related visitors to related
    outcomes. *)
Lemma sim_ForEach fuel (e : NodeEnum) :
  forall (f1 : visitor St1) (f2 : visitor St2),
    (forall p, sim R Bad (f1 p) (f2 p)) ->
    sim R Bad (ForEach fuel e f1) (ForEach fuel e f2).
Proof.
  induction e as [|node|nodes|data IH|data IH level|data IH level|data IH delta
                 |data IH|data IH|data IH nodeType|data IH nodeType|data IH pred
                 |data IH doReplace];
    intros f1 f2 Hf; cbn [ForEach].
  - apply sim_throw.
  - repeat sim_step.
  - now apply sim_rangeNodes.
  - apply IH. intros node. repeat sim_step. now apply sim_anyForEach.
  - apply IH. intros node. now apply sim_childLevelForEach.
  - apply IH. intros node. now apply sim_parentLevelForEach.
  - apply IH. intros node. now apply sim_siblingForEach.
  - apply IH. intros node. now apply sim_allSiblingsForEach.
  - apply IH. intros node. now apply sim_allSiblingsForEach.
  - apply IH. intros node. apply sim_bind; [apply sim_FirstChild|].
    intros r. destruct (snd r); repeat sim_step.
  - apply IH. intros node. apply sim_bind; [apply sim_LastChild|].
    intros r. destruct (snd r); repeat sim_step.
  - apply IH. intros node. repeat sim_step.
  - apply IH. intros node. now apply sim_textForEach.
Qed.

End Simulation.

(** A visitor that always leaves a mark on its captured variables was
    never called in a drive that ends without the mark; any other visitor
    then sees the same drive and keeps its own variables. *)
Lemma ForEach_never_called {St1 St2} (Touched : St1 -> Prop)
    (f1 : visitor St1) (f2 : visitor St2) :
  (forall p w, match f1 p w with
               | Done (_, w') => Touched (vis w')
               | _ => True
               end) ->
  forall fuel e h s1 s2 w1,
    ForEach fuel e f1 (World h s1) = Done (tt, w1) ->
    ~ Touched (vis w1) ->
    ForEach fuel e f2 (World h s2) = Done (tt, World (mem w1) s2).
Proof.
  intros Hmark fuel e h s1 s2 w1 Hrun Hclean.
  assert (Hsim : forall p, sim (fun _ t => t = s2) Touched (f1 p) (f2 p)).
  { intros p h0 t1 t2. specialize (Hmark p (World h0 t1)).
    destruct (f1 p (World h0 t1)) as [[a w]| |]; [|exact I|exact I].
    split; [tauto|]. intros _. now left. }
  pose proof (sim_ForEach _ _ fuel e f1 f2 Hsim h s1 s2) as H.
  rewrite Hrun in H. destruct H as [_ H].
  destruct (H eq_refl) as [Hb|(s2' & Hrun2 & ->)]; [contradiction|].
  exact Hrun2.
Qed.

(** ** Collecting nothing *)

(** C10: on a node set that has not failed, [Collect] never reports an
    error, and the drives that emit no node (those on which [CollectOne],
    with no argument or with [true], answers nil and [ErrNotFound]) are
    exactly the drives on which [Collect] succeeds with an empty sequence
    and no error, leaving the tree in the same state. *)
Theorem Collect_of_nothing (fuel : nat) (d : NodeEnum) (h h' : heap) :
  let p := {| Data := d; Err := None |} in
  (NodeSet.CollectOne fuel p None h = Done ((None, Some ErrNotFound), h') <->
   NodeSet.Collect fuel p h = Done (([], None), h')) /\
  (forall rest,
     NodeSet.CollectOne fuel p (Some (true :: rest)) h
       = Done ((None, Some ErrNotFound), h') <->
     NodeSet.Collect fuel p h = Done (([], None), h')) /\
  (forall items err h'',
     NodeSet.Collect fuel p h = Done ((items, err), h'') -> err = None).
Proof.
  intros p. subst p.
  assert (Hto : forall (f : visitor (html.ptr * error)),
    (forall q w, match f q w with
                 | Done (_, w') => snd (vis w') <> Some ErrNotFound
                 | _ => True
                 end) ->
    drive fuel d f (None, Some ErrNotFound) h = Done ((None, Some ErrNotFound), h') <->
    NodeSet.Collect fuel {| Data := d; Err := None |} h = Done (([], None), h')).
  { intros f Hmark. unfold NodeSet.Collect, drive. cbn [Err Data]. split.
    - intros Hrun.
      destruct (ForEach fuel d f _) as [[[] w1]| |] eqn:E; try discriminate.
      injection Hrun as Hv Hm.
      rewrite (ForEach_never_called (fun s => snd s <> Some ErrNotFound)
                 f collectVisitor Hmark _ _ _ _ [] _ E).
      + cbn [mem vis]. now rewrite Hm.
      + rewrite Hv. cbn. tauto.
    - intros Hrun.
      destruct (ForEach fuel d collectVisitor _) as [[[] w1]| |] eqn:E;
        try discriminate.
      injection Hrun as Hv Hm.
      rewrite (ForEach_never_called (fun items => items <> []) collectVisitor f
                 ltac:(intros q w; cbn; now destruct (vis w))
                 _ _ _ _ (None, Some ErrNotFound) _ E).
      + cbn [mem vis]. now rewrite Hm.
      + rewrite Hv. tauto. }
  split; [|split].
  - apply Hto. intros q w. cbn. discriminate.
  - intros rest. apply Hto. intros q w. unfold exactlyVisitor.
    case_bool_decide; cbn; discriminate.
  - intros items err h''. unfold NodeSet.Collect. cbn [Err].
    destruct (drive _ _ _ _ _) as [[? ?]| |]; [|discriminate|discriminate].
    now intros [= _ <- _].
Qed.

(** The children of a leaf: nothing is emitted. *)
Example Collect_of_nothing_on_leaf :
  let p := NodeSet.Child (NodeSet.Nodes [Some txtA]) in
  NodeSet.Collect 8 p sample = Done (([], None), sample) /\
  NodeSet.CollectOne 8 p None sample = Done ((None, Some ErrNotFound), sample) /\
  NodeSet.CollectOne 8 p (Some [true]) sample = Done ((None, Some ErrNotFound), sample).
Proof. repeat split. Qed.

(** ** Early termination

    Every enumerable built without deep search honours Break. *)

Section Protocol.

Context {St : Type}.

Lemma quiet_ret {T A} (P : A -> Prop) (a : A) : P a -> quiet (St := T) P (ret a).
Proof. intros H w. cbn. auto. Qed.

Lemma quiet_bind {T A B} (P : B -> Prop) (m : M T A) (k : A -> M T B) :
  quiet (fun _ => True) m -> (forall a, quiet P (k a)) -> quiet P (bind m k).
Proof.
  intros Hm Hk w. unfold bind. specialize (Hm w).
  destruct (m w) as [[a w1]| |]; [|exact I|exact I].
  destruct Hm as [Hv _]. specialize (Hk a w1).
  destruct (k a w1) as [[b w2]| |]; [|exact I|exact I].
  destruct Hk as [Hv2 Hb]. split; [congruence|assumption].
Qed.

Lemma quiet_deref {T} p : quiet (St := T) (fun _ => True) (deref p).
Proof.
  intros w. unfold deref. destruct p as [x|]; [|exact I].
  destruct (mem w !! x); [auto|exact I].
Qed.

Lemma quiet_update {T} p f : quiet (St := T) (fun _ => True) (update p f).
Proof.
  intros w. unfold update. destruct p as [x|]; [|exact I].
  destruct (mem w !! x); [auto|exact I].
Qed.

Lemma quiet_new_node {T} n : quiet (St := T) (fun _ => True) (new_node n).
Proof. intros w. cbn. auto. Qed.

Lemma quiet_reading {T A} (f : heap -> outcome A) :
  quiet (St := T) (fun _ => True) (reading f).
Proof. intros w. unfold reading. destruct (f (mem w)); [auto|exact I|exact I]. Qed.

Lemma quiet_for_links {T A} link (body : html.ptr -> M T (option A)) :
  (forall p, quiet (fun _ => True) (body p)) ->
  forall fuel node, quiet (fun _ => True) (for_links fuel link body node).
Proof.
  intros Hbody. induction fuel as [|fuel IH]; intros node; cbn [for_links].
  - intros w. exact I.
  - destruct node as [x|]; [|now apply quiet_ret].
    apply quiet_bind; [apply Hbody|]. intros [a|]; [now apply quiet_ret|].
    apply quiet_bind; [apply quiet_deref|]. intros n. apply IH.
Qed.

Lemma quiet_FirstChild {T} fuel node nodeType :
  quiet (St := T) (fun _ => True) (FirstChild fuel node nodeType).
Proof.
  unfold FirstChild. apply quiet_bind; [apply quiet_deref|]. intros n.
  apply quiet_bind.
  - apply quiet_for_links. intros p. apply quiet_bind; [apply quiet_deref|].
    intros c. destruct (bool_decide _); now apply quiet_ret.
  - intros [p|]; now apply quiet_ret.
Qed.

Lemma quiet_LastChild {T} fuel node nodeType :
  quiet (St := T) (fun _ => True) (LastChild fuel node nodeType).
Proof.
  unfold LastChild. apply quiet_bind; [apply quiet_deref|]. intros n.
  apply quiet_bind.
  - apply quiet_for_links. intros p. apply quiet_bind; [apply quiet_deref|].
    intros c. destruct (bool_decide _); now apply quiet_ret.
  - intros [p|]; now apply quiet_ret.
Qed.

Lemma honours_quiet {A} (Q P : A -> Prop) (m : M (St * watched) A) :
  quiet Q m -> honours P m.
Proof.
  intros Hq w Hw. specialize (Hq w).
  destruct (m w) as [[a w']| |]; [|exact I|exact I].
  destruct Hq as [Hv _]. rewrite Hv, Hw. cbn. split; [reflexivity|discriminate].
Qed.

Lemma honours_bind {A B} (PA : A -> Prop) (PB : B -> Prop)
    (m : M (St * watched) A) (k : A -> M (St * watched) B) :
  honours PA m ->
  (forall a, PA a -> quiet PB (k a)) ->
  (forall a, honours PB (k a)) ->
  honours PB (bind m k).
Proof.
  intros Hm Hq Hk w Hw. unfold bind. specialize (Hm w Hw).
  destruct (m w) as [[a w1]| |]; [|exact I|exact I].
  destruct Hm as [Hlate Hbrk].
  destruct (broken (snd (vis w1))) eqn:Eb.
  - specialize (Hq a (Hbrk eq_refl) w1).
    destruct (k a w1) as [[b w2]| |]; [|exact I|exact I].
    destruct Hq as [Hv Hb]. rewrite Hv. auto.
  - apply Hk. destruct (snd (vis w1)) as [b l]. cbn in *. now subst.
Qed.

Lemma honours_after {A B} (PB : B -> Prop)
    (m : M (St * watched) A) (k : A -> M (St * watched) B) :
  quiet (fun _ => True) m -> (forall a, honours PB (k a)) -> honours PB (bind m k).
Proof.
  intros Hm Hk. apply (honours_bind (fun _ => False)); [|tauto|assumption].
  eapply honours_quiet; exact Hm.
Qed.

Lemma honours_ret {A} (P : A -> Prop) (a : A) : honours (St := St) P (ret a).
Proof. apply (honours_quiet (fun _ => True)). now apply quiet_ret. Qed.

Lemma honours_watch (f : visitor St) p : honours isBreak (watch f p).
Proof.
  intros w Hw. unfold watch.
  destruct (f p _) as [[err w']| |]; [|exact I|exact I].
  rewrite Hw. cbn. split; [reflexivity|].
  unfold is_break. intros H. now apply bool_decide_eq_true_1 in H.
Qed.

(** The body of a sibling loop around a derivation. *)
Lemma honours_loop_body (m : M (St * watched) error) :
  honours isBreak m ->
  honours isBreakReturn
    (e <- m ;; if is_break e then ret (Some (Some ErrBreak)) else ret None).
Proof.
  intros Hm. apply (honours_bind isBreak); [exact Hm| |].
  - intros a ->. now apply quiet_ret.
  - intros a. destruct (is_break a); apply honours_ret.
Qed.

Lemma honours_for_links link (body : html.ptr -> M (St * watched) (option error)) :
  (forall p, honours isBreakReturn (body p)) ->
  forall fuel node, honours isBreakReturn (for_links fuel link body node).
Proof.
  intros Hbody. induction fuel as [|fuel IH]; intros node; cbn [for_links].
  - intros w Hw. exact I.
  - destruct node as [x|]; [|apply honours_ret].
    apply (honours_bind isBreakReturn); [apply Hbody| |].
    + intros a ->. now apply quiet_ret.
    + intros [a|]; [apply honours_ret|].
      apply honours_after; [apply quiet_deref|]. intros n. apply IH.
Qed.

Lemma honours_or_nil (m : M (St * watched) (option error)) :
  honours isBreakReturn m -> honours isBreak (r <- m ;; ret (or_nil r)).
Proof.
  intros Hm. apply (honours_bind isBreakReturn); [exact Hm| |].
  - intros a ->. now apply quiet_ret.
  - intros a. apply honours_ret.
Qed.

Section Derivations.

Variable c : visitor (St * watched).
Hypothesis Hc : forall p, honours isBreak (c p).

Lemma honours_childLevelForEach fuel :
  forall p level, honours isBreak (childLevelForEach fuel p level c).
Proof.
  induction fuel as [|fuel IH]; intros p level; cbn [childLevelForEach].
  - intros w Hw. exact I.
  - destruct (level =? 0); [apply Hc|].
    apply honours_after; [apply quiet_deref|]. intros n.
    apply honours_or_nil, honours_for_links. intros node.
    apply honours_loop_body, IH.
Qed.

Lemma honours_parentLevelForEach fuel :
  forall p level, honours isBreak (parentLevelForEach fuel p level c).
Proof.
  induction fuel as [|fuel IH]; intros p level; cbn [parentLevelForEach].
  - intros w Hw. exact I.
  - destruct (level <? 0); [|apply Hc].
    apply honours_after; [apply quiet_deref|]. intros n.
    destruct (html.Parent n); [apply IH|apply honours_ret].
Qed.

Lemma honours_siblingForEach fuel :
  forall p delta, honours isBreak (siblingForEach fuel p delta c).
Proof.
  induction fuel as [|fuel IH]; intros p delta; cbn [siblingForEach].
  - intros w Hw. exact I.
  - destruct (0 <? delta).
    + apply honours_after; [apply quiet_deref|]. intros n.
      destruct (html.NextSibling n); [apply IH|apply honours_ret].
    + destruct (delta <? 0); [|apply Hc].
      apply honours_after; [apply quiet_deref|]. intros n.
      destruct (html.PrevSibling n); [apply IH|apply honours_ret].
Qed.

Lemma honours_allSiblingsForEach fuel link node :
  honours isBreak (allSiblingsForEach fuel link node c).
Proof.
  unfold allSiblingsForEach.
  apply honours_after; [apply quiet_deref|]. intros n.
  apply honours_or_nil, honours_for_links. intros p.
  apply honours_loop_body, Hc.
Qed.

Lemma honours_textForEach fuel doReplace t :
  honours isBreak (textForEach fuel doReplace t c).
Proof.
  unfold textForEach.
  apply honours_after; [apply quiet_reading|]. intros s.
  apply honours_after; [apply quiet_new_node|]. intros node.
  apply honours_after; [|intros _; apply Hc].
  destruct doReplace; [|now apply quiet_ret].
  apply quiet_bind; [apply quiet_update|]. intros _. apply quiet_update.
Qed.

Lemma honours_rangeNodes nodes : honours (fun _ => True) (rangeNodes nodes c).
Proof.
  induction nodes as [|node rest IH]; cbn [rangeNodes]; [apply honours_ret|].
  apply (honours_bind isBreak); [apply Hc| |].
  - intros a ->. now apply quiet_ret.
  - intros a. destruct (is_break a); [apply honours_ret|exact IH].
Qed.

End Derivations.

Lemma honours_ForEach fuel (e : NodeEnum) :
  withoutAny e = true ->
  forall c : visitor (St * watched),
    (forall p, honours isBreak (c p)) ->
    honours (fun _ => True) (ForEach fuel e c).
Proof.
  induction e as [|node|nodes|data IH|data IH level|data IH level|data IH delta
                 |data IH|data IH|data IH nodeType|data IH nodeType|data IH pred
                 |data IH doReplace];
    intros Hfree c Hc; cbn [ForEach]; cbn [withoutAny] in Hfree;
    try discriminate;
    try (apply (IH Hfree); intros node).
  - intros w Hw. exact I.
  - apply (honours_bind isBreak); [apply Hc| |].
    + intros a _. now apply quiet_ret.
    + intros a. apply honours_ret.
  - now apply honours_rangeNodes.
  - now apply honours_childLevelForEach.
  - now apply honours_parentLevelForEach.
  - now apply honours_siblingForEach.
  - now apply honours_allSiblingsForEach.
  - now apply honours_allSiblingsForEach.
  - apply honours_after; [apply quiet_FirstChild|]. intros r.
    destruct (snd r); [apply honours_ret|apply Hc].
  - apply honours_after; [apply quiet_LastChild|]. intros r.
    destruct (snd r); [apply honours_ret|apply Hc].
  - apply honours_after; [apply quiet_reading|]. intros ok.
    destruct ok; [apply Hc|apply honours_ret].
  - now apply honours_textForEach.
Qed.

End Protocol.

(** Whatever the visitor, a drive of an enumerable built without deep
    search never calls it again once it has answered Break. *)
Lemma Break_is_final {St} (f : visitor St) (fuel : nat) (e : NodeEnum) (h : heap) (s : St) :
  withoutAny e = true ->
  match drive fuel e (watch f) (s, unwatched) h with
  | Done ((_, seen), _) => late seen = false
  | _ => True
  end.
Proof.
  intros Hfree. unfold drive.
  pose proof (honours_ForEach fuel e Hfree (watch f) (honours_watch f)
                (World h (s, unwatched)) eq_refl) as H.
  destruct (ForEach fuel e (watch f) _) as [[[] w]| |]; [|exact I|exact I].
  destruct (vis w) as [s' seen] eqn:E. cbn in H. tauto.
Qed.

(** Watching a visitor does not change the drive. *)
Lemma watch_faithful {St} (f : visitor St) (fuel : nat) (e : NodeEnum)
    (h h' : heap) (s s' : St) (seen0 : watched) :
  drive fuel e f s h = Done (s', h') <->
  exists seen, drive fuel e (watch f) (s, seen0) h = Done ((s', seen), h').
Proof.
  unfold drive. split.
  - intros Hrun.
    destruct (ForEach fuel e f _) as [[[] w]| |] eqn:E; try discriminate.
    injection Hrun as Hv Hm.
    assert (Hsim : forall p, sim (fun s1 s2 => s1 = fst s2) (fun _ => False)
                               (f p) (watch f p)).
    { intros p h0 s1 s2. destruct (f p (World h0 s1)) as [[a w1]| |] eqn:E1;
        [|exact I|exact I].
      split; [tauto|]. intros ->. right. unfold watch. cbn [mem vis].
      rewrite E1. eexists. split; reflexivity. }
    pose proof (sim_ForEach _ _ fuel e f (watch f) Hsim h s (s, seen0)) as H.
    rewrite E in H. destruct H as [_ H].
    destruct (H eq_refl) as [[]|([s2 seen] & Hrun2 & HR)].
    exists seen. rewrite Hrun2. cbn in *. now subst.
  - intros [seen Hrun].
    destruct (ForEach fuel e (watch f) _) as [[[] w]| |] eqn:E; try discriminate.
    injection Hrun as Hv Hm.
    assert (Hsim : forall p, sim (fun s1 s2 => fst s1 = s2) (fun _ => False)
                               (watch f p) (f p)).
    { intros p h0 s1 s2. unfold watch. cbn [mem vis].
      destruct (f p (World h0 (fst s1))) as [[a w1]| |] eqn:E1;
        [|exact I|exact I].
      split; [tauto|]. intros <-. right. cbn [mem vis]. exists (vis w1).
      split; [|reflexivity]. rewrite E1. now destruct w1. }
    pose proof (sim_ForEach _ _ fuel e (watch f) f Hsim h (s, seen0) s) as H.
    rewrite E in H. destruct H as [_ H].
    destruct (H eq_refl) as [[]|(s2 & Hrun2 & HR)].
    rewrite Hrun2. rewrite Hv in HR. cbn in HR. now subst.
Qed.

(** Logging the calls of a visitor does not change the drive. *)
Lemma logged_faithful {St} (f : visitor St) (fuel : nat) (e : NodeEnum)
    (h h' : heap) (s s' : St) (log0 : list html.ptr) :
  drive fuel e f s h = Done (s', h') <->
  exists log, drive fuel e (logged f) (s, log0) h = Done ((s', log), h').
Proof.
  unfold drive. split.
  - intros Hrun.
    destruct (ForEach fuel e f _) as [[[] w]| |] eqn:E; try discriminate.
    injection Hrun as Hv Hm.
    assert (Hsim : forall p, sim (fun s1 s2 => s1 = fst s2) (fun _ => False)
                               (f p) (logged f p)).
    { intros p h0 s1 s2. destruct (f p (World h0 s1)) as [[a w1]| |] eqn:E1;
        [|exact I|exact I].
      split; [tauto|]. intros ->. right. unfold logged. cbn [mem vis].
      rewrite E1. eexists. split; reflexivity. }
    pose proof (sim_ForEach _ _ fuel e f (logged f) Hsim h s (s, log0)) as H.
    rewrite E in H. destruct H as [_ H].
    destruct (H eq_refl) as [[]|([s2 log] & Hrun2 & HR)].
    exists log. rewrite Hrun2. cbn in *. now subst.
  - intros [log Hrun].
    destruct (ForEach fuel e (logged f) _) as [[[] w]| |] eqn:E; try discriminate.
    injection Hrun as Hv Hm.
    assert (Hsim : forall p, sim (fun s1 s2 => fst s1 = s2) (fun _ => False)
                               (logged f p) (f p)).
    { intros p h0 s1 s2. unfold logged. cbn [mem vis].
      destruct (f p (World h0 (fst s1))) as [[a w1]| |] eqn:E1;
        [|exact I|exact I].
      split; [tauto|]. intros <-. right. cbn [mem vis]. exists (vis w1).
      split; [|reflexivity]. rewrite E1. now destruct w1. }
    pose proof (sim_ForEach _ _ fuel e (logged f) f Hsim h (s, log0) s) as H.
    rewrite E in H. destruct H as [_ H].
    destruct (H eq_refl) as [[]|(s2 & Hrun2 & HR)].
    rewrite Hrun2. rewrite Hv in HR. cbn in HR. now subst.
Qed.

(** What every call of the visitor preserves, a drive preserves. *)
Lemma drive_invariant {St} (Inv : St -> Prop) (f : visitor St) :
  (forall p h s, Inv s -> match f p (World h s) with
                          | Done (_, w) => Inv (vis w)
                          | _ => True
                          end) ->
  forall fuel e h h' s s',
    drive fuel e f s h = Done (s', h') -> Inv s -> Inv s'.
Proof.
  intros Hstep fuel e h h' s s' Hrun Hs. unfold drive in Hrun.
  destruct (ForEach fuel e f _) as [[[] w]| |] eqn:E; try discriminate.
  injection Hrun as Hv Hm.
  assert (Hsim : forall p, sim (fun s1 s2 => s1 = s2 /\ Inv s1) (fun _ => False)
                             (f p) (f p)).
  { intros p h0 s1 s2. destruct (f p (World h0 s1)) as [[a w1]| |] eqn:E1;
      [|exact I|exact I].
    split; [tauto|]. intros [<- Hi]. right. exists (vis w1).
    specialize (Hstep p h0 s1 Hi). rewrite E1 in Hstep.
    split; [now destruct w1|auto]. }
  pose proof (sim_ForEach _ _ fuel e f f Hsim h s s) as H.
  rewrite E in H. destruct H as [_ H].
  destruct (H (conj eq_refl Hs)) as [[]|(s2 & _ & _ & Hi)].
  now rewrite <- Hv.
Qed.

(** The nodes the exactly-one collector was called on decide its result;
    without deep search in the enumerable there are at most two. *)
Lemma CollectOne_exactly_cardinality (fuel : nat) (e : NodeEnum) (rest : list bool)
    (h h' : heap) (item : html.ptr) (err : error) :
  NodeSet.CollectOne fuel {| Data := e; Err := None |} (Some (true :: rest)) h
    = Done ((item, err), h') ->
  exists log,
    drive fuel e (logged exactlyVisitor) ((None, Some ErrNotFound), []) h
      = Done (((item, err), log), h') /\
    match log with
    | [] => item = None /\ err = Some ErrNotFound
    | [a] => item = a /\ err = None
    | a :: _ :: _ => item = a /\ err = Some ErrTooManyNodes
    end /\
    (withoutAny e = true -> (length log <= 2)%nat).
Proof.
  unfold NodeSet.CollectOne. cbn [Err Data negb]. intros Hrun.
  apply (logged_faithful _ _ _ _ _ _ _ []) in Hrun as [log Hlog].
  exists log. split; [exact Hlog|]. split.
  - apply (drive_invariant
             (fun s => match snd s with
                       | [] => fst (fst s) = None /\ snd (fst s) = Some ErrNotFound
                       | [a] => fst (fst s) = a /\ snd (fst s) = None
                       | a :: _ :: _ =>
                         fst (fst s) = a /\ snd (fst s) = Some ErrTooManyNodes
                       end)) in Hlog; [exact Hlog| |cbn; auto].
    intros p h0 [[it er] lg] Hi. unfold logged, exactlyVisitor. cbn in *.
    destruct lg as [|a [|b lg]]; cbn; destruct Hi as [-> ->];
      case_bool_decide; unfold ErrNotFound in *; try congruence; cbn; auto.
  - intros Hfree.
    apply (watch_faithful _ _ _ _ _ _ _ unwatched) in Hlog as [seen Hseen].
    pose proof (Break_is_final (logged exactlyVisitor) fuel e h
                  ((None, Some ErrNotFound), []) Hfree) as Hfinal.
    rewrite Hseen in Hfinal.
    apply (drive_invariant
             (fun s => ((1 <= length (snd (fst s)))%nat ->
                        snd (fst (fst s)) <> Some ErrNotFound) /\
                       ((2 <= length (snd (fst s)))%nat -> broken (snd s) = true) /\
                       ((3 <= length (snd (fst s)))%nat -> late (snd s) = true)))
      in Hseen.
    + cbn in Hseen. destruct Hseen as (_ & _ & H3).
      destruct (le_lt_dec (length log) 2) as [|Hgt]; [assumption|].
      rewrite H3 in Hfinal by lia. discriminate.
    + intros p h0 [[[it er] lg] [br lt]] (H1 & H2 & H3).
      unfold watch, logged, exactlyVisitor. cbn in *.
      case_bool_decide as Her; cbn; rewrite length_app; cbn.
      * repeat split; [discriminate| |].
        -- intros Hl. destruct lg; [cbn in Hl; lia|].
           exfalso. apply H1; [cbn; lia|exact Her].
        -- intros Hl. rewrite H2 by lia. now destruct lt.
      * repeat split; [discriminate| |].
        -- intros _. now destruct br.
        -- intros Hl. rewrite H2 by lia. now destruct lt.
    + cbn. repeat split; intros; lia.
Qed.

(** C6 (code as written): whatever the visitor, a drive of an enumerable
    built without deep search never calls it again once it has answered
    Break.  [anyNodes.ForEach] however drops what [anyForEach] returns
    and answers nil to its upstream, so a Break ends the walk of one
    input node only: over the two paragraphs of the sample tree a visitor
    that answers Break to every node is called again on the second
    paragraph, and [CollectOne()] hands back the last input instead of
    the first, while the fixed list itself and its child-level derivation
    stop after the first call. *)
Theorem anyNodes_swallows_Break :
  (forall St (f : visitor St) fuel e h s,
     withoutAny e = true ->
     match drive fuel e (watch f) (s, unwatched) h with
     | Done ((_, seen), _) => late seen = false
     | _ => True
     end) /\
  (let inputs := fixNodes [Some pA; Some pB] in
   drive 8 (anyNodes inputs) (watch breakVisitor) (tt, unwatched) sample
     = Done ((tt, {| broken := true; late := true |}), sample) /\
   drive 8 (anyNodes inputs) (logged breakVisitor) (tt, []) sample
     = Done ((tt, [Some pA; Some pB]), sample) /\
   drive 8 inputs (logged breakVisitor) (tt, []) sample
     = Done ((tt, [Some pA]), sample) /\
   drive 8 (childLevelNodes inputs 1) (logged breakVisitor) (tt, []) sample
     = Done ((tt, [Some txtA]), sample) /\
   NodeSet.CollectOne 8 (NodeSet.Any (NodeSet.Nodes [Some pA; Some pB])) None sample
     = Done ((Some pB, None), sample) /\
   NodeSet.CollectOne 8 (NodeSet.Nodes [Some pA; Some pB]) None sample
     = Done ((Some pA, None), sample)).
Proof.
  split; [|repeat split].
  intros St f fuel e h s Hfree. now apply Break_is_final.
Qed.

(** C5 (code as written): in exactly-one mode the result is decided by
    the nodes the collector is called on (none: nil and [ErrNotFound];
    one: that node; two or more: the first node and [ErrTooManyNodes]),
    and without deep search in the enumerable there are at most two of
    them.  Over a deep-search set of three input nodes the collector is
    still called on the third node after it has answered Break on the
    second: three nodes are visited, not two. *)
Theorem CollectOne_exactly_visits_three :
  (forall fuel e rest h h' item err,
     NodeSet.CollectOne fuel {| Data := e; Err := None |} (Some (true :: rest)) h
       = Done ((item, err), h') ->
     exists log,
       drive fuel e (logged exactlyVisitor) ((None, Some ErrNotFound), []) h
         = Done (((item, err), log), h') /\
       match log with
       | [] => item = None /\ err = Some ErrNotFound
       | [a] => item = a /\ err = None
       | a :: _ :: _ => item = a /\ err = Some ErrTooManyNodes
       end /\
       (withoutAny e = true -> (length log <= 2)%nat)) /\
  (let inputs := fixNodes [Some pA; Some pB; Some div_] in
   drive 8 (anyNodes inputs) (logged exactlyVisitor) ((None, Some ErrNotFound), []) sample
     = Done (((Some pA, Some ErrTooManyNodes), [Some pA; Some pB; Some div_]), sample) /\
   NodeSet.CollectOne 8 {| Data := anyNodes inputs; Err := None |} (Some [true]) sample
     = Done ((Some pA, Some ErrTooManyNodes), sample) /\
   drive 8 inputs (logged exactlyVisitor) ((None, Some ErrNotFound), []) sample
     = Done (((Some pA, Some ErrTooManyNodes), [Some pA; Some pB]), sample)).
Proof.
  split; [|repeat split].
  intros fuel e rest h h' item err Hrun.
  now apply (CollectOne_exactly_cardinality fuel e rest).
Qed.

(** * Further properties *)

(** ** Lazy selections as lists *)

Section Visits.

Context {St : Type}.
Variable h : heap.
Variable f : visitor St.

Lemma visit_app (l1 l2 : list html.ptr) (w : world St) :
  visit (l1 ++ l2) f w =
    match visit l1 f w with
    | Done (true, w') => Done (true, w')
    | Done (false, w') => visit l2 f w'
    | Panics why => Panics why
    | OutOfFuel => OutOfFuel
    end.
Proof.
  revert w. induction l1 as [|p l1 IH]; intros w; [reflexivity|].
  cbn [visit app]. unfold bind.
  destruct (f p w) as [[e w1]| |]; [|reflexivity|reflexivity].
  destruct (is_break e); [reflexivity|apply IH].
Qed.

Lemma keepsAt_incl (l l' : list html.ptr) :
  keepsAt h f l -> (forall p, p ∈ l' -> p ∈ l) -> keepsAt h f l'.
Proof. intros Hk Hin p s Hp. apply Hk. auto. Qed.

Lemma visit_keeps (l : list html.ptr) :
  keepsAt h f l ->
  forall s, match visit l f (World h s) with
            | Done (_, w') => mem w' = h
            | _ => True
            end.
Proof.
  induction l as [|p l IH]; intros Hk s; [reflexivity|].
  cbn [visit]. unfold bind.
  pose proof (Hk p s ltac:(left)) as Hp.
  destruct (f p (World h s)) as [[e [h1 s1]]| |]; [|exact I|exact I].
  cbn in Hp. subst h1. destruct (is_break e); [reflexivity|].
  apply IH. eapply keepsAt_incl; [exact Hk|]. intros q Hq. now right.
Qed.

Lemma rangeNodes_visit (l : list html.ptr) (w : world St) :
  rangeNodes l f w = (_ <- visit l f ;; ret tt) w.
Proof.
  revert w. induction l as [|p l IH]; intros w; [reflexivity|].
  cbn [rangeNodes visit]. unfold bind.
  destruct (f p w) as [[e w1]| |]; [|reflexivity|reflexivity].
  destruct (is_break e); [reflexivity|]. rewrite IH. reflexivity.
Qed.

Lemma follows_call (p : html.ptr) (w : world St) :
  follows breaks (f p) (visit [p] f) w.
Proof.
  unfold follows. cbn [visit]. unfold bind.
  destruct (f p w) as [[e w1]| |]; [|reflexivity|reflexivity].
  destruct (is_break e) eqn:E; cbn; exists e; split; auto.
Qed.

Lemma follows_skip (e : error) (w : world St) :
  is_break e = false -> follows breaks (ret e) (visit [] f) w.
Proof. intros He. unfold follows. cbn. eauto. Qed.

Lemma follows_keeps {A} (rel : A -> bool -> Prop) (m : M St A) (l : list html.ptr) s :
  keepsAt h f l ->
  follows rel m (visit l f) (World h s) ->
  match m (World h s) with
  | Done (_, w') => mem w' = h
  | _ => True
  end.
Proof.
  intros Hk Hm. unfold follows in Hm. pose proof (visit_keeps l Hk s) as Hv.
  destruct (visit l f (World h s)) as [[b w']| |].
  - destruct Hm as (a & -> & _). exact Hv.
  - now rewrite Hm.
  - now rewrite Hm.
Qed.

Lemma follows_body (m : M St error) (v : M St bool) (w : world St) :
  follows breaks m v w ->
  follows returns
    (e <- m ;; if is_break e then ret (Some (Some ErrBreak)) else ret None) v w.
Proof.
  unfold follows, bind. destruct (v w) as [[b w']| |].
  - intros (e & -> & He). unfold breaks in He. rewrite He.
    destruct b; eexists; split; reflexivity.
  - now intros ->.
  - now intros ->.
Qed.

Lemma follows_or_nil (m : M St (option error)) (v : M St bool) (w : world St) :
  follows returns m v w ->
  follows breaks (r <- m ;; ret (or_nil r)) v w.
Proof.
  unfold follows, bind. destruct (v w) as [[b w']| |].
  - intros (r & -> & ->). eexists. split; [reflexivity|]. now destruct b.
  - now intros ->.
  - now intros ->.
Qed.

Lemma follows_deref {A} (rel : A -> bool -> Prop) (x : html.loc) (n : html.Node)
    (k : html.Node -> M St A) (v : M St bool) (s : St) :
  h !! x = Some n ->
  follows rel (k n) v (World h s) ->
  follows rel (bind (deref (Some x)) k) v (World h s).
Proof.
  intros Hx Hk. unfold follows in *.
  now erewrite bind_Done by (apply deref_Some; exact Hx).
Qed.

(** A sibling loop whose body follows a visit for each sibling follows
    the visit of all of them. *)
Lemma for_links_visit (d : nat) link (body : html.ptr -> M St (option error)) :
  forall start cs outs fuel,
    chain d h link start = Some cs ->
    (d <= fuel)%nat ->
    Forall2 (fun c o => forall s,
               follows returns (body (Some c)) (visit o f) (World h s)) cs outs ->
    keepsAt h f (concat outs) ->
    forall s,
      follows returns (for_links fuel link body start) (visit (concat outs) f) (World h s).
Proof.
  induction d as [|d IH]; intros start cs outs fuel Hchain Hfuel Hbody Hk s;
    [discriminate|].
  destruct fuel as [|fuel]; [lia|].
  cbn in Hchain. destruct start as [x|].
  - destruct (h !! x) as [n|] eqn:Hx; [|discriminate]. cbn in Hchain.
    destruct (chain d h link (link n)) as [l|] eqn:Hl; [|discriminate].
    cbn in Hchain. injection Hchain as <-.
    inversion Hbody as [|? o ? outs' Hc Hrest]; subst.
    cbn [concat] in *. unfold follows. rewrite visit_app.
    assert (Hko : keepsAt h f o)
      by (eapply keepsAt_incl; [exact Hk|]; intros q Hq; apply elem_of_app; now left).
    assert (Hkr : keepsAt h f (concat outs'))
      by (eapply keepsAt_incl; [exact Hk|]; intros q Hq; apply elem_of_app; now right).
    pose proof (Hc s) as Hcs. unfold follows in Hcs.
    pose proof (visit_keeps o Hko s) as Hmem.
    rewrite for_links_unfold.
    destruct (visit o f (World h s)) as [[b [h1 s1]]| |].
    + cbn in Hmem. subst h1. destruct Hcs as (r & Hr & ->).
      destruct b.
      * eexists. split; [|reflexivity].
        erewrite bind_Done by exact Hr. reflexivity.
      * specialize (IH _ _ _ fuel Hl ltac:(lia) Hrest Hkr s1).
        unfold follows in IH.
        erewrite bind_Done by exact Hr. cbv beta iota.
        erewrite bind_Done by (apply deref_Some; exact Hx).
        exact IH.
    + unfold bind. now rewrite Hcs.
    + unfold bind. now rewrite Hcs.
  - injection Hchain as <-. inversion Hbody; subst. cbn.
    unfold follows. cbn. eexists. split; reflexivity.
Qed.

(** Driving an upstream list with a derivation that follows a visit for
    each of its nodes is the visit of everything derived. *)
Lemma visit_lift (g : visitor St) :
  forall l outs,
    Forall2 (fun p o => forall s, follows breaks (g p) (visit o f) (World h s)) l outs ->
    keepsAt h f (concat outs) ->
    forall s, visit l g (World h s) = visit (concat outs) f (World h s).
Proof.
  induction 1 as [|p o l outs Hp _ IH]; intros Hk s; [reflexivity|].
  cbn [visit concat]. rewrite visit_app.
  assert (Hko : keepsAt h f o)
    by (eapply keepsAt_incl; [exact Hk|]; intros q Hq; apply elem_of_app; now left).
  assert (Hkr : keepsAt h f (concat outs))
    by (eapply keepsAt_incl; [exact Hk|]; intros q Hq; apply elem_of_app; now right).
  pose proof (Hp s) as Hps. unfold follows in Hps.
  pose proof (visit_keeps o Hko s) as Hmem.
  unfold bind.
  destruct (visit o f (World h s)) as [[b [h1 s1]]| |].
  - cbn in Hmem. subst h1. destruct Hps as (e & -> & He). unfold breaks in He.
    rewrite He. destruct b; [reflexivity|]. now apply IH.
  - now rewrite Hps.
  - now rewrite Hps.
Qed.

End Visits.

Lemma Forall2_impl_elem {A B} (P Q : A -> B -> Prop) (l : list A) (k : list B) :
  Forall2 P l k ->
  (forall a b, a ∈ l -> b ∈ k -> P a b -> Q a b) ->
  Forall2 Q l k.
Proof.
  induction 1 as [|a b l k Hab _ IH]; intros Himp; constructor.
  - apply Himp; [left|left|assumption].
  - apply IH. intros a' b' Ha Hb. apply Himp; now right.
Qed.

Lemma concat_singletons (l : list html.loc) :
  concat ((fun c => [Some c]) <$> l) = Some <$> l.
Proof. induction l as [|c l IH]; [reflexivity|]. cbn. now rewrite IH. Qed.

Lemma elem_of_concat_part {A} (o : list A) (outs : list (list A)) (a : A) :
  o ∈ outs -> a ∈ o -> a ∈ concat outs.
Proof. intros Ho Ha. apply elem_of_concat. eauto. Qed.

Section Derived.

Context {St : Type}.
Variable h : heap.
Variable f : visitor St.

Lemma childLevelForEach_visit (d : nat) :
  forall k x l fuel,
    levelNodes d h k x = Some l ->
    (d + k < fuel)%nat ->
    Z.of_nat k < 2 ^ 63 ->
    keepsAt h f (Some <$> l) ->
    forall s,
      follows breaks (childLevelForEach fuel (Some x) (Z.of_nat k) f)
        (visit (Some <$> l) f) (World h s).
Proof.
  induction k as [|k IH]; intros x l fuel Hl Hfuel Hk Hkeep s;
    (destruct fuel as [|fuel]; [lia|]); cbn [childLevelForEach].
  - cbn in Hl. injection Hl as <-. apply follows_call.
  - replace (Z.of_nat (S k) =? 0) with false by (symmetry; apply Z.eqb_neq; lia).
    replace (wrap (Z.of_nat (S k) - 1)) with (Z.of_nat k)
      by (rewrite wrap_small; lia).
    cbn in Hl. destruct (childrenOf d h x) as [cs|] eqn:Hcs; [|discriminate].
    cbn in Hl. destruct (mapM (levelNodes d h k) cs) as [ls|] eqn:Hls; [|discriminate].
    cbn in Hl. injection Hl as <-.
    unfold childrenOf in Hcs. destruct (h !! x) as [n|] eqn:Hx; [|discriminate].
    cbn in Hcs. apply mapM_Some in Hls.
    rewrite <- fmap_Some_concat in *.
    eapply follows_deref; [exact Hx|]. apply follows_or_nil.
    eapply for_links_visit; [exact Hcs | lia | | exact Hkeep].
    apply Forall2_fmap_r.
    eapply Forall2_impl_elem; [exact Hls|].
    intros c lc _ Hlc Hc s'. cbv beta. apply follows_body.
    apply IH; [exact Hc | lia | lia |].
    eapply keepsAt_incl; [exact Hkeep|]. intros q Hq.
    eapply elem_of_concat_part; [|exact Hq].
    apply list_elem_of_fmap. eauto.
Qed.

Lemma parentLevelForEach_hop (w : world St) :
  forall k x r fuel,
    hop (mem w) html.Parent k x = Some r ->
    (k < fuel)%nat ->
    Z.of_nat k <= 2 ^ 63 ->
    parentLevelForEach fuel (Some x) (- Z.of_nat k) f w =
      match r with
      | Some y => f (Some y) w
      | None => Done (Some ErrNotFound, w)
      end.
Proof.
  induction k as [|k IH]; intros x r fuel Hhop Hfuel Hk;
    (destruct fuel as [|fuel]; [lia|]); cbn [parentLevelForEach].
  - cbn in Hhop. injection Hhop as <-. reflexivity.
  - replace (- Z.of_nat (S k) <? 0) with true by (symmetry; apply Z.ltb_lt; lia).
    cbn in Hhop. destruct (mem w !! x) as [n|] eqn:Hx; [|discriminate].
    cbn in Hhop.
    erewrite bind_Done by (apply deref_Some; exact Hx).
    destruct (html.Parent n) as [p|].
    + replace (wrap (- Z.of_nat (S k) + 1)) with (- Z.of_nat k)
        by (rewrite wrap_small; lia).
      apply IH; [assumption | lia | lia].
    + injection Hhop as <-. reflexivity.
Qed.

Lemma siblingForEach_next (w : world St) :
  forall k x r fuel,
    hop (mem w) html.NextSibling k x = Some r ->
    (k < fuel)%nat ->
    Z.of_nat k < 2 ^ 63 ->
    siblingForEach fuel (Some x) (Z.of_nat k) f w =
      match r with
      | Some y => f (Some y) w
      | None => Done (Some ErrNotFound, w)
      end.
Proof.
  induction k as [|k IH]; intros x r fuel Hhop Hfuel Hk;
    (destruct fuel as [|fuel]; [lia|]); cbn [siblingForEach].
  - cbn in Hhop. injection Hhop as <-. reflexivity.
  - replace (0 <? Z.of_nat (S k)) with true by (symmetry; apply Z.ltb_lt; lia).
    cbn in Hhop. destruct (mem w !! x) as [n|] eqn:Hx; [|discriminate].
    cbn in Hhop.
    erewrite bind_Done by (apply deref_Some; exact Hx).
    destruct (html.NextSibling n) as [p|].
    + replace (wrap (Z.of_nat (S k) - 1)) with (Z.of_nat k)
        by (rewrite wrap_small; lia).
      apply IH; [assumption | lia | lia].
    + injection Hhop as <-. reflexivity.
Qed.

Lemma siblingForEach_prev (w : world St) :
  forall k x r fuel,
    hop (mem w) html.PrevSibling k x = Some r ->
    (k < fuel)%nat ->
    Z.of_nat k <= 2 ^ 63 ->
    siblingForEach fuel (Some x) (- Z.of_nat k) f w =
      match r with
      | Some y => f (Some y) w
      | None => Done (Some ErrNotFound, w)
      end.
Proof.
  induction k as [|k IH]; intros x r fuel Hhop Hfuel Hk;
    (destruct fuel as [|fuel]; [lia|]); cbn [siblingForEach].
  - cbn in Hhop. injection Hhop as <-. reflexivity.
  - replace (0 <? - Z.of_nat (S k)) with false by (symmetry; apply Z.ltb_ge; lia).
    replace (- Z.of_nat (S k) <? 0) with true by (symmetry; apply Z.ltb_lt; lia).
    cbn in Hhop. destruct (mem w !! x) as [n|] eqn:Hx; [|discriminate].
    cbn in Hhop.
    erewrite bind_Done by (apply deref_Some; exact Hx).
    destruct (html.PrevSibling n) as [p|].
    + replace (wrap (- Z.of_nat (S k) + 1)) with (- Z.of_nat k)
        by (rewrite wrap_small; lia).
      apply IH; [assumption | lia | lia].
    + injection Hhop as <-. reflexivity.
Qed.

(** A derivation that calls the visitor on the node a step reaches, or
    answers not-found, follows the visit of what the step emits. *)
Lemma follows_hop (m : M St error) (r : html.ptr) (s : St) :
  m (World h s) =
    match r with
    | Some y => f (Some y) (World h s)
    | None => Done (Some ErrNotFound, World h s)
    end ->
  follows breaks m (visit (match r with Some y => [Some y] | None => [] end) f)
    (World h s).
Proof.
  intros Hm. destruct r as [y|].
  - pose proof (follows_call f (Some y) (World h s)) as H.
    unfold follows in *. now rewrite Hm.
  - unfold follows. cbn [visit]. unfold ret at 1.
    exists (Some ErrNotFound). split; [exact Hm|reflexivity].
Qed.

Lemma allSiblingsForEach_visit (d : nat) link (p : html.ptr) (o : list html.ptr)
    (fuel : nat) :
  allSiblingsRef d h link p = Some o ->
  (d <= fuel)%nat ->
  keepsAt h f o ->
  forall s, follows breaks (allSiblingsForEach fuel link p f) (visit o f) (World h s).
Proof.
  unfold allSiblingsRef. intros Ho Hfuel Hk s.
  destruct p as [x|]; [|discriminate]. cbn in Ho.
  destruct (h !! x) as [n|] eqn:Hx; [|discriminate]. cbn in Ho.
  destruct (chain d h link (link n)) as [l|] eqn:Hl; [|discriminate].
  cbn in Ho. injection Ho as <-.
  unfold allSiblingsForEach. rewrite <- concat_singletons in *.
  eapply follows_deref; [exact Hx|]. apply follows_or_nil.
  eapply for_links_visit; [exact Hl | exact Hfuel | | exact Hk].
  apply Forall2_fmap_r. clear. induction l as [|c l IH]; constructor; [|exact IH].
  intros s. apply follows_body, follows_call.
Qed.

(** The search of [FirstChild] and [LastChild] along a sibling list. *)
Lemma for_links_find (d : nat) link (t : html.NodeType) :
  forall start cs fuel (s : St),
    chain d h link start = Some cs ->
    (d <= fuel)%nat ->
    for_links fuel link
      (fun p => c <- deref p ;;
                if bool_decide (html.Type_ c = t) then ret (Some p) else ret None)
      start (World h s)
    = Done (Some <$> find (typeAt h t) cs, World h s).
Proof.
  induction d as [|d IH]; intros start cs fuel s Hchain Hfuel; [discriminate|].
  destruct fuel as [|fuel]; [lia|].
  rewrite for_links_unfold. cbn in Hchain. destruct start as [x|].
  - destruct (h !! x) as [n|] eqn:Hx; [|discriminate]. cbn in Hchain.
    destruct (chain d h link (link n)) as [l|] eqn:Hl; [|discriminate].
    cbn in Hchain. injection Hchain as <-.
    cbn [find]. unfold typeAt at 1. rewrite Hx.
    destruct (bool_decide (html.Type_ n = t)) eqn:Et.
    + erewrite bind_Done; cycle 1.
      { erewrite bind_Done by (apply deref_Some; exact Hx).
        rewrite Et. reflexivity. }
      reflexivity.
    + erewrite bind_Done; cycle 1.
      { erewrite bind_Done by (apply deref_Some; exact Hx).
        rewrite Et. reflexivity. }
      cbv beta iota.
      erewrite bind_Done by (apply deref_Some; exact Hx).
      apply IH; [assumption|lia].
  - injection Hchain as <-. reflexivity.
Qed.

Lemma typedChild_visit (d : nat) (first link : html.Node -> html.ptr)
    (t : html.NodeType) (p : html.ptr) (o : list html.ptr) (fuel : nat)
    (search : html.ptr -> M St (html.ptr * error)) :
  (forall x n s, h !! x = Some n ->
     search (Some x) (World h s) =
       (r <- for_links fuel link
               (fun p => c <- deref p ;;
                         if bool_decide (html.Type_ c = t) then ret (Some p) else ret None)
               (first n) ;;
        match r with
        | Some p => ret (p, None)
        | None => ret (None, Some ErrNotFound)
        end) (World h s)) ->
  typedChildRef d h first link t p = Some o ->
  (d <= fuel)%nat ->
  forall s,
    follows breaks
      (r <- search p ;;
       match snd r with
       | Some err => ret (Some err)
       | None => f (fst r)
       end)
      (visit o f) (World h s).
Proof.
  unfold typedChildRef. intros Hsearch Ho Hfuel s.
  destruct p as [x|]; [|discriminate]. cbn in Ho.
  destruct (h !! x) as [n|] eqn:Hx; [|discriminate]. cbn in Ho.
  destruct (chain d h link (first n)) as [cs|] eqn:Hcs; [|discriminate].
  cbn in Ho. injection Ho as <-.
  assert (Hs : search (Some x) (World h s) =
               Done (match find (typeAt h t) cs with
                     | Some c => (Some c, None)
                     | None => (None, Some ErrNotFound)
                     end, World h s)).
  { rewrite (Hsearch x n s Hx).
    erewrite bind_Done by (apply (for_links_find d); eassumption).
    destruct (find (typeAt h t) cs); reflexivity. }
  destruct (find (typeAt h t) cs) as [c|].
  - pose proof (follows_call f (Some c) (World h s)) as H.
    unfold follows in *. erewrite bind_Done by exact Hs. exact H.
  - unfold follows. cbn [visit]. unfold ret at 1.
    eexists. split; [erewrite bind_Done by exact Hs; reflexivity|reflexivity].
Qed.

Lemma matched_visit (pred : html.ptr -> heap -> outcome bool) (p : html.ptr)
    (o : list html.ptr) :
  matchRef h pred p = Some o ->
  forall s,
    follows breaks
      (ok <- reading (pred p) ;; if ok : bool then f p else ret (Some ErrNotFound))
      (visit o f) (World h s).
Proof.
  unfold matchRef. intros Ho s.
  destruct (pred p h) as [[|]| |] eqn:Hp; try discriminate; injection Ho as <-.
  - pose proof (follows_call f p (World h s)) as H.
    unfold follows, bind, reading in *. cbn [mem]. now rewrite Hp.
  - unfold follows, bind, reading. cbn [visit mem]. unfold ret at 1. rewrite Hp.
    exists (Some ErrNotFound). split; reflexivity.
Qed.

End Derived.

Lemma ForEach_step {St} (h : heap) (fuel : nat) (data : NodeEnum)
    (f g : visitor St) (lu : list html.ptr) (outs : list (list html.ptr)) :
  (forall f' : visitor St,
     keepsAt h f' lu ->
     forall s, ForEach fuel data f' (World h s) = (_ <- visit lu f' ;; ret tt) (World h s)) ->
  Forall2 (fun p o => forall s, follows breaks (g p) (visit o f) (World h s)) lu outs ->
  keepsAt h f (concat outs) ->
  forall s,
    ForEach fuel data g (World h s) = (_ <- visit (concat outs) f ;; ret tt) (World h s).
Proof.
  intros IH HF Hk s. rewrite IH.
  - unfold bind. now rewrite (visit_lift h f g lu outs HF Hk).
  - intros p s' Hp. apply list_elem_of_lookup in Hp as [i Hi].
    destruct (Forall2_lookup_l _ _ _ _ _ HF Hi) as (o & Ho & Hfo).
    eapply (follows_keeps h f); [|apply Hfo].
    eapply keepsAt_incl; [exact Hk|]. intros q Hq.
    eapply elem_of_concat_part; [|exact Hq]. apply list_elem_of_lookup. eauto.
Qed.

Lemma inInt_range (z : Z) : inInt z = true -> - 2 ^ 63 <= z < 2 ^ 63.
Proof. unfold inInt. intros H. apply andb_prop in H as [H1 H2]. lia. Qed.

(** Driving an enumerable built without deep search and text synthesis
    is calling the visitor on its selection, in order, up to the first
    Break, for every visitor that leaves the tree alone. *)
Lemma ForEach_selection {St} (d : nat) (h : heap) :
  forall (e : NodeEnum) (l : list html.ptr) (fuel : nat),
    selection d h e = Some l ->
    (d + reach e < fuel)%nat ->
    forall f : visitor St,
      keepsAt h f l ->
      forall s, ForEach fuel e f (World h s) = (_ <- visit l f ;; ret tt) (World h s).
Proof.
  induction e as [|node|nodes|data IH|data IH level|data IH level|data IH delta
                 |data IH|data IH|data IH t|data IH t|data IH pred
                 |data IH doReplace];
    intros l fuel Hsel Hfuel f Hk s; cbn [selection] in Hsel; try discriminate;
    cbn [reach] in Hfuel; cbn [ForEach].
  - injection Hsel as <-. cbn [visit]. unfold bind.
    destruct (f node (World h s)) as [[e w]| |]; [|reflexivity|reflexivity].
    now destruct (is_break e).
  - injection Hsel as <-. apply rangeNodes_visit.
  - destruct ((0 <? level) && inInt level) eqn:Hlevel; [|discriminate].
    apply andb_prop in Hlevel as [Hpos Hint]. apply inInt_range in Hint.
    destruct (selection d h data) as [lu|] eqn:Hlu; [|discriminate]. cbn in Hsel.
    destruct (mapM _ lu) as [outs|] eqn:Houts; [|discriminate].
    cbn in Hsel. injection Hsel as <-. apply mapM_Some in Houts.
    apply (ForEach_step h fuel data f _ lu outs); [|  |exact Hk].
    + intros f' Hk'. apply (IH lu); [reflexivity | lia | exact Hk'].
    + eapply Forall2_impl_elem; [exact Houts|].
      intros p o _ Ho Hp s'. unfold childLevelRef in Hp.
      destruct p as [x|]; [|discriminate]. cbn in Hp.
      destruct (levelNodes d h (Z.to_nat level) x) as [lx|] eqn:Hlx; [|discriminate].
      cbn in Hp. injection Hp as <-.
      rewrite <- (Z2Nat.id level) at 1 by lia.
      apply (childLevelForEach_visit h f d); [exact Hlx | lia | lia |].
      eapply keepsAt_incl; [exact Hk|]. intros q Hq.
      eapply elem_of_concat_part; eassumption.
  - destruct ((level <? 0) && inInt level) eqn:Hlevel; [|discriminate].
    apply andb_prop in Hlevel as [Hneg Hint]. apply inInt_range in Hint.
    destruct (selection d h data) as [lu|] eqn:Hlu; [|discriminate]. cbn in Hsel.
    destruct (mapM _ lu) as [outs|] eqn:Houts; [|discriminate].
    cbn in Hsel. injection Hsel as <-. apply mapM_Some in Houts.
    apply (ForEach_step h fuel data f _ lu outs); [|  |exact Hk].
    + intros f' Hk'. apply (IH lu); [reflexivity | lia | exact Hk'].
    + eapply Forall2_impl; [exact Houts|].
      intros p o Hp s'. unfold hopRef in Hp.
      destruct p as [x|]; [|discriminate]. cbn in Hp.
      destruct (hop h html.Parent (Z.to_nat (- level)) x) as [r|] eqn:Hr; [|discriminate].
      cbn in Hp. injection Hp as <-.
      apply follows_hop.
      replace level with (- Z.of_nat (Z.to_nat (- level))) at 1 by lia.
      apply parentLevelForEach_hop; [exact Hr | lia | lia].
  - destruct (inInt delta) eqn:Hint; [|discriminate]. apply inInt_range in Hint.
    destruct (selection d h data) as [lu|] eqn:Hlu; [|discriminate]. cbn in Hsel.
    destruct (mapM _ lu) as [outs|] eqn:Houts; [|discriminate].
    cbn in Hsel. injection Hsel as <-. apply mapM_Some in Houts.
    apply (ForEach_step h fuel data f _ lu outs); [|  |exact Hk].
    + intros f' Hk'. apply (IH lu); [reflexivity | lia | exact Hk'].
    + eapply Forall2_impl; [exact Houts|].
      intros p o Hp s'. unfold siblingRef in Hp.
      destruct (0 <? delta) eqn:Hpos; [|destruct (delta <? 0) eqn:Hneg].
      * unfold hopRef in Hp. destruct p as [x|]; [|discriminate]. cbn in Hp.
        destruct (hop h html.NextSibling (Z.to_nat delta) x) as [r|] eqn:Hr;
          [|discriminate].
        cbn in Hp. injection Hp as <-. apply follows_hop.
        replace delta with (Z.of_nat (Z.to_nat delta)) at 1 by lia.
        apply siblingForEach_next; [exact Hr | lia | lia].
      * unfold hopRef in Hp. destruct p as [x|]; [|discriminate]. cbn in Hp.
        destruct (hop h html.PrevSibling (Z.to_nat (- delta)) x) as [r|] eqn:Hr;
          [|discriminate].
        cbn in Hp. injection Hp as <-. apply follows_hop.
        replace delta with (- Z.of_nat (Z.to_nat (- delta))) at 1 by lia.
        apply siblingForEach_prev; [exact Hr | lia | lia].
      * injection Hp as <-. assert (delta = 0) as -> by lia.
        destruct fuel as [|fuel]; [lia|]. cbn [siblingForEach]. cbn.
        apply follows_call.
  - destruct (selection d h data) as [lu|] eqn:Hlu; [|discriminate]. cbn in Hsel.
    destruct (mapM _ lu) as [outs|] eqn:Houts; [|discriminate].
    cbn in Hsel. injection Hsel as <-. apply mapM_Some in Houts.
    apply (ForEach_step h fuel data f _ lu outs); [|  |exact Hk].
    + intros f' Hk'. apply (IH lu); [reflexivity | lia | exact Hk'].
    + eapply Forall2_impl_elem; [exact Houts|].
      intros p o _ Ho Hp s'.
      apply (allSiblingsForEach_visit h f d); [exact Hp | lia |].
      eapply keepsAt_incl; [exact Hk|]. intros q Hq.
      eapply elem_of_concat_part; eassumption.
  - destruct (selection d h data) as [lu|] eqn:Hlu; [|discriminate]. cbn in Hsel.
    destruct (mapM _ lu) as [outs|] eqn:Houts; [|discriminate].
    cbn in Hsel. injection Hsel as <-. apply mapM_Some in Houts.
    apply (ForEach_step h fuel data f _ lu outs); [|  |exact Hk].
    + intros f' Hk'. apply (IH lu); [reflexivity | lia | exact Hk'].
    + eapply Forall2_impl_elem; [exact Houts|].
      intros p o _ Ho Hp s'.
      apply (allSiblingsForEach_visit h f d); [exact Hp | lia |].
      eapply keepsAt_incl; [exact Hk|]. intros q Hq.
      eapply elem_of_concat_part; eassumption.
  - destruct (selection d h data) as [lu|] eqn:Hlu; [|discriminate]. cbn in Hsel.
    destruct (mapM _ lu) as [outs|] eqn:Houts; [|discriminate].
    cbn in Hsel. injection Hsel as <-. apply mapM_Some in Houts.
    apply (ForEach_step h fuel data f _ lu outs); [|  |exact Hk].
    + intros f' Hk'. apply (IH lu); [reflexivity | lia | exact Hk'].
    + eapply Forall2_impl; [exact Houts|].
      intros p o Hp s'.
      apply (typedChild_visit h f d html.FirstChild html.NextSibling t p o fuel
               (fun p => FirstChild fuel p t)); [|exact Hp|lia].
      intros x n s0 Hx. unfold FirstChild.
      now erewrite bind_Done by (apply deref_Some; exact Hx).
  - destruct (selection d h data) as [lu|] eqn:Hlu; [|discriminate]. cbn in Hsel.
    destruct (mapM _ lu) as [outs|] eqn:Houts; [|discriminate].
    cbn in Hsel. injection Hsel as <-. apply mapM_Some in Houts.
    apply (ForEach_step h fuel data f _ lu outs); [|  |exact Hk].
    + intros f' Hk'. apply (IH lu); [reflexivity | lia | exact Hk'].
    + eapply Forall2_impl; [exact Houts|].
      intros p o Hp s'.
      apply (typedChild_visit h f d html.LastChild html.PrevSibling t p o fuel
               (fun p => LastChild fuel p t)); [|exact Hp|lia].
      intros x n s0 Hx. unfold LastChild.
      now erewrite bind_Done by (apply deref_Some; exact Hx).
  - destruct (selection d h data) as [lu|] eqn:Hlu; [|discriminate]. cbn in Hsel.
    destruct (mapM _ lu) as [outs|] eqn:Houts; [|discriminate].
    cbn in Hsel. injection Hsel as <-. apply mapM_Some in Houts.
    apply (ForEach_step h fuel data f _ lu outs); [|  |exact Hk].
    + intros f' Hk'. apply (IH lu); [reflexivity | lia | exact Hk'].
    + eapply Forall2_impl; [exact Houts|].
      intros p o Hp s'. now apply matched_visit.
Qed.

Lemma visit_collect (h : heap) (l s : list html.ptr) :
  visit l collectVisitor (World h s) = Done (false, World h (s ++ l)).
Proof.
  revert s. induction l as [|p l IH]; intros s; cbn [visit].
  - cbn. now rewrite app_nil_r.
  - unfold bind. cbn. rewrite IH. now rewrite <- app_assoc.
Qed.

Lemma selection_emits (d : nat) (h : heap) (e : NodeEnum) (l : list html.ptr)
    (fuel : nat) :
  selection d h e = Some l -> (d + reach e < fuel)%nat -> emits fuel h e l.
Proof. intros Hsel Hfuel St f Hk s. now apply (ForEach_selection d). Qed.

Lemma emits_Collect (h : heap) (e : NodeEnum) (l : list html.ptr) (fuel : nat) :
  emits fuel h e l ->
  NodeSet.Collect fuel {| Data := e; Err := None |} h = Done ((l, None), h).
Proof.
  intros He. unfold NodeSet.Collect, drive. cbn [Err Data].
  rewrite (He _ collectVisitor).
  - unfold bind. rewrite visit_collect. reflexivity.
  - intros p s _. reflexivity.
Qed.

Lemma emits_CollectOne (h : heap) (e : NodeEnum) (l : list html.ptr) (fuel : nat) :
  emits fuel h e l ->
  let p := {| Data := e; Err := None |} in
  NodeSet.CollectOne fuel p None h =
    Done (match l with
          | [] => (None, Some ErrNotFound)
          | first :: _ => (first, None)
          end, h) /\
  (forall rest,
     NodeSet.CollectOne fuel p (Some (true :: rest)) h =
       Done (match l with
             | [] => (None, Some ErrNotFound)
             | [only] => (only, None)
             | first :: _ :: _ => (first, Some ErrTooManyNodes)
             end, h)).
Proof.
  intros He p. subst p. unfold NodeSet.CollectOne, drive. cbn [Err Data negb].
  split; [|intros _].
  - rewrite (He _ firstVisitor) by (intros q s _; reflexivity).
    destruct l as [|first l]; reflexivity.
  - rewrite (He _ exactlyVisitor)
      by (intros q s _; unfold exactlyVisitor; now case_bool_decide).
    destruct l as [|first [|second l]]; reflexivity.
Qed.

Lemma emits_fixNodes (h : heap) (l : list html.ptr) (fuel : nat) :
  emits fuel h (fixNodes l) l.
Proof. intros St f _ s. cbn [ForEach]. apply rangeNodes_visit. Qed.

Lemma emits_Cache (h : heap) (e : NodeEnum) (l : list html.ptr) (fuel : nat) :
  emits fuel h e l ->
  Cached e <> Some (-1) ->
  exists q,
    NodeSet.Cache fuel {| Data := e; Err := None |} h = Done (q, h) /\
    Err q = None /\
    NodeSet.CachedLen q = Z.of_nat (length l) /\
    (Data q = e \/ Data q = fixNodes l) /\
    emits fuel h (Data q) l.
Proof.
  intros He Hany. pose proof (emits_Collect h e l fuel He) as HC.
  destruct (Cached e) as [n|] eqn:Hc.
  - exists {| Data := e; Err := None |}.
    unfold NodeSet.Cache, NodeSet.CachedLen. cbn [Data Err]. rewrite Hc.
    repeat split; try assumption; [|now left].
    destruct e; try discriminate; try congruence.
    + cbn in Hc. injection Hc as <-.
      specialize (He _ collectVisitor ltac:(intros p s _; reflexivity) []).
      cbn [ForEach] in He. unfold bind in He. rewrite visit_collect in He.
      cbn in He. destruct l as [|a [|b l]]; try discriminate. reflexivity.
    + cbn in Hc. injection Hc as <-.
      specialize (He _ collectVisitor ltac:(intros p s _; reflexivity) []).
      cbn [ForEach] in He. rewrite rangeNodes_visit in He.
      unfold bind in He. rewrite !visit_collect in He. cbn in He.
      injection He as <-. reflexivity.
    + cbn in Hc. congruence.
  - exists (NodeSet.Nodes l).
    unfold NodeSet.Cache. cbn [Data Err]. rewrite Hc, HC.
    repeat split; [now right | apply emits_fixNodes].
Qed.



(** X2: on such an enumerable [CollectOne()] returns the first node of
    the selection, and [CollectOne(true)] returns the only node of a
    selection of one, [ErrTooManyNodes] with the first node for a longer
    one; both answer [ErrNotFound] on an empty selection and leave the
    tree as it was. *)
Theorem CollectOne_selection (d : nat) (h : heap) (e : NodeEnum) (l : list html.ptr)
    (fuel : nat) :
  selection d h e = Some l ->
  (d + reach e < fuel)%nat ->
  let p := {| Data := e; Err := None |} in
  NodeSet.CollectOne fuel p None h =
    Done (match l with
          | [] => (None, Some ErrNotFound)
          | first :: _ => (first, None)
          end, h) /\
  (forall rest,
     NodeSet.CollectOne fuel p (Some (true :: rest)) h =
       Done (match l with
             | [] => (None, Some ErrNotFound)
             | [only] => (only, None)
             | first :: _ :: _ => (first, Some ErrTooManyNodes)
             end, h)).
Proof. intros Hsel Hfuel. now apply emits_CollectOne, (selection_emits d). Qed.

(** X2, on the sample tree: the children of the [div]. *)
Lemma CollectOne_selection_witness :
  let p := {| Data := childLevelNodes (fixNodes [Some div_]) 1; Err := None |} in
  NodeSet.CollectOne 8 p None sample = Done ((Some pA, None), sample) /\
  (forall rest,
     NodeSet.CollectOne 8 p (Some (true :: rest)) sample
       = Done ((Some pA, Some ErrTooManyNodes), sample)).
Proof.
  exact (CollectOne_selection 4 sample (childLevelNodes (fixNodes [Some div_]) 1)
           [Some pA; Some pB] 8 eq_refl ltac:(repeat constructor)).
Defined.

(** ** Materializing a selection *)

(** X3: [Cache] on such an enumerable succeeds without touching the tree
    and hands back a node set of known length on which [Collect] and
    every form of [CollectOne] return what they return on the original,
    and whose selection, hence that of every combinator chained on it, is
    the original one. *)
Theorem Cache_selection (d : nat) (h : heap) (e : NodeEnum) (l : list html.ptr)
    (fuel : nat) :
  selection d h e = Some l ->
  (d + reach e < fuel)%nat ->
  let p := {| Data := e; Err := None |} in
  exists q,
    NodeSet.Cache fuel p h = Done (q, h) /\
    Err q = None /\
    NodeSet.CachedLen q = Z.of_nat (length l) /\
    selection d h (Data q) = Some l /\
    NodeSet.Collect fuel q h = NodeSet.Collect fuel p h /\
    (forall exactly,
       NodeSet.CollectOne fuel q exactly h = NodeSet.CollectOne fuel p exactly h).
Proof.
  intros Hsel Hfuel p. subst p.
  pose proof (selection_emits d h e l fuel Hsel Hfuel) as He.
  destruct (emits_Cache h e l fuel He) as (q & HQ & Herr & Hlen & Hd & Hq).
  { destruct e; try discriminate; cbn [Cached]; intros [= Hlen]; lia. }
  exists q. destruct q as [qd qe]. cbn [Err Data] in *. subst qe.
  repeat split; try assumption.
  - destruct Hd as [-> | ->]; [assumption | reflexivity].
  - now rewrite (emits_Collect h qd l fuel Hq), (emits_Collect h e l fuel He).
  - intros exactly.
    destruct (emits_CollectOne h e l fuel He) as [H0 H1].
    destruct (emits_CollectOne h qd l fuel Hq) as [H0' H1'].
    cbn zeta in H0, H1, H0', H1'.
    destruct exactly as [[|[|] rest]|]; try reflexivity.
    + now rewrite H1, H1'.
    + now rewrite H0, H0'.
Qed.

(** X3, on the sample tree: the children of the [div]. *)
Lemma Cache_selection_witness :
  let p := {| Data := childLevelNodes (fixNodes [Some div_]) 1; Err := None |} in
  exists q,
    NodeSet.Cache 8 p sample = Done (q, sample) /\
    Err q = None /\
    NodeSet.CachedLen q = 2 /\
    selection 4 sample (Data q) = Some [Some pA; Some pB] /\
    NodeSet.Collect 8 q sample = NodeSet.Collect 8 p sample /\
    (forall exactly,
       NodeSet.CollectOne 8 q exactly sample = NodeSet.CollectOne 8 p exactly sample).
Proof.
  exact (Cache_selection 4 sample (childLevelNodes (fixNodes [Some div_]) 1)
           [Some pA; Some pB] 8 eq_refl ltac:(repeat constructor)).
Defined.

(** X4: [One] on such an enumerable keeps exactly the first node of the
    selection as a single-node set, and on an empty selection yields a
    failed node set carrying [ErrNotFound]; the tree is left as it was. *)
Theorem One_selection (d : nat) (h : heap) (e : NodeEnum) (l : list html.ptr)
    (fuel : nat) :
  selection d h e = Some l ->
  (d + reach e < fuel)%nat ->
  NodeSet.One fuel {| Data := e; Err := None |} h =
    Done (match l with
          | [] => {| Data := nilEnum; Err := Some ErrNotFound |}
          | first :: _ => {| Data := oneNode first; Err := None |}
          end, h).
Proof.
  intros Hsel Hfuel.
  destruct (emits_CollectOne h e l fuel (selection_emits d h e l fuel Hsel Hfuel))
    as [H0 _].
  unfold NodeSet.One. cbn [Data].
  destruct e; try (rewrite H0; destruct l; reflexivity).
  cbn in Hsel. injection Hsel as <-. reflexivity.
Qed.

(** X4, on the sample tree: the children of the [div]. *)
Lemma One_selection_witness :
  NodeSet.One 8 {| Data := childLevelNodes (fixNodes [Some div_]) 1; Err := None |} sample
  = Done ({| Data := oneNode (Some pA); Err := None |}, sample).
Proof.
  exact (One_selection 4 sample (childLevelNodes (fixNodes [Some div_]) 1)
           [Some pA; Some pB] 8 eq_refl ltac:(repeat constructor)).
Defined.

(** X5: materializing is idempotent.  Whatever node set [Cache] or [One]
    hands back, failed or not, the same operation applied to it again,
    with any fuel, hands back that very node set and does not touch the
    tree. *)
Theorem materialize_twice (fuel fuel' : nat) (p q : NodeSet) (h h' : heap) :
  (NodeSet.Cache fuel p h = Done (q, h') -> NodeSet.Cache fuel' q h' = Done (q, h')) /\
  (NodeSet.One fuel p h = Done (q, h') -> NodeSet.One fuel' q h' = Done (q, h')).
Proof.
  split.
  - unfold NodeSet.Cache at 1. destruct (Cached (Data p)) eqn:Hc.
    + intros [= <- <-]. unfold NodeSet.Cache. now rewrite Hc.
    + destruct (NodeSet.Collect fuel p h) as [[[nodes [err|]] h1]| |];
        try discriminate; intros [= <- <-]; reflexivity.
  - unfold NodeSet.One at 1.
    destruct (Data p) eqn:Hd;
      try (destruct (NodeSet.CollectOne fuel p None h) as [[[node [err|]] h1]| |];
           try discriminate; intros [= <- <-]; reflexivity).
    intros [= <- <-]. unfold NodeSet.One. now rewrite Hd.
Qed.

(** ** Filtering a selection *)

Lemma emits_One (h : heap) (e : NodeEnum) (l : list html.ptr) (fuel : nat) :
  emits fuel h e l ->
  NodeSet.One fuel {| Data := e; Err := None |} h =
    Done (match l with
          | [] => {| Data := nilEnum; Err := Some ErrNotFound |}
          | first :: _ => {| Data := oneNode first; Err := None |}
          end, h).
Proof.
  intros He. destruct (emits_CollectOne h e l fuel He) as [H0 _].
  unfold NodeSet.One. cbn [Data].
  destruct e; try (rewrite H0; destruct l; reflexivity).
  specialize (He _ collectVisitor ltac:(intros p s _; reflexivity) []).
  cbn [ForEach] in He. unfold bind in He. rewrite visit_collect in He.
  cbn in He. destruct l as [|a [|b l]]; try discriminate.
  now injection He as ->.
Qed.

Lemma filter_concat {A} (f : A -> bool) (l : list A) :
  concat (List.map (fun p => if f p then [p] else []) l) = List.filter f l.
Proof.
  induction l as [|a l IH]; [reflexivity|].
  cbn. destruct (f a); cbn; now rewrite IH.
Qed.

Lemma mapM_matchRef (h : heap) (q : html.Node -> bool) (l : list html.ptr) :
  forallb (live h) l = true ->
  mapM (matchRef h (onNode q)) l
  = Some (List.map (fun p => if satisfies h q p then [p] else []) l).
Proof.
  intros Hl. apply mapM_Some.
  induction l as [|p l IH]; cbn [List.map]; constructor.
  - cbn [forallb] in Hl. apply andb_prop in Hl as [Hp _].
    unfold matchRef, onNode, satisfies, live in *.
    destruct p as [x|]; [|discriminate].
    destruct (h !! x) as [n|]; [|discriminate]. now destruct (q n).
  - apply IH. cbn [forallb] in Hl. now apply andb_prop in Hl as [_ Hl].
Qed.

Lemma selection_Match (d : nat) (h : heap) (e : NodeEnum) (l : list html.ptr)
    (q : html.Node -> bool) :
  selection d h e = Some l ->
  forallb (live h) l = true ->
  selection d h (matchedNodes e (onNode q)) = Some (List.filter (satisfies h q) l).
Proof.
  intros Hsel Hl. cbn [selection]. rewrite Hsel. cbn.
  rewrite (mapM_matchRef h q l Hl). cbn. now rewrite filter_concat.
Qed.

Lemma head_filter {A} (f : A -> bool) (l : list A) :
  match List.filter f l with [] => None | a :: _ => Some a end = List.find f l.
Proof.
  induction l as [|a l IH]; [reflexivity|]. cbn. now destruct (f a).
Qed.

Lemma selection_Match_pred (d : nat) (h : heap) (e : NodeEnum) (l : list html.ptr)
    (pred : html.ptr -> heap -> outcome bool) :
  selection d h e = Some l ->
  forallb (fun p => answers (pred p h)) l = true ->
  selection d h (matchedNodes e pred)
  = Some (List.filter (fun p => accepts (pred p h)) l).
Proof.
  intros Hsel Hl. cbn [selection]. rewrite Hsel. cbn.
  assert (Hm : mapM (matchRef h pred) l
               = Some (List.map (fun p => if accepts (pred p h) then [p] else []) l)).
  { apply mapM_Some. clear Hsel.
    induction l as [|p l IH]; cbn [List.map]; constructor.
    - cbn [forallb] in Hl. apply andb_prop in Hl as [Hp _].
      unfold matchRef. now destruct (pred p h) as [[|]| |].
    - apply IH. cbn [forallb] in Hl. now apply andb_prop in Hl as [_ Hl]. }
  rewrite Hm. cbn. now rewrite filter_concat.
Qed.

(** X6: [Match] keeps, of a selection on whose nodes the predicate
    returns, exactly the nodes it returns true for, in the order of the
    selection and as often as they occur; the result is again a
    selection, so that further combinators can be chained on it.  The
    selector methods [Attribute], [Class], [Href], [EqualText] and
    [ChildEqualText] are [Match] with a predicate of their own. *)
Theorem Match_filters (d : nat) (h : heap) (e : NodeEnum) (l : list html.ptr)
    (pred : html.ptr -> heap -> outcome bool) (fuel : nat) :
  selection d h e = Some l ->
  forallb (fun p => answers (pred p h)) l = true ->
  (d + reach e < fuel)%nat ->
  let p := NodeSet.Match {| Data := e; Err := None |} pred in
  selection d h (Data p) = Some (List.filter (fun p => accepts (pred p h)) l) /\
  NodeSet.Collect fuel p h
  = Done ((List.filter (fun p => accepts (pred p h)) l, None), h).
Proof.
  intros Hsel Hl Hfuel p. subst p. unfold NodeSet.Match. cbn [Err Data].
  pose proof (selection_Match_pred d h e l pred Hsel Hl) as Hm.
  split; [exact Hm|].
  apply emits_Collect, (selection_emits d); [exact Hm | exact Hfuel].
Qed.

(** X6, on the sample tree: the nodes whose only child is the text [B],
    among all five nodes. *)
Lemma Match_filters_witness :
  let p := Selector.ChildEqualText
             {| Data := fixNodes [Some txtB; Some pB; Some txtA; Some pA; Some div_; Some pB];
                Err := None |} "B" in
  selection 4 sample (Data p) = Some [Some pB; Some pB] /\
  NodeSet.Collect 8 p sample = Done (([Some pB; Some pB], None), sample).
Proof.
  exact (Match_filters 4 sample
           (fixNodes [Some txtB; Some pB; Some txtA; Some pA; Some div_; Some pB])
           [Some txtB; Some pB; Some txtA; Some pA; Some div_; Some pB]
           (fun node => ChildEqualText node "B") 8 eq_refl eq_refl
           ltac:(repeat constructor)).
Defined.

(** X7: [ID(v)] on a selection of nodes of the tree yields the first
    element of the selection that carries an attribute [id] with value
    [v], as a single-node set, whether or not later ones carry it too;
    when none does, the result is a failed node set with [ErrNotFound]. *)
Theorem ID_first (d : nat) (h : heap) (e : NodeEnum) (l : list html.ptr)
    (v : string) (fuel : nat) :
  selection d h e = Some l ->
  forallb (live h) l = true ->
  (d + reach e < fuel)%nat ->
  Selector.ID fuel {| Data := e; Err := None |} v h =
    Done (match List.find (satisfies h (attributeFilter "id" v)) l with
          | Some first => {| Data := oneNode first; Err := None |}
          | None => {| Data := nilEnum; Err := Some ErrNotFound |}
          end, h).
Proof.
  intros Hsel Hl Hfuel.
  unfold Selector.ID, Selector.Attribute, NodeSet.Match. cbn [Err Data].
  rewrite (emits_One h _ (List.filter (satisfies h (attributeFilter "id" v)) l)).
  - rewrite <- head_filter. now destruct (List.filter _ l).
  - apply (selection_emits d); [now apply selection_Match | exact Hfuel].
Qed.

(** X7, on the sample list: of the two items with [id=a], the first. *)
Lemma ID_first_witness :
  Selector.ID 8 {| Data := childLevelNodes (fixNodes [Some 0%nat]) 1; Err := None |}
    "a" listing
  = Done ({| Data := oneNode (Some 1%nat); Err := None |}, listing).
Proof.
  exact (ID_first 4 listing (childLevelNodes (fixNodes [Some 0%nat]) 1)
           [Some 1%nat; Some 2%nat; Some 3%nat] "a" 8 eq_refl eq_refl
           ltac:(repeat constructor)).
Defined.

(** ** Class lists and attributes *)

Lemma fields_not_nil (s : string) : fields s <> [].
Proof.
  induction s as [|c s IH]; [discriminate|].
  cbn [fields]. destruct (fields s); [contradiction|].
  now destruct (Ascii.eqb c " ").
Qed.

(** What [IndexByte] finds is where the first field ends. *)
Lemma IndexByte_space (s : string) :
  let pos := IndexByte s " " in
  if pos <? 0 then fields s = [s]
  else 0 <= pos /\
       fields s = sliceTo s (Z.to_nat pos) :: fields (sliceFrom s (Z.to_nat (pos + 1))) /\
       (String.length (sliceFrom s (Z.to_nat (pos + 1))) < String.length s)%nat.
Proof.
  induction s as [|c s IH]; [reflexivity|].
  cbn [IndexByte fields]. cbv zeta in IH.
  pose proof (fields_not_nil s) as Hne.
  destruct (Ascii.eqb c " ") eqn:Hc.
  - change (0 <? 0) with false. cbv iota.
    change (Z.to_nat (0 + 1)) with 1%nat. change (Z.to_nat 0) with 0%nat.
    cbn [sliceTo sliceFrom String.length].
    replace (sliceFrom s 0) with s by (now destruct s).
    destruct (fields s); [contradiction|]. repeat split; lia.
  - destruct (IndexByte s " " <? 0) eqn:Hneg.
    + cbn. now rewrite IH.
    + destruct IH as (Hpos & Hf & Hlen). cbv zeta.
      replace (IndexByte s " " + 1 <? 0) with false by lia.
      rewrite Hf.
      replace (Z.to_nat (IndexByte s " " + 1)) with (S (Z.to_nat (IndexByte s " ")))
        by lia.
      replace (Z.to_nat (IndexByte s " " + 1 + 1))
        with (S (Z.to_nat (IndexByte s " " + 1))) by lia.
      cbn [sliceTo sliceFrom String.length].
      replace (S (Z.to_nat (IndexByte s " "))) with (Z.to_nat (IndexByte s " " + 1))
        by lia.
      repeat split; lia.
Qed.

Lemma ContainsClass_fields_aux (v : string) :
  forall (fuel : nat) (source : string),
    (String.length source < fuel)%nat ->
    ContainsClass fuel source v = Done (bool_decide (v ∈ fields source)).
Proof.
  induction fuel as [|fuel IH]; intros source Hfuel; [lia|].
  cbn [ContainsClass]. cbv zeta.
  pose proof (IndexByte_space source) as Hs. cbv zeta in Hs.
  destruct (IndexByte source " " <? 0).
  - rewrite Hs. f_equal. apply bool_decide_ext.
    rewrite list_elem_of_singleton. split; congruence.
  - destruct Hs as (Hpos & Hf & Hlen). rewrite Hf. case_bool_decide as Hv.
    + f_equal. symmetry. apply bool_decide_eq_true_2. subst v. apply elem_of_cons. now left.
    + rewrite IH by lia. f_equal. apply bool_decide_ext.
      rewrite elem_of_cons. split; [now right|]. intros [Heq|Hin]; [congruence|exact Hin].
Qed.

(** X8: [ContainsClass(source, v)] returns, and tells whether [v] is one
    of the fields of [source] between single spaces, empty fields
    included: so the empty class is contained in the empty list and in
    every list with a leading, trailing or doubled space. *)
Theorem ContainsClass_fields (v : string) (fuel : nat) (source : string) :
  (String.length source < fuel)%nat ->
  ContainsClass fuel source v = Done (bool_decide (v ∈ fields source)).
Proof. apply ContainsClass_fields_aux. Qed.

(** X8, on a class list with a doubled space. *)
Lemma ContainsClass_fields_witness :
  ContainsClass 8 "a  b" "" = Done (bool_decide (""%string ∈ fields "a  b")).
Proof. exact (ContainsClass_fields "" 8 "a  b" ltac:(repeat constructor)). Defined.

Lemma containsClassLoop_lookup (fuel : nat) (v : string) (attrs : list html.Attribute) :
  Forall (fun a => (String.length (html.Val a) < fuel)%nat) attrs ->
  containsClassLoop fuel attrs v =
    Done (match attrLookup attrs "class" with
          | (val, None) => bool_decide (v ∈ fields val)
          | (_, Some _) => false
          end).
Proof.
  induction 1 as [|a attrs Ha _ IH]; [reflexivity|].
  cbn [containsClassLoop attrLookup]. case_bool_decide; [|exact IH].
  now apply ContainsClass_fields_aux.
Qed.

(** X9: the predicate of [NodeSet.ContainsClass(v)] looks at the first
    attribute named [class] only: it accepts a node exactly when
    [AttributeVal(node, "class")] succeeds and [v] is one of the fields
    of the value it returns. *)
Theorem ContainsClass_first_class (fuel : nat) (v : string) (x : html.loc)
    (n : html.Node) (h : heap) :
  h !! x = Some n ->
  Forall (fun a => (String.length (html.Val a) < fuel)%nat) (html.Attr n) ->
  containsClassFilter fuel v (Some x) h =
    Done (match AttributeVal (Some x) "class" h with
          | Done (val, None) => bool_decide (v ∈ fields val)
          | _ => false
          end).
Proof.
  intros Hx Hlen. unfold containsClassFilter, AttributeVal. rewrite Hx.
  destruct (negb (bool_decide (html.Type_ n = html.ElementNode))); [reflexivity|].
  rewrite (containsClassLoop_lookup fuel v _ Hlen).
  now destruct (attrLookup (html.Attr n) "class") as [val [err|]].
Qed.

(** X9, on the third item of the sample list. *)
Lemma ContainsClass_first_class_witness :
  containsClassFilter 8 "z" (Some 3%nat) listing =
    Done (match AttributeVal (Some 3%nat) "class" listing with
          | Done (val, None) => bool_decide ("z"%string ∈ fields val)
          | _ => false
          end).
Proof.
  exact (ContainsClass_first_class 8 "z" 3 _ listing eq_refl
           ltac:(repeat constructor)).
Defined.

Lemma attrLookup_existsb (k v : string) (attrs : list html.Attribute) :
  (attrLookup attrs k = (v, None) ->
   existsb (fun attr => bool_decide (html.Key attr = k) && bool_decide (html.Val attr = v))
     attrs = true) /\
  (NoDup (List.map html.Key attrs) ->
   existsb (fun attr => bool_decide (html.Key attr = k) && bool_decide (html.Val attr = v))
     attrs = true ->
   attrLookup attrs k = (v, None)).
Proof.
  induction attrs as [|a attrs [IH1 IH2]]; [split; [discriminate|intros _; discriminate]|].
  cbn [attrLookup existsb List.map]. split.
  - case_bool_decide as Hk.
    + intros [= Hv]. now rewrite (bool_decide_eq_true_2 _ Hv).
    + intros H. rewrite (IH1 H). apply orb_true_r.
  - intros Hnd Hex. apply NoDup_cons in Hnd as [Hnot Hnd].
    apply orb_prop in Hex as [Ha|Hrest].
    + apply andb_prop in Ha as [Hk Hv].
      rewrite Hk. apply bool_decide_eq_true_1 in Hv. now rewrite Hv.
    + case_bool_decide as Hk; [|now apply IH2].
      exfalso. apply Hnot. apply existsb_exists in Hrest as (b & Hb & Hkv).
      apply andb_prop in Hkv as [Hbk _]. apply bool_decide_eq_true_1 in Hbk.
      rewrite Hk, <- Hbk. apply list_elem_of_In, in_map, Hb.
Qed.

(** X10: [Attribute(k, v)] accepts every node on which
    [AttributeVal(node, k)] returns [v]; the converse holds when no two
    attributes of the node share a key, since [AttributeVal] reads the
    first attribute of that key and [Attribute] any of them. *)
Theorem Attribute_AttributeVal (k v : string) (x : html.loc) (n : html.Node) (h : heap) :
  h !! x = Some n ->
  (AttributeVal (Some x) k h = Done (v, None) ->
   onNode (attributeFilter k v) (Some x) h = Done true) /\
  (NoDup (List.map html.Key (html.Attr n)) ->
   onNode (attributeFilter k v) (Some x) h = Done true ->
   AttributeVal (Some x) k h = Done (v, None)).
Proof.
  intros Hx. unfold AttributeVal, onNode, attributeFilter. rewrite Hx.
  destruct (attrLookup_existsb k v (html.Attr n)) as [H1 H2].
  destruct (negb (bool_decide (html.Type_ n = html.ElementNode))).
  - split; [discriminate|intros _; discriminate].
  - split.
    + intros [= H]. now rewrite (H1 H).
    + intros Hnd [= H]. now rewrite (H2 Hnd H).
Qed.

(** X10, on the first item of the sample list. *)
Lemma Attribute_AttributeVal_witness :
  (AttributeVal (Some 1%nat) "class" listing = Done ("x y"%string, None) ->
   onNode (attributeFilter "class" "x y") (Some 1%nat) listing = Done true) /\
  (NoDup (List.map html.Key [attribute "id" "a"; attribute "class" "x y"]) ->
   onNode (attributeFilter "class" "x y") (Some 1%nat) listing = Done true ->
   AttributeVal (Some 1%nat) "class" listing = Done ("x y"%string, None)).
Proof. exact (Attribute_AttributeVal "class" "x y" 1 _ listing eq_refl). Defined.

(** ** Typed children *)

(** X11: [FirstChild(node, t)] returns the first child of type [t] in
    sibling order, and [LastChild(node, t)] the first one of that type
    met from the last child backwards; each answers [ErrNotFound] with a
    nil node exactly when the sibling list it walks holds no node of the
    type, and neither touches the tree. *)
Theorem FirstChild_LastChild_find {St} (d fuel : nat) (h : heap) (x : html.loc)
    (n : html.Node) (t : html.NodeType) (s : St) (cs bs : list html.loc) :
  h !! x = Some n ->
  chain d h html.NextSibling (html.FirstChild n) = Some cs ->
  chain d h html.PrevSibling (html.LastChild n) = Some bs ->
  (d <= fuel)%nat ->
  FirstChild fuel (Some x) t (World h s) =
    Done (match find (typeAt h t) cs with
          | Some c => (Some c, None)
          | None => (None, Some ErrNotFound)
          end, World h s) /\
  LastChild fuel (Some x) t (World h s) =
    Done (match find (typeAt h t) bs with
          | Some c => (Some c, None)
          | None => (None, Some ErrNotFound)
          end, World h s).
Proof.
  intros Hx Hcs Hbs Hfuel. unfold FirstChild, LastChild. split.
  - erewrite bind_Done by (apply deref_Some; exact Hx).
    erewrite bind_Done by (apply (for_links_find h d); eassumption).
    now destruct (find (typeAt h t) cs).
  - erewrite bind_Done by (apply deref_Some; exact Hx).
    erewrite bind_Done by (apply (for_links_find h d); eassumption).
    now destruct (find (typeAt h t) bs).
Qed.

(** X11, on the [div] of the sample tree: its first and last elements,
    and no Text child. *)
Lemma FirstChild_LastChild_find_witness :
  (FirstChild 8 (Some div_) html.ElementNode (World sample tt)
   = Done ((Some pA, None), World sample tt) /\
   LastChild 8 (Some div_) html.ElementNode (World sample tt)
   = Done ((Some pB, None), World sample tt)) /\
  (FirstChild 8 (Some div_) html.TextNode (World sample tt)
   = Done ((None, Some ErrNotFound), World sample tt) /\
   LastChild 8 (Some div_) html.TextNode (World sample tt)
   = Done ((None, Some ErrNotFound), World sample tt)).
Proof.
  split.
  - exact (FirstChild_LastChild_find 4 8 sample div_ _ html.ElementNode tt
             [pA; pB] [pB; pA] eq_refl eq_refl eq_refl ltac:(repeat constructor)).
  - exact (FirstChild_LastChild_find 4 8 sample div_ _ html.TextNode tt
             [pA; pB] [pB; pA] eq_refl eq_refl eq_refl ltac:(repeat constructor)).
Defined.

(** ** Text of the children *)

(** X12: after [ChildrenAsText(true)] has been collected over a node,
    [ChildEqualText] holds of that node, and [EqualText] of the node
    emitted, for the rendered text of the node and for no other string. *)
Theorem ChildEqualText_after_ChildrenAsText (fuel : nat) (h : heap) (x : html.loc)
    (n : html.Node) (s text : string) :
  h !! x = Some n ->
  Text fuel (Some x) h = Done s ->
  exists h' q,
    NodeSet.Collect fuel (NodeSet.ChildrenAsText (NodeSet.Nodes [Some x]) true) h
      = Done (([q], None), h') /\
    ChildEqualText (Some x) text h' = Done (bool_decide (s = text)) /\
    EqualText q text h' = Done (bool_decide (s = text)).
Proof.
  intros Hx HT. exists (replaced h x n s), (Some (length h)).
  split; [now apply Collect_ChildrenAsText|].
  pose proof (replaced_lookup_node _ _ _ s Hx) as Hnode.
  pose proof (replaced_lookup_text _ _ _ s Hx) as Htext.
  unfold ChildEqualText, EqualText. rewrite Hnode, Htext. cbn.
  rewrite Htext. cbn. split; reflexivity.
Qed.

(** X12, on the [div] of the sample tree. *)
Lemma ChildEqualText_after_ChildrenAsText_witness :
  exists h' q,
    NodeSet.Collect 8 (NodeSet.ChildrenAsText (NodeSet.Nodes [Some div_]) true) sample
      = Done (([q], None), h') /\
    ChildEqualText (Some div_) textAB h' = Done (bool_decide (textAB = textAB)) /\
    EqualText q textAB h' = Done (bool_decide (textAB = textAB)).
Proof.
  exact (ChildEqualText_after_ChildrenAsText 8 sample div_ _ textAB textAB
           eq_refl eq_refl).
Defined.

(** ** What a drive does to the tree *)

Section Preserve.

Context {St : Type}.
Variable Inv : heap -> Prop.
Variable ok : bool -> bool.

Lemma preserves_bind {A B} (m : M St A) (k : A -> M St B) :
  preserves Inv m -> (forall a, preserves Inv (k a)) -> preserves Inv (bind m k).
Proof.
  intros Hm Hk w Hw. unfold bind. specialize (Hm w Hw).
  destruct (m w) as [[a w1]| |]; [|exact I|exact I]. now apply Hk.
Qed.

Lemma preserves_ret {A} (a : A) : preserves Inv (ret (St := St) a).
Proof. intros w Hw. exact Hw. Qed.

Lemma preserves_deref p : preserves Inv (deref (St := St) p).
Proof.
  intros w Hw. unfold deref. destruct p as [x|]; [|exact I].
  destruct (mem w !! x); [exact Hw|exact I].
Qed.

Lemma preserves_reading {A} (f : heap -> outcome A) : preserves Inv (reading (St := St) f).
Proof. intros w Hw. unfold reading. destruct (f (mem w)); [exact Hw|exact I|exact I]. Qed.

Lemma preserves_for_links {A} link (body : html.ptr -> M St (option A)) :
  (forall p, preserves Inv (body p)) ->
  forall fuel node, preserves Inv (for_links fuel link body node).
Proof.
  intros Hbody. induction fuel as [|fuel IH]; intros node; cbn [for_links].
  - intros w Hw. exact I.
  - destruct node as [x|]; [|apply preserves_ret].
    apply preserves_bind; [apply Hbody|]. intros [a|]; [apply preserves_ret|].
    apply preserves_bind; [apply preserves_deref|]. intros n. apply IH.
Qed.

Lemma preserves_FirstChild fuel node nodeType :
  preserves Inv (FirstChild (St := St) fuel node nodeType).
Proof.
  unfold FirstChild. apply preserves_bind; [apply preserves_deref|]. intros n.
  apply preserves_bind.
  - apply preserves_for_links. intros p. apply preserves_bind; [apply preserves_deref|].
    intros c. destruct (bool_decide _); apply preserves_ret.
  - intros [p|]; apply preserves_ret.
Qed.

Lemma preserves_LastChild fuel node nodeType :
  preserves Inv (LastChild (St := St) fuel node nodeType).
Proof.
  unfold LastChild. apply preserves_bind; [apply preserves_deref|]. intros n.
  apply preserves_bind.
  - apply preserves_for_links. intros p. apply preserves_bind; [apply preserves_deref|].
    intros c. destruct (bool_decide _); apply preserves_ret.
  - intros [p|]; apply preserves_ret.
Qed.

Lemma preserves_loop_body (m : M St error) :
  preserves Inv m ->
  preserves Inv (e <- m ;; if is_break e then ret (Some (Some ErrBreak)) else ret None).
Proof.
  intros Hm. apply preserves_bind; [exact Hm|].
  intros e. destruct (is_break e); apply preserves_ret.
Qed.

Lemma preserves_or_nil (m : M St (option error)) :
  preserves Inv m -> preserves Inv (r <- m ;; ret (or_nil r)).
Proof. intros Hm. apply preserves_bind; [exact Hm|]. intros r. apply preserves_ret. Qed.

Section Derivations.

Variable c : visitor St.
Hypothesis Hc : forall p, preserves Inv (c p).

Lemma preserves_anyForEach fuel : forall p, preserves Inv (anyForEach fuel p c).
Proof.
  induction fuel as [|fuel IH]; intros p; cbn [anyForEach].
  - intros w Hw. exact I.
  - apply preserves_bind; [apply Hc|]. intros err.
    destruct (_ || _); [apply preserves_ret|].
    apply preserves_bind; [apply preserves_deref|]. intros n.
    apply preserves_or_nil, preserves_for_links. intros node.
    apply preserves_loop_body, IH.
Qed.

Lemma preserves_childLevelForEach fuel :
  forall p level, preserves Inv (childLevelForEach fuel p level c).
Proof.
  induction fuel as [|fuel IH]; intros p level; cbn [childLevelForEach].
  - intros w Hw. exact I.
  - destruct (level =? 0); [apply Hc|].
    apply preserves_bind; [apply preserves_deref|]. intros n.
    apply preserves_or_nil, preserves_for_links. intros node.
    apply preserves_loop_body, IH.
Qed.

Lemma preserves_parentLevelForEach fuel :
  forall p level, preserves Inv (parentLevelForEach fuel p level c).
Proof.
  induction fuel as [|fuel IH]; intros p level; cbn [parentLevelForEach].
  - intros w Hw. exact I.
  - destruct (level <? 0); [|apply Hc].
    apply preserves_bind; [apply preserves_deref|]. intros n.
    destruct (html.Parent n); [apply IH|apply preserves_ret].
Qed.

Lemma preserves_siblingForEach fuel :
  forall p delta, preserves Inv (siblingForEach fuel p delta c).
Proof.
  induction fuel as [|fuel IH]; intros p delta; cbn [siblingForEach].
  - intros w Hw. exact I.
  - destruct (0 <? delta).
    + apply preserves_bind; [apply preserves_deref|]. intros n.
      destruct (html.NextSibling n); [apply IH|apply preserves_ret].
    + destruct (delta <? 0); [|apply Hc].
      apply preserves_bind; [apply preserves_deref|]. intros n.
      destruct (html.PrevSibling n); [apply IH|apply preserves_ret].
Qed.

Lemma preserves_allSiblingsForEach fuel link node :
  preserves Inv (allSiblingsForEach fuel link node c).
Proof.
  unfold allSiblingsForEach.
  apply preserves_bind; [apply preserves_deref|]. intros n.
  apply preserves_or_nil, preserves_for_links. intros p.
  apply preserves_loop_body, Hc.
Qed.

Lemma preserves_rangeNodes nodes : preserves Inv (rangeNodes nodes c).
Proof.
  induction nodes as [|node rest IH]; cbn [rangeNodes]; [apply preserves_ret|].
  apply preserves_bind; [apply Hc|].
  intros a. destruct (is_break a); [apply preserves_ret|exact IH].
Qed.

End Derivations.

Hypothesis Htext :
  forall fuel doReplace t (c : visitor St),
    ok doReplace = true ->
    (forall p, preserves Inv (c p)) ->
    preserves Inv (textForEach fuel doReplace t c).

Lemma preserves_ForEach fuel (e : NodeEnum) :
  texts ok e = true ->
  forall c : visitor St,
    (forall p, preserves Inv (c p)) -> preserves Inv (ForEach fuel e c).
Proof.
  induction e as [|node|nodes|data IH|data IH level|data IH level|data IH delta
                 |data IH|data IH|data IH nodeType|data IH nodeType|data IH pred
                 |data IH doReplace];
    intros Hok c Hc; cbn [ForEach]; cbn [texts] in Hok;
    try (apply (IH Hok); intros node).
  - intros w Hw. exact I.
  - apply preserves_bind; [apply Hc|]. intros a. apply preserves_ret.
  - now apply preserves_rangeNodes.
  - apply preserves_bind; [now apply preserves_anyForEach|].
    intros a. apply preserves_ret.
  - now apply preserves_childLevelForEach.
  - now apply preserves_parentLevelForEach.
  - now apply preserves_siblingForEach.
  - now apply preserves_allSiblingsForEach.
  - now apply preserves_allSiblingsForEach.
  - apply preserves_bind; [apply preserves_FirstChild|]. intros r.
    destruct (snd r); [apply preserves_ret|apply Hc].
  - apply preserves_bind; [apply preserves_LastChild|]. intros r.
    destruct (snd r); [apply preserves_ret|apply Hc].
  - apply preserves_bind; [apply preserves_reading|]. intros b.
    destruct b; [apply Hc|apply preserves_ret].
  - apply andb_prop in Hok as [Hflag Hok].
    apply (IH Hok). intros t. now apply Htext.
Qed.

End Preserve.

Lemma drive_preserves {St} (Inv : heap -> Prop) (ok : bool -> bool)
    (fuel : nat) (e : NodeEnum) (f : visitor St) (s r : St) (h h' : heap) :
  (forall fuel doReplace t (c : visitor St),
     ok doReplace = true ->
     (forall p, preserves Inv (c p)) ->
     preserves Inv (textForEach fuel doReplace t c)) ->
  texts ok e = true ->
  (forall p, preserves Inv (f p)) ->
  Inv h ->
  drive fuel e f s h = Done (r, h') ->
  Inv h'.
Proof.
  intros Htext Hok Hf Hh. unfold drive.
  pose proof (preserves_ForEach Inv ok Htext fuel e Hok f Hf (World h s) Hh) as H.
  destruct (ForEach fuel e f (World h s)) as [[[] w]| |]; try discriminate.
  now intros [= _ <-].
Qed.

Lemma queried_preserves (Inv : heap -> Prop) (ok : bool -> bool)
    (fuel : nat) (p : NodeSet) (h h' : heap) :
  (forall St fuel doReplace t (c : visitor St),
     ok doReplace = true ->
     (forall p, preserves Inv (c p)) ->
     preserves Inv (textForEach fuel doReplace t c)) ->
  texts ok (Data p) = true ->
  Inv h ->
  queried fuel p h h' ->
  Inv h'.
Proof.
  intros Htext Hok Hh.
  assert (HC : forall r h1, NodeSet.Collect fuel p h = Done (r, h1) -> Inv h1).
  { intros r h1. unfold NodeSet.Collect. destruct (Err p); [now intros [= _ <-]|].
    destruct (drive fuel (Data p) collectVisitor [] h) as [[items h2]| |] eqn:Hd;
      try discriminate.
    intros [= _ <-].
    eapply (drive_preserves Inv ok); try eassumption; [apply Htext|].
    intros q w Hw. exact Hw. }
  assert (HO : forall exactly r h1,
             NodeSet.CollectOne fuel p exactly h = Done (r, h1) -> Inv h1).
  { intros exactly r h1. unfold NodeSet.CollectOne.
    destruct (Err p); [now intros [= _ <-]|].
    destruct exactly as [[|[|] rest]|]; try discriminate; cbn [negb]; intros Hd.
    - eapply (drive_preserves Inv ok); try eassumption; [apply Htext|].
      intros q w Hw. unfold exactlyVisitor. now case_bool_decide.
    - eapply (drive_preserves Inv ok); try eassumption; [apply Htext|].
      intros q w Hw. exact Hw. }
  intros [[r H]|[[exactly [r H]]|[[q H]|[q H]]]].
  - eapply HC, H.
  - eapply HO, H.
  - unfold NodeSet.Cache in H. destruct (Cached (Data p)); [now injection H as _ <-|].
    destruct (NodeSet.Collect fuel p h) as [[[nodes [err|]] h1]| |] eqn:Hc;
      try discriminate; injection H as _ <-; eapply HC; reflexivity.
  - unfold NodeSet.One in H.
    destruct (Data p);
      try (destruct (NodeSet.CollectOne fuel p None h) as [[[node [err|]] h1]| |] eqn:Hc;
           try discriminate; injection H as _ <-; eapply HO, Hc).
    now injection H as _ <-.
Qed.

(** X13: a query built without [ChildrenAsText], deep search included,
    whose [Match] predicates only read the tree, is read-only: whichever
    of [Collect], [CollectOne], [Cache] and [One] is run on it, and
    whatever it returns, the tree it leaves is the tree it was given.
    The restriction on the predicates is that of [matchedNodes], whose
    predicate is a function of the tree: the selectors of the package
    are of this kind, a Go closure that writes through the node it is
    given is not, and nothing is said here of a query that holds one. *)
Theorem queries_are_read_only (fuel : nat) (p : NodeSet) (h h' : heap) :
  withoutText (Data p) = true ->
  queried fuel p h h' ->
  h' = h.
Proof.
  intros Hok Hq.
  apply (queried_preserves (fun h1 => h1 = h) (fun _ => false) fuel p h h');
    [|exact Hok|reflexivity|exact Hq].
  intros St fuel' doReplace t c Hflag. discriminate.
Qed.

(** X13, on the sample tree: the elements found by deep search. *)
Lemma queries_are_read_only_witness :
  let p := NodeSet.Match (NodeSet.Any (NodeSet.Nodes [Some div_]))
             (onNode (ofType html.ElementNode)) in
  queried 8 p sample sample /\ sample = sample.
Proof.
  assert (Hq : queried 8
                 (NodeSet.Match (NodeSet.Any (NodeSet.Nodes [Some div_]))
                    (onNode (ofType html.ElementNode))) sample sample)
    by (left; eexists; reflexivity).
  exact (conj Hq (queries_are_read_only 8
                    (NodeSet.Match (NodeSet.Any (NodeSet.Nodes [Some div_]))
                       (onNode (ofType html.ElementNode)))
                    sample sample eq_refl Hq)).
Defined.

Lemma sameButChildren_refl (n : html.Node) : sameButChildren n n.
Proof. repeat split. Qed.

Lemma grown_refl (h : heap) : grown h h.
Proof. intros x n Hx. exists n. split; [exact Hx|apply sameButChildren_refl]. Qed.

Lemma grown_update {St} (h0 : heap) (t c : html.ptr)
    (set : html.ptr -> html.Node -> html.Node) :
  (forall n, sameButChildren n (set c n)) ->
  preserves (St := St) (grown h0) (update t (set c)).
Proof.
  intros Hset w Hw. unfold update. destruct t as [x|]; [|exact I].
  destruct (mem w !! x) as [n|] eqn:Hx; [|exact I]. cbn [mem].
  intros y m Hy. destruct (Hw y m Hy) as (m' & Hy' & Hsame).
  destruct (decide (y = x)) as [->|Hne].
  - exists (set c n). split.
    + apply list_lookup_insert_eq. now apply lookup_lt_Some in Hx.
    + rewrite Hx in Hy'. injection Hy' as <-.
      destruct (Hset n) as (H1 & H2 & H3 & H4 & H5 & H6 & H7 & H8).
      destruct Hsame as (G1 & G2 & G3 & G4 & G5 & G6 & G7 & G8).
      repeat split; congruence.
  - exists m'. split; [|exact Hsame]. now rewrite list_lookup_insert_ne.
Qed.

(** X14: a query whose [Match] predicates only read the tree never
    removes a node and never changes the type, the data, the attributes,
    the parent or the sibling links of one: the tree left by [Collect],
    [CollectOne], [Cache] or [One] holds every node of the tree given,
    the same up to the links to its first and last child.  When every
    [ChildrenAsText] of the query is called with [false], the tree given
    is a prefix of the tree left: nodes are only added.  As for reading
    queries, the predicates are those [matchedNodes] can hold, functions
    of the tree; nothing is said of a Go closure that writes through the
    node it is given. *)
Theorem queries_grow_the_tree (fuel : nat) (p : NodeSet) (h h' : heap) :
  queried fuel p h h' ->
  grown h h' /\ (withoutReplace (Data p) = true -> h `prefix_of` h').
Proof.
  intros Hq. split.
  - apply (queried_preserves (grown h) (fun _ => true) fuel p h h');
      [| |apply grown_refl|exact Hq].
    + intros St fuel' doReplace t c _ Hc. unfold textForEach.
      apply preserves_bind; [apply preserves_reading|]. intros s.
      apply preserves_bind.
      { intros w Hw x n Hx. destruct (Hw x n Hx) as (n' & Hx' & Hsame).
        exists n'. split; [|exact Hsame]. cbn [mem new_node].
        rewrite lookup_app_l; [exact Hx'|now apply lookup_lt_Some in Hx']. }
      intros node. apply preserves_bind; [|intros _; apply Hc].
      destruct doReplace; [|apply preserves_ret].
      apply preserves_bind; [|intros _]; apply grown_update; intros n; repeat split.
    + clear. induction (Data p); cbn [texts]; auto.
  - intros Hok.
    apply (queried_preserves (fun h1 => h `prefix_of` h1) negb fuel p h h');
      [|exact Hok|reflexivity|exact Hq].
    intros St fuel' doReplace t c Hflag Hc. destruct doReplace; [discriminate|].
    unfold textForEach.
    apply preserves_bind; [apply preserves_reading|]. intros s.
    apply preserves_bind.
    { intros w Hw. cbn [mem new_node]. now apply prefix_app_r. }
    intros node. apply preserves_bind; [apply preserves_ret|intros _; apply Hc].
Qed.

(** X14, on the sample tree: the text of the [div], not replacing its
    children. *)
Lemma queries_grow_the_tree_witness :
  let p := NodeSet.ChildrenAsText (NodeSet.Nodes [Some div_]) false in
  let h' := sample ++ [textNode (Some div_) textAB] in
  queried 8 p sample h' /\
  grown sample h' /\ (withoutReplace (Data p) = true -> sample `prefix_of` h').
Proof.
  assert (Hq : queried 8 (NodeSet.ChildrenAsText (NodeSet.Nodes [Some div_]) false)
                 sample (sample ++ [textNode (Some div_) textAB]))
    by (left; eexists; reflexivity).
  exact (conj Hq (queries_grow_the_tree 8
                    (NodeSet.ChildrenAsText (NodeSet.Nodes [Some div_]) false)
                    sample (sample ++ [textNode (Some div_) textAB]) Hq)).
Defined.

(** ** Stepping to a sibling and back *)

Lemma siblingsOk_next (h : heap) (x y : html.loc) (n : html.Node) :
  siblingsOk h = true ->
  h !! x = Some n ->
  html.NextSibling n = Some y ->
  exists m, h !! y = Some m /\ html.PrevSibling m = Some x.
Proof.
  intros Hok Hx Hy. unfold siblingsOk in Hok.
  rewrite forallb_forall in Hok. specialize (Hok x).
  rewrite Hx, Hy in Hok.
  assert (Hin : In x (seq 0 (length h)))
    by (apply in_seq; apply lookup_lt_Some in Hx; lia).
  specialize (Hok Hin). destruct (h !! y) as [m|]; [|discriminate].
  exists m. split; [reflexivity|]. now apply bool_decide_eq_true_1 in Hok.
Qed.

Lemma hop_snoc (h : heap) (link : html.Node -> html.ptr) :
  forall k y z m x,
    hop h link k y = Some (Some z) ->
    h !! z = Some m ->
    link m = Some x ->
    hop h link (S k) y = Some (Some x).
Proof.
  induction k as [|k IH]; intros y z m x Hhop Hz Hlink.
  - cbn in Hhop. injection Hhop as <-. cbn. rewrite Hz. cbn. now rewrite Hlink.
  - cbn [hop] in Hhop |- *. destruct (h !! y) as [n|]; [|discriminate].
    cbn in Hhop |- *. destruct (link n) as [y'|]; [|discriminate].
    exact (IH y' z m x Hhop Hz Hlink).
Qed.

Lemma hop_back (h : heap) :
  siblingsOk h = true ->
  forall k x y,
    hop h html.NextSibling k x = Some (Some y) ->
    hop h html.PrevSibling k y = Some (Some x).
Proof.
  intros Hok. induction k as [|k IH]; intros x y Hhop.
  - cbn in Hhop. injection Hhop as <-. reflexivity.
  - cbn [hop] in Hhop. destruct (h !! x) as [n|] eqn:Hx; [|discriminate].
    cbn in Hhop. destruct (html.NextSibling n) as [x1|] eqn:Hn; [|discriminate].
    destruct (siblingsOk_next h x x1 n Hok Hx Hn) as (m & Hm & Hprev).
    exact (hop_snoc h html.PrevSibling k y x1 m x (IH x1 y Hhop) Hm Hprev).
Qed.

Lemma hop_defined (h : heap) :
  siblingsOk h = true ->
  forall k x, live h (Some x) = true -> exists r, hop h html.NextSibling k x = Some r.
Proof.
  intros Hok. induction k as [|k IH]; intros x Hx; [cbn; eauto|].
  cbn [hop]. unfold live in Hx. destruct (h !! x) as [n|] eqn:Hn; [|discriminate].
  cbn. destruct (html.NextSibling n) as [y|] eqn:Hy; [|eauto].
  destruct (siblingsOk_next h x y n Hok Hn Hy) as (m & Hm & _).
  apply IH. unfold live. now rewrite Hm.
Qed.

Lemma there_and_back (h : heap) (k : Z) (l : list html.ptr) :
  siblingsOk h = true ->
  0 < k ->
  forallb (live h) l = true ->
  exists outs outs2,
    mapM (siblingRef h k) l = Some outs /\
    mapM (siblingRef h (- k)) (concat outs) = Some outs2 /\
    concat outs2 = List.filter (hasNext h (Z.to_nat k)) l.
Proof.
  intros Hok Hk. induction l as [|p l IH]; intros Hl.
  - exists [], []. repeat split.
  - cbn [forallb] in Hl. apply andb_prop in Hl as [Hp Hl].
    destruct (IH Hl) as (outs & outs2 & H1 & H2 & H3).
    destruct p as [x|]; [|discriminate].
    destruct (hop_defined h Hok (Z.to_nat k) x Hp) as [r Hr].
    assert (Hfwd : siblingRef h k (Some x)
                   = Some (match r with Some y => [Some y] | None => [] end)).
    { unfold siblingRef, hopRef. replace (0 <? k) with true by lia. cbn. now rewrite Hr. }
    apply mapM_Some in H1. apply mapM_Some in H2.
    cbn [List.filter hasNext]. rewrite Hr. destruct r as [y|].
    + exists ([Some y] :: outs), ([Some x] :: outs2). split; [|split].
      * apply mapM_Some. now constructor.
      * apply mapM_Some. cbn [concat app]. constructor; [|exact H2].
        unfold siblingRef, hopRef. replace (0 <? - k) with false by lia.
        replace (- k <? 0) with true by lia. cbn.
        replace (- - k) with k by lia. now rewrite (hop_back h Hok _ _ _ Hr).
      * cbn. now rewrite H3.
    + exists ([] :: outs), outs2. split; [|split].
      * apply mapM_Some. now constructor.
      * apply mapM_Some. exact H2.
      * exact H3.
Qed.

(** X15: on a tree whose sibling links are symmetric, stepping a
    selection of nodes of the tree [k] siblings forward and then [k]
    siblings back yields exactly the nodes of the selection that have a
    [k]-th next sibling, in the order of the selection; the others are
    dropped without an error. *)
Theorem NextSibling_PrevSibling_round_trip (d : nat) (h : heap) (e : NodeEnum)
    (l : list html.ptr) (k : int) (fuel : nat) :
  selection d h e = Some l ->
  forallb (live h) l = true ->
  siblingsOk h = true ->
  0 < k < 2 ^ 63 ->
  (d + Nat.max (Z.to_nat k) (reach e) < fuel)%nat ->
  NodeSet.Collect fuel
    (NodeSet.PrevSibling (NodeSet.NextSibling {| Data := e; Err := None |} k) k) h
  = Done ((List.filter (hasNext h (Z.to_nat k)) l, None), h).
Proof.
  intros Hsel Hl Hok Hk Hfuel.
  unfold NodeSet.PrevSibling, NodeSet.NextSibling. cbn [Err Data].
  rewrite wrap_small by lia.
  destruct (there_and_back h k l Hok ltac:(lia) Hl) as (outs & outs2 & H1 & H2 & H3).
  apply emits_Collect, (selection_emits d).
  - cbn [selection]. unfold inInt.
    replace ((- 2 ^ 63 <=? - k) && (- k <? 2 ^ 63)) with true by lia.
    replace ((- 2 ^ 63 <=? k) && (k <? 2 ^ 63)) with true by lia.
    rewrite Hsel. cbn. rewrite H1. cbn. rewrite H2. cbn. now rewrite H3.
  - cbn [reach]. lia.
Qed.

(** X15, on the sample tree: of the two paragraphs, the first has a next
    sibling. *)
Lemma NextSibling_PrevSibling_round_trip_witness :
  NodeSet.Collect 8
    (NodeSet.PrevSibling
       (NodeSet.NextSibling {| Data := fixNodes [Some pA; Some pB]; Err := None |} 1) 1)
    sample
  = Done (([Some pA], None), sample).
Proof.
  exact (NextSibling_PrevSibling_round_trip 4 sample (fixNodes [Some pA; Some pB])
           [Some pA; Some pB] 1 8 eq_refl eq_refl eq_refl (conj eq_refl eq_refl)
           ltac:(repeat constructor)).
Defined.

(** ** Descending in two steps *)

Lemma mapM_app_Some {A B} (f : A -> option B) (l1 l2 : list A) (k1 k2 : list B) :
  mapM f l1 = Some k1 -> mapM f l2 = Some k2 -> mapM f (l1 ++ l2) = Some (k1 ++ k2).
Proof.
  intros H1 H2. apply mapM_Some. apply mapM_Some in H1. apply mapM_Some in H2.
  now apply Forall2_app.
Qed.

(** Mapping in one step what can be mapped in two. *)
Lemma mapM_two_steps {A} (f g1 g2 : A -> option (list A)) :
  forall (cs : list A) (ls : list (list A)),
    (forall c l, c ∈ cs -> f c = Some l ->
       exists mid outs,
         g1 c = Some mid /\ mapM g2 mid = Some outs /\ concat outs = l) ->
    mapM f cs = Some ls ->
    exists mids outs,
      mapM g1 cs = Some mids /\ mapM g2 (concat mids) = Some outs /\
      concat outs = concat ls.
Proof.
  induction cs as [|c cs IH]; intros ls Hstep Hls; apply mapM_Some in Hls.
  - inversion Hls; subst. exists [], []. repeat split.
  - inversion Hls as [|c' l cs' ls' Hc Hrest]; subst.
    destruct (Hstep c l ltac:(left) Hc) as (mid & outs & Hg1 & Hg2 & Hcat).
    destruct (IH ls') as (mids & outs' & Hm1 & Hm2 & Hcat').
    { intros c0 l0 Hin. apply Hstep. now right. }
    { now apply mapM_Some. }
    exists (mid :: mids), (outs ++ outs'). split; [|split].
    + apply mapM_Some. apply mapM_Some in Hm1. now constructor.
    + cbn [concat]. now apply mapM_app_Some.
    + rewrite concat_app. cbn [concat]. now rewrite Hcat, Hcat'.
Qed.

Lemma levelNodes_add (d : nat) (h : heap) (k : nat) :
  forall (j : nat) (x : html.loc) (l : list html.loc),
    levelNodes d h (j + k) x = Some l ->
    exists mid outs,
      levelNodes d h j x = Some mid /\
      mapM (levelNodes d h k) mid = Some outs /\
      concat outs = l.
Proof.
  induction j as [|j IH]; intros x l Hl.
  - exists [x], [l]. cbn in Hl |- *. rewrite Hl. cbn. now rewrite app_nil_r.
  - cbn [Nat.add levelNodes] in Hl |- *.
    destruct (childrenOf d h x) as [cs|]; [|discriminate]. cbn in Hl |- *.
    destruct (mapM (levelNodes d h (j + k)) cs) as [ls|] eqn:Hls; [|discriminate].
    cbn in Hl. injection Hl as <-.
    destruct (mapM_two_steps (levelNodes d h (j + k)) (levelNodes d h j)
                (levelNodes d h k) cs ls) as (mids & outs & H1 & H2 & H3);
      [intros c l _; apply IH | exact Hls |].
    exists (concat mids), outs. rewrite H1. cbn. auto.
Qed.

Lemma childLevelRef_add (d : nat) (h : heap) (j k : int) (p : html.ptr)
    (l : list html.ptr) :
  0 < j -> 0 < k ->
  childLevelRef d h (j + k) p = Some l ->
  exists mid outs,
    childLevelRef d h j p = Some mid /\
    mapM (childLevelRef d h k) mid = Some outs /\
    concat outs = l.
Proof.
  intros Hj Hk. unfold childLevelRef. destruct p as [x|]; [|discriminate]. cbn.
  replace (Z.to_nat (j + k)) with (Z.to_nat j + Z.to_nat k)%nat by lia.
  destruct (levelNodes d h (Z.to_nat j + Z.to_nat k) x) as [l0|] eqn:Hl0;
    [|discriminate].
  cbn. intros [= <-].
  destruct (levelNodes_add d h (Z.to_nat k) (Z.to_nat j) x l0 Hl0)
    as (mid & outs & H1 & H2 & H3).
  exists (Some <$> mid), (fmap (M := list) (fmap (M := list) Some) outs).
  rewrite H1. cbn. split; [reflexivity|]. split.
  - apply mapM_Some. apply mapM_Some in H2. apply Forall2_fmap.
    eapply Forall2_impl; [exact H2|]. intros c o Hc. cbn. now rewrite Hc.
  - rewrite fmap_Some_concat. now rewrite H3.
Qed.

(** X16: descending [j] levels and then [k] levels is descending [j + k]
    levels: whenever [ChildN(j + k)] has a selection, collecting
    [ChildN(j).ChildN(k)] and collecting [ChildN(j + k)] return the same
    nodes in the same order. *)
Theorem ChildN_ChildN (d : nat) (h : heap) (e : NodeEnum) (l : list html.ptr)
    (j k : int) (fuel : nat) :
  0 < j -> 0 < k -> j + k < 2 ^ 63 ->
  selection d h (childLevelNodes e (j + k)) = Some l ->
  (d + Nat.max (Z.to_nat (j + k)) (reach e) < fuel)%nat ->
  let p := {| Data := e; Err := None |} in
  NodeSet.Collect fuel (NodeSet.ChildN (NodeSet.ChildN p j) k) h = Done ((l, None), h) /\
  NodeSet.Collect fuel (NodeSet.ChildN p (j + k)) h = Done ((l, None), h).
Proof.
  intros Hj Hk Hjk Hsel Hfuel p. subst p.
  rewrite (ChildN_down {| Data := e; Err := None |} j eq_refl Hj). cbn [Data].
  rewrite (ChildN_down {| Data := childLevelNodes e j; Err := None |} k eq_refl Hk).
  rewrite (ChildN_down {| Data := e; Err := None |} (j + k) eq_refl) by lia.
  cbn [Data]. split.
  - apply emits_Collect, (selection_emits d); [|cbn [reach]; lia].
    cbn [selection] in Hsel |- *. unfold inInt in *.
    replace ((0 <? j + k) && ((- 2 ^ 63 <=? j + k) && (j + k <? 2 ^ 63)))
      with true in Hsel by lia.
    replace ((0 <? j) && ((- 2 ^ 63 <=? j) && (j <? 2 ^ 63))) with true by lia.
    replace ((0 <? k) && ((- 2 ^ 63 <=? k) && (k <? 2 ^ 63))) with true by lia.
    destruct (selection d h e) as [l0|]; [|discriminate]. cbn in Hsel |- *.
    destruct (mapM (childLevelRef d h (j + k)) l0) as [ls|] eqn:Hls; [|discriminate].
    cbn in Hsel. injection Hsel as <-.
    destruct (mapM_two_steps (childLevelRef d h (j + k)) (childLevelRef d h j)
                (childLevelRef d h k) l0 ls) as (mids & outs & H1 & H2 & H3);
      [intros c l _; now apply childLevelRef_add | exact Hls |].
    rewrite H1. cbn. rewrite H2. cbn. now rewrite H3.
  - apply emits_Collect, (selection_emits d); [exact Hsel|cbn [reach]; lia].
Qed.

(** X16, on the sample tree: the grandchildren of the [div]. *)
Lemma ChildN_ChildN_witness :
  let p := {| Data := fixNodes [Some div_]; Err := None |} in
  NodeSet.Collect 8 (NodeSet.ChildN (NodeSet.ChildN p 1) 1) sample
    = Done (([Some txtA; Some txtB], None), sample) /\
  NodeSet.Collect 8 (NodeSet.ChildN p (1 + 1)) sample
    = Done (([Some txtA; Some txtB], None), sample).
Proof.
  exact (ChildN_ChildN 4 sample (fixNodes [Some div_]) [Some txtA; Some txtB] 1 1 8
           eq_refl eq_refl eq_refl eq_refl ltac:(repeat constructor)).
Defined.

(** ** Iterating over a node set *)

Lemma visit_each {St} (g : NodeSet -> M St unit) (l : list html.ptr) (w : world St) :
  (_ <- visit l (fun node => _ <- g {| Data := oneNode node; Err := None |} ;; ret None) ;;
   ret tt) w
  = each l g w.
Proof.
  revert w. induction l as [|p l IH]; intros w; [reflexivity|].
  cbn [visit each]. unfold bind at 1 2 3. unfold bind at 2.
  destruct (g _ w) as [[[] w1]| |]; [|reflexivity|reflexivity].
  cbn. apply IH.
Qed.

(** X17: [NodeSet.ForEach] hands the callback one single-node set per
    node of the selection, in the order of the selection and without
    leaving any out: the callback has no way to stop the iteration.  On
    a failed node set the callback is not called at all. *)
Theorem ForEach_each {St} (d : nat) (h : heap) (e : NodeEnum) (l : list html.ptr)
    (fuel : nat) (g : NodeSet -> M St unit) :
  selection d h e = Some l ->
  (d + reach e < fuel)%nat ->
  (forall p s, p ∈ l ->
     match g {| Data := oneNode p; Err := None |} (World h s) with
     | Done (_, w') => mem w' = h
     | _ => True
     end) ->
  (forall s, NodeSet.ForEach fuel {| Data := e; Err := None |} g (World h s)
             = each l g (World h s)) /\
  (forall err w, NodeSet.ForEach fuel {| Data := e; Err := Some err |} g w = Done (tt, w)).
Proof.
  intros Hsel Hfuel Hg. split; [|reflexivity].
  intros s. unfold NodeSet.ForEach. cbn [Err Data].
  rewrite (selection_emits d h e l fuel Hsel Hfuel).
  - apply visit_each.
  - intros p s' Hp. specialize (Hg p s' Hp). unfold bind.
    now destruct (g _ (World h s')) as [[[] w']| |].
Qed.

(** X17, on the sample tree, with a callback that counts its calls. *)
Lemma ForEach_each_witness :
  NodeSet.ForEach 8 {| Data := childLevelNodes (fixNodes [Some div_]) 1; Err := None |}
    (fun _ w => Done (tt, World (mem w) (S (vis w)))) (World sample 0%nat)
  = Done (tt, World sample 2%nat).
Proof.
  exact (proj1 (ForEach_each 4 sample (childLevelNodes (fixNodes [Some div_]) 1)
                  [Some pA; Some pB] 8 (fun _ w => Done (tt, World (mem w) (S (vis w))))
                  eq_refl ltac:(repeat constructor) (fun _ _ _ => eq_refl)) 0%nat).
Defined.

(** ** Rendering the text again *)

Lemma TrimRight_cons (c : ascii) (r cutset : string) :
  strings.TrimRight (String c r) cutset =
    match strings.TrimRight r cutset with
    | EmptyString => if strings.hasByte cutset c then EmptyString else String c EmptyString
    | r' => String c r'
    end.
Proof. reflexivity. Qed.

Lemma TrimRight_idem (s cutset : string) :
  strings.TrimRight (strings.TrimRight s cutset) cutset = strings.TrimRight s cutset.
Proof.
  induction s as [|c s IH]; [reflexivity|].
  rewrite TrimRight_cons. destruct (strings.TrimRight s cutset) as [|c' r'] eqn:E.
  - destruct (strings.hasByte cutset c) eqn:Hc; [reflexivity|].
    rewrite TrimRight_cons. cbn [strings.TrimRight]. now rewrite Hc.
  - rewrite TrimRight_cons. now rewrite IH.
Qed.

Lemma TrimRight_snoc (s cutset : string) (b : ascii) :
  strings.hasByte cutset b = true ->
  strings.TrimRight (s +:+ String b "") cutset = strings.TrimRight s cutset.
Proof.
  intros Hb. induction s as [|c s IH].
  - change (("" +:+ String b "")%string) with (String b ""). rewrite TrimRight_cons.
    cbn [strings.TrimRight]. now rewrite Hb.
  - change ((String c s +:+ String b "")%string) with (String c (s +:+ String b "")).
    rewrite !TrimRight_cons. now rewrite IH.
Qed.

Lemma Trim_snoc (s cutset : string) (b : ascii) :
  strings.hasByte cutset b = true ->
  strings.Trim (s +:+ String b "") cutset = strings.Trim s cutset.
Proof.
  intros Hb. unfold strings.Trim. induction s as [|c s IH].
  - change (("" +:+ String b "")%string) with (String b "").
    cbn [strings.TrimLeft]. now rewrite Hb.
  - change ((String c s +:+ String b "")%string) with (String c (s +:+ String b "")).
    cbn [strings.TrimLeft]. destruct (strings.hasByte cutset c); [exact IH|].
    change (String c (s +:+ String b "")) with ((String c s +:+ String b "")%string).
    now apply TrimRight_snoc.
Qed.

Lemma Trim_idem (s cutset : string) :
  strings.Trim (strings.Trim s cutset) cutset = strings.Trim s cutset.
Proof.
  unfold strings.Trim.
  assert (Hclean : forall t,
            match t with
            | EmptyString => True
            | String c _ => strings.hasByte cutset c = false
            end ->
            strings.TrimLeft (strings.TrimRight t cutset) cutset
            = strings.TrimRight t cutset).
  { intros [|c r] Hc; [reflexivity|]. rewrite TrimRight_cons.
    destruct (strings.TrimRight r cutset); rewrite ?Hc; cbn [strings.TrimLeft];
      now rewrite Hc. }
  rewrite Hclean; [apply TrimRight_idem|].
  induction s as [|c s IH]; [exact I|].
  cbn [strings.TrimLeft]. now destruct (strings.hasByte cutset c) eqn:Hc.
Qed.

Lemma rerendered_idem (n n' : html.Node) (s : string) :
  html.DataAtom n' = html.DataAtom n ->
  rerendered n' (rerendered n s) = rerendered n s.
Proof.
  intros Ha. unfold rerendered. rewrite Ha. f_equal.
  destruct (bool_decide (html.DataAtom n = atom.P)).
  - rewrite Trim_snoc by reflexivity. apply Trim_idem.
  - rewrite String_append_nil_r. apply Trim_idem.
Qed.

(** X18: [ChildrenAsText(true)] settles at the second call: driven three
    times in a row over the same node, whose subtree is finite, it
    yields a synthetic Text node each time, and the third payload is the
    second one. *)
Theorem ChildrenAsText_settles (d fuel fuel2 fuel3 : nat) (h : heap) (x : html.loc)
    (n : html.Node) :
  h !! x = Some n ->
  subtreeOk d h x = true ->
  (d <= fuel)%nat ->
  (3 <= fuel2)%nat ->
  (3 <= fuel3)%nat ->
  let p := NodeSet.ChildrenAsText (NodeSet.Nodes [Some x]) true in
  exists h1 h2 h3 q1 q2 q3 s2,
    NodeSet.Collect fuel p h = Done (([q1], None), h1) /\
    NodeSet.Collect fuel2 p h1 = Done (([q2], None), h2) /\
    NodeSet.Collect fuel3 p h2 = Done (([q3], None), h3) /\
    payload h2 q2 = Some s2 /\
    payload h3 q3 = Some s2.
Proof.
  intros Hx Hok Hd Hfuel2 Hfuel3 p. subst p.
  destruct (Text_total d fuel h x Hok Hd) as [s1 HT].
  pose proof (replaced_lookup_node _ _ _ s1 Hx) as Hnode.
  set (n1 := setLastChild _ _) in Hnode.
  set (h1 := replaced h x n s1) in *.
  set (s2 := if bool_decide (html.Type_ n = html.TextNode) then s1
             else rerendered n s1).
  pose proof (replaced_lookup_node _ _ _ s2 Hnode) as Hnode2.
  set (n2 := setLastChild _ _) in Hnode2.
  set (h2 := replaced h1 x n1 s2) in *.
  assert (HT2 : Text fuel2 (Some x) h1 = Done s2).
  { unfold s2. case_bool_decide as Hty.
    - destruct fuel as [|f]; [discriminate|].
      rewrite (Text_text_node _ _ _ _ Hx Hty) in HT.
      destruct fuel2 as [|f2]; [lia|].
      rewrite (Text_text_node _ _ _ n1 Hnode Hty). exact HT.
    - destruct fuel2 as [|[|[|f2]]]; try lia.
      now apply Text_replaced. }
  assert (HT3 : Text fuel3 (Some x) h2 = Done s2).
  { unfold s2 in *. case_bool_decide as Hty.
    - destruct fuel as [|f]; [discriminate|].
      rewrite (Text_text_node _ _ _ _ Hx Hty) in HT.
      destruct fuel3 as [|f3]; [lia|].
      rewrite (Text_text_node _ _ _ n2 Hnode2 Hty). exact HT.
    - destruct fuel3 as [|[|[|f3]]]; try lia.
      unfold h2. rewrite (Text_replaced _ h1 x n1 _ Hnode) by exact Hty.
      f_equal. now apply rerendered_idem. }
  exists h1, h2, (replaced h2 x n2 s2),
    (Some (length h)), (Some (length h1)), (Some (length h2)), s2.
  split; [now apply Collect_ChildrenAsText|].
  split; [now apply Collect_ChildrenAsText|].
  split; [now apply Collect_ChildrenAsText|].
  split.
  - unfold payload; cbn. unfold h2. now rewrite (replaced_lookup_text _ _ _ s2 Hnode).
  - unfold payload; cbn. now rewrite (replaced_lookup_text _ _ _ s2 Hnode2).
Qed.

(** X18, on the [div] of the sample tree. *)
Lemma ChildrenAsText_settles_witness :
  let p := NodeSet.ChildrenAsText (NodeSet.Nodes [Some div_]) true in
  exists h1 h2 h3 q1 q2 q3 s2,
    NodeSet.Collect 8 p sample = Done (([q1], None), h1) /\
    NodeSet.Collect 8 p h1 = Done (([q2], None), h2) /\
    NodeSet.Collect 8 p h2 = Done (([q3], None), h3) /\
    payload h2 q2 = Some s2 /\
    payload h3 q3 = Some s2.
Proof.
  exact (ChildrenAsText_settles 4 8 8 8 sample div_ _ eq_refl eq_refl
           ltac:(repeat constructor) ltac:(repeat constructor)
           ltac:(repeat constructor)).
Defined.

(** ** Deep search with a visitor that may break *)

Section Deep.

Context {St : Type}.
Variable h : heap.
Variable f : visitor St.
Variable q : html.Node -> bool.
Hypothesis Hf : decisive f.



End Deep.





(** ** Scan formats *)

Lemma str_append_cons (c : ascii) (a b : string) :
  (String c a +:+ b)%string = String c (a +:+ b).
Proof. reflexivity. Qed.

Lemma str_append_assoc (a b c : string) :
  (a +:+ (b +:+ c))%string = ((a +:+ b) +:+ c)%string.
Proof.
  induction a as [|x a IH]; [reflexivity|]. rewrite !str_append_cons. now rewrite IH.
Qed.

Lemma str_length_append (a b : string) :
  String.length (a +:+ b) = (String.length a + String.length b)%nat.
Proof.
  induction a as [|x a IH]; [reflexivity|]. rewrite str_append_cons. cbn. now rewrite IH.
Qed.

Lemma str_prefix_append (a b : string) : HasPrefix (a +:+ b) a = true.
Proof.
  induction a as [|x a IH]; [reflexivity|]. rewrite str_append_cons.
  cbn [HasPrefix]. now rewrite Ascii.eqb_refl.
Qed.

Lemma sliceFrom_append (a b : string) (k : nat) :
  sliceFrom (a +:+ b) (String.length a + k) = sliceFrom b k.
Proof.
  induction a as [|x a IH]; [reflexivity|]. rewrite str_append_cons. exact IH.
Qed.

Lemma sliceTo_append (a b : string) (k : nat) :
  sliceTo (a +:+ b) (String.length a + k) = (a +:+ sliceTo b k)%string.
Proof.
  induction a as [|x a IH]; [reflexivity|]. rewrite !str_append_cons. cbn. now rewrite IH.
Qed.

Lemma sliceFrom_0 (s : string) : sliceFrom s 0 = s.
Proof. now destruct s. Qed.

Lemma sliceTo_all (s : string) : sliceTo s (String.length s) = s.
Proof. induction s as [|x s IH]; [reflexivity|]. cbn. now rewrite IH. Qed.

Lemma HasSuffix_append (a b : string) : HasSuffix (a +:+ b) b = true.
Proof.
  unfold HasSuffix. rewrite str_length_append.
  replace (String.length a + String.length b - String.length b)%nat
    with (String.length a + 0)%nat by lia.
  rewrite sliceFrom_append, sliceFrom_0, String.eqb_refl.
  rewrite andb_true_r. apply Nat.leb_le. lia.
Qed.

Lemma no_percent_cons (d : ascii) (r : string) :
  strings.hasByte (String d r) "%" = false ->
  Ascii.eqb "%" d = false /\ strings.hasByte r "%" = false.
Proof.
  cbn [strings.hasByte]. destruct (Ascii.eqb "%" d) eqn:E; [discriminate|].
  intros Hr. now split.
Qed.

Lemma Index_absent (s u : string) :
  strings.hasByte s "%" = false -> Index s (String "%" u) = -1.
Proof.
  induction s as [|d r IH]; [reflexivity|]. intros Hs.
  apply no_percent_cons in Hs as [Hd Hr]. cbn [Index HasPrefix].
  rewrite Hd. cbn [andb]. now rewrite (IH Hr).
Qed.

Lemma Index_after (pre t u : string) :
  strings.hasByte pre "%" = false ->
  0 <= Index t (String "%" u) ->
  Index (pre +:+ t) (String "%" u)
  = Z.of_nat (String.length pre) + Index t (String "%" u).
Proof.
  intros Hpre Ht. induction pre as [|d r IH]; [reflexivity|].
  apply no_percent_cons in Hpre as [Hd Hr]. rewrite str_append_cons.
  cbn [Index HasPrefix String.length].
  rewrite Hd. cbn [andb]. rewrite (IH Hr). cbv zeta.
  replace (Z.of_nat (String.length r) + Index t (String "%" u) <? 0) with false by lia.
  lia.
Qed.

Lemma Replace_after (pre t : string) :
  strings.hasByte pre "%" = false ->
  Replace (pre +:+ t) "%%" "%" = (pre +:+ Replace t "%%" "%")%string.
Proof.
  intros Hpre. unfold Replace. induction pre as [|d r IH]; [reflexivity|].
  apply no_percent_cons in Hpre as [Hd Hr]. rewrite !str_append_cons.
  cbn [replaceFrom HasPrefix].
  rewrite Hd. cbn [andb]. now rewrite (IH Hr).
Qed.

(** X20: [parseFormat] splits a format at its first [%d].  For a prefix
    free of percent signs it returns the prefix and the rest with every
    doubled percent sign undoubled; a [%d] whose percent sign is the
    second of a doubled one is taken for the directive all the same, the
    first percent sign going to the prefix; and a format free of percent
    signs is rejected with [ErrInvalidScanFormat]. *)
Theorem parseFormat_splits (pre suf : string) :
  strings.hasByte pre "%" = false ->
  parseFormat (pre +:+ String "%" (String "d" suf))
  = (pre, Replace suf "%%" "%", None) /\
  parseFormat (pre +:+ String "%" (String "%" (String "d" suf)))
  = ((pre +:+ "%")%string, Replace suf "%%" "%", None) /\
  parseFormat pre = (EmptyString, EmptyString, Some ErrInvalidScanFormat).
Proof.
  intros Hpre. unfold parseFormat. split; [|split].
  - rewrite (Index_after pre _ "d" Hpre) by (cbn; lia).
    change (Index (String "%" (String "d" suf)) "%d") with 0. cbv zeta.
    rewrite !(proj2 (Z.ltb_ge (Z.of_nat (String.length pre) + 0) 0)) by lia.
    replace (Z.to_nat (Z.of_nat (String.length pre) + 0))
      with (String.length pre + 0)%nat by lia.
    replace (Z.to_nat (Z.of_nat (String.length pre) + 0 + 2))
      with (String.length pre + 2)%nat by lia.
    rewrite sliceTo_append, sliceFrom_append.
    cbn [sliceTo sliceFrom]. rewrite Replace_after by exact Hpre.
    change (Replace "" "%%" "%") with EmptyString.
    now rewrite String_append_nil_r, sliceFrom_0.
  - rewrite (Index_after pre _ "d" Hpre) by (cbn; lia).
    change (Index (String "%" (String "%" (String "d" suf))) "%d") with 1. cbv zeta.
    rewrite !(proj2 (Z.ltb_ge (Z.of_nat (String.length pre) + 1) 0)) by lia.
    replace (Z.to_nat (Z.of_nat (String.length pre) + 1))
      with (String.length pre + 1)%nat by lia.
    replace (Z.to_nat (Z.of_nat (String.length pre) + 1 + 2))
      with (String.length pre + 3)%nat by lia.
    rewrite sliceTo_append, sliceFrom_append.
    cbn [sliceTo sliceFrom]. rewrite Replace_after by exact Hpre.
    change (Replace (String "%" (sliceTo (String "%" (String "d" suf)) 0)) "%%" "%")
      with ("%"%string).
    now rewrite sliceFrom_0.
  - rewrite !(Index_absent pre) by exact Hpre. reflexivity.
Qed.

(** X20, on a format with an equals sign. *)
Lemma parseFormat_splits_witness :
  parseFormat "n=%d%%" = ("n="%string, "%"%string, None) /\
  parseFormat "n=%%d%%" = ("n=%"%string, "%"%string, None) /\
  parseFormat "n=" = (EmptyString, EmptyString, Some ErrInvalidScanFormat).
Proof. exact (parseFormat_splits "n=" "%%" eq_refl). Defined.

(** X21: for a format that [parseFormat] accepts, [fmtSscanf] hands to
    [strconv.Atoi] what stands between the prefix and the suffix, commas
    removed, when the text is the prefix, something and the suffix;
    answers [ErrUnmatchedScanFormat], leaving the integer alone, when the
    text lacks the prefix or the suffix; and panics on slice bounds when
    the text has both but is shorter than the two together. *)
Theorem fmtSscanf_scans (Atoi : string -> int * error) (format prefix suffix : string)
    (v : int) :
  parseFormat format = (prefix, suffix, None) ->
  (forall mid,
     fmtSscanf Atoi (prefix +:+ (mid +:+ suffix)) format v
     = Done (Atoi (Replace mid "," ""))) /\
  (forall text,
     HasPrefix text prefix && HasSuffix text suffix = false ->
     fmtSscanf Atoi text format v = Done (v, Some ErrUnmatchedScanFormat)) /\
  (forall text,
     HasPrefix text prefix = true ->
     HasSuffix text suffix = true ->
     (String.length text < String.length prefix + String.length suffix)%nat ->
     fmtSscanf Atoi text format v = Panics IndexOutOfRange).
Proof.
  intros Hparse. unfold fmtSscanf. rewrite Hparse. split; [|split].
  - intros mid. rewrite str_prefix_append.
    rewrite str_append_assoc, HasSuffix_append. cbn [andb].
    unfold slice. rewrite !str_length_append.
    replace (String.length prefix + String.length mid + String.length suffix
             - String.length suffix)%nat
      with (String.length prefix + String.length mid)%nat by lia.
    replace ((String.length prefix <=? String.length prefix + String.length mid)%nat
             && (String.length prefix + String.length mid
                 <=? String.length prefix + String.length mid + String.length suffix)%nat)
      with true by (symmetry; apply andb_true_intro; split; apply Nat.leb_le; lia).
    rewrite <- str_append_assoc.
    replace (String.length prefix) with (String.length prefix + 0)%nat at 1 by lia.
    rewrite sliceFrom_append, sliceFrom_0.
    replace (String.length prefix + String.length mid - String.length prefix)%nat
      with (String.length mid + 0)%nat by lia.
    rewrite sliceTo_append. cbn [sliceTo].
    replace (sliceTo suffix 0) with EmptyString by (now destruct suffix).
    now rewrite String_append_nil_r.
  - intros text ->. reflexivity.
  - intros text Hp Hs Hlen. rewrite Hp, Hs. cbn [andb]. unfold slice.
    unfold HasSuffix in Hs. apply andb_prop in Hs as [Hs _]. apply Nat.leb_le in Hs.
    replace (String.length prefix <=? String.length text - String.length suffix)%nat
      with false by (symmetry; apply Nat.leb_gt; lia).
    reflexivity.
Qed.

(** X21, on a format whose prefix and suffix overlap in the text [aba]. *)
Lemma fmtSscanf_scans_witness :
  (forall mid,
     fmtSscanf (fun _ => (0, None)) ("ab" +:+ (mid +:+ "ba")) "ab%dba" 7
     = Done (0, None)) /\
  (forall text,
     HasPrefix text "ab" && HasSuffix text "ba" = false ->
     fmtSscanf (fun _ => (0, None)) text "ab%dba" 7
     = Done (7, Some ErrUnmatchedScanFormat)) /\
  (forall text,
     HasPrefix text "ab" = true ->
     HasSuffix text "ba" = true ->
     (String.length text < 2 + 2)%nat ->
     fmtSscanf (fun _ => (0, None)) text "ab%dba" 7 = Panics IndexOutOfRange).
Proof. exact (fmtSscanf_scans (fun _ => (0, None)) "ab%dba" "ab" "ba" 7 eq_refl). Defined.

(** ** The text of an element with Text children *)

Lemma printText_say (v : string) (h : heap) (p : textPrinter) :
  printText v (World h p) = Done (tt, World h (say p v)).
Proof.
  unfold printText, say. case_bool_decide; [reflexivity|]. cbn [vis mem].
  destruct (notLineStart p) eqn:E; cbn [data notLineStart]; rewrite ?E;
    [reflexivity|]. now rewrite String_append_nil_r.
Qed.

Lemma printNode_text_children (h : heap) (d g : nat) :
  forall start cs ts f (p : textPrinter),
    chain d h html.NextSibling start = Some cs ->
    mapM (textOf h) cs = Some ts ->
    (d <= f)%nat ->
    for_links (A := unit) f html.NextSibling
      (fun child => _ <- printNode (S g) child ;; ret None) start (World h p)
    = Done (None,
            World h (foldl say p (List.map (fun t => strings.Trim t blanks) ts))).
Proof.
  induction d as [|d IH]; intros start cs ts f p Hchain Hts Hf; [discriminate|].
  destruct f as [|f]; [lia|].
  cbn in Hchain. destruct start as [x|].
  - destruct (h !! x) as [n|] eqn:Hx; [|discriminate]. cbn in Hchain.
    destruct (chain d h html.NextSibling (html.NextSibling n)) as [l|] eqn:Hl;
      [|discriminate].
    cbn in Hchain. injection Hchain as <-.
    apply mapM_Some in Hts. inversion Hts as [|? t ? ts' Ht Hrest]; subst.
    unfold textOf in Ht. rewrite Hx in Ht. cbn in Ht.
    destruct (bool_decide (html.Type_ n = html.TextNode)) eqn:Hty; [|discriminate].
    injection Ht as <-.
    rewrite for_links_unfold.
    erewrite bind_Done; cycle 1.
    { erewrite bind_Done; [reflexivity|].
      rewrite printNode_unfold.
      erewrite bind_Done by (apply deref_Some; exact Hx).
      rewrite Hty. apply printText_say. }
    cbv beta iota.
    erewrite bind_Done by (apply deref_Some; exact Hx).
    cbn [List.map foldl].
    apply (IH _ l); [exact Hl|now apply mapM_Some|lia].
  - injection Hchain as <-. apply mapM_Some in Hts. inversion Hts; subst. reflexivity.
Qed.

Lemma joinWords_cons (w : string) (ws : list string) :
  joinWords (w :: ws)
  = match ws with
    | [] => w
    | _ :: _ => (w +:+ (" " +:+ joinWords ws))%string
    end.
Proof. now destruct ws. Qed.

(** What a run of [printText] calls appends is the non-empty words
    joined by single spaces, after a space when the line has begun. *)
Lemma foldl_say (ws : list string) :
  forall p : textPrinter,
    foldl say p ws
    = match List.filter nonEmpty ws with
      | [] => p
      | w :: rest =>
        {| data := ((data p +:+ (if notLineStart p then " " else ""))
                    +:+ joinWords (w :: rest))%string;
           notLineStart := true |}
      end.
Proof.
  induction ws as [|v ws IH]; intros p; [reflexivity|].
  cbn [foldl List.filter]. rewrite IH.
  destruct (decide (v = ""%string)) as [->|Hv].
  - replace (say p "") with p
      by (unfold say; now rewrite bool_decide_eq_true_2 by reflexivity).
    reflexivity.
  - replace (say p v)
      with {| data := ((data p +:+ (if notLineStart p then " " else "")) +:+ v)%string;
              notLineStart := true |}
      by (unfold say; now rewrite bool_decide_eq_false_2 by exact Hv).
    unfold nonEmpty at 2.
    replace (String.eqb v "") with false
      by (symmetry; apply String.eqb_neq; exact Hv).
    cbn [negb]. rewrite (joinWords_cons v).
    destruct (List.filter nonEmpty ws) as [|w rest]; [reflexivity|].
    cbn [data notLineStart]. f_equal.
    now rewrite <- !str_append_assoc.
Qed.

(** X22: the text of a node that is not a Text node and whose children
    are all Text nodes is their payloads, each trimmed of blanks at both
    ends, the empty ones left out, joined by single spaces; a newline
    follows when the node is a paragraph. *)
Theorem Text_of_text_children (d fuel : nat) (h : heap) (x : html.loc) (n : html.Node)
    (cs : list html.loc) (ts : list string) :
  h !! x = Some n ->
  html.Type_ n <> html.TextNode ->
  chain d h html.NextSibling (html.FirstChild n) = Some cs ->
  mapM (textOf h) cs = Some ts ->
  (d < fuel)%nat ->
  Text (S fuel) (Some x) h
  = Done (joinWords
            (List.filter nonEmpty (List.map (fun t => strings.Trim t blanks) ts))
          +:+ (if bool_decide (html.DataAtom n = atom.P) then String lf "" else ""))%string.
Proof.
  intros Hx Hty Hcs Hts Hfuel. unfold Text.
  destruct fuel as [|g]; [lia|].
  rewrite printNode_unfold.
  erewrite bind_Done by (apply deref_Some; exact Hx).
  rewrite bool_decide_eq_false_2 by exact Hty.
  erewrite bind_Done
    by (apply (printNode_text_children h d g _ cs ts); [exact Hcs|exact Hts|lia]).
  rewrite foldl_say. unfold endOfNode. cbn [mem vis].
  destruct (List.filter nonEmpty _) as [|w rest];
    case_bool_decide; cbn [data vis notLineStart];
    rewrite ?String_append_nil_r; reflexivity.
Qed.

(** X22, on the first paragraph of the sample tree. *)
Lemma Text_of_text_children_witness :
  Text 9 (Some pA) sample = Done ("A" +:+ String lf "")%string.
Proof.
  exact (Text_of_text_children 4 8 sample pA _ [txtA] ["A"%string]
           eq_refl ltac:(discriminate) eq_refl eq_refl ltac:(repeat constructor)).
Defined.
